(** * Yggdrasil: the world tree of music

    A shallow embedding of [Frank_Draft5.py]: the nested dictionary
    [Yggdrasil] (genre, artist, album, song, metadata), the function
    [add_song], the four random selectors, the subscript chain of
    [enter_bragi], and [save_yggdrasil] / [load_yggdrasil], together with
    the part of Python's [json] and [random] modules that they call, as
    CPython 3.11 has them.

    Python values are dynamically typed, so the tree is a [value], and the
    operations raise [TypeError], [KeyError], ... where the Python
    operations do.  The process is a [world]: the global tree, the files
    and the random generator; a statement is a function on worlds that
    returns a result or raises.

    Two things are left out.  Floating-point numbers are no [value]: a
    document with a float literal is answered by [Beyond FloatLiteral].  A
    file holds text, so the UTF-8 layer of [open(..., encoding="utf-8")] is
    not there, nor are failures of the file system; [print] is dropped. *)

From Stdlib Require Import String Ascii List ZArith NArith Bool Lia.
From Stdlib Require Import DecimalFacts DecimalN DecimalPos.
Import ListNotations.

(** ** Strings

    A Python [str] is a sequence of code points. *)

Definition str := list N.

(** Text of the development, written as a Rocq string literal. *)
Definition u (s : string) : str := map N_of_ascii (list_ascii_of_string s).

Fixpoint str_eqb (a b : str) : bool :=
  match a, b with
  | [], [] => true
  | x :: a', y :: b' => N.eqb x y && str_eqb a' b'
  | _, _ => false
  end.

(** [a] is a prefix of [b] *)
Fixpoint startswith (a b : str) : bool :=
  match a, b with
  | [], _ => true
  | x :: a', y :: b' => N.eqb x y && startswith a' b'
  | _ :: _, [] => false
  end.

(** [a in b] on two strings: substring test *)
Fixpoint str_contains (a b : str) : bool :=
  startswith a b || match b with [] => false | _ :: b' => str_contains a b' end.

(** ** Values *)

Unset Elimination Schemes.

Inductive value : Type :=
| VNone
| VBool (b : bool)
| VInt (z : Z)
| VStr (s : str)
| VList (l : list value)
| VDict (d : list (str * value)).

Set Elimination Schemes.

(** A Python [dict] with [str] keys: insertion-ordered, one entry per key. *)
Definition dict := list (str * value).

Fixpoint dict_get (k : str) (d : dict) : option value :=
  match d with
  | [] => None
  | (k', v) :: d' => if str_eqb k k' then Some v else dict_get k d'
  end.

(** [d[k] = v]: an existing key keeps its position, a new key goes last. *)
Fixpoint dict_set (k : str) (v : value) (d : dict) : dict :=
  match d with
  | [] => [(k, v)]
  | (k', v') :: d' =>
      if str_eqb k k' then (k', v) :: d' else (k', v') :: dict_set k v d'
  end.

Definition dict_mem (k : str) (d : dict) : bool :=
  match dict_get k d with Some _ => true | None => false end.

Definition dict_keys (d : dict) : list str := map fst d.

(** ** Exceptions and results *)

Inductive json_msg : Type :=
| ExpectingValue
| ExpectingPropertyName
| ExpectingColon
| ExpectingComma
| UnterminatedString
| InvalidControlCharacter
| InvalidEscape
| InvalidUnicodeEscape
| ExtraData
| UnexpectedBOM.

Inductive exn : Type :=
| KeyError (k : str)
| IndexError
| TypeError
| AttributeError
| JSONDecodeError (m : json_msg).

(** What the embedding does not cover. *)
Inductive limit : Type :=
| FloatLiteral
| OutOfFuel.

Inductive result (A : Type) : Type :=
| Return (a : A)
| Raise (e : exn)
| Beyond (w : limit).

Arguments Return {A} a.
Arguments Raise {A} e.
Arguments Beyond {A} w.

Definition rbind {A B} (c : result A) (k : A -> result B) : result B :=
  match c with
  | Return a => k a
  | Raise e => Raise e
  | Beyond w => Beyond w
  end.

Declare Scope result_scope.
Delimit Scope result_scope with result.
Notation "x <- c ;; k" := (rbind c (fun x => k))
  (at level 61, c at next level, right associativity) : result_scope.

(** ** Operators of the language *)

(** [bool(v)] *)
Definition truthy (v : value) : bool :=
  match v with
  | VNone => false
  | VBool b => b
  | VInt z => negb (Z.eqb z 0)
  | VStr s => match s with [] => false | _ => true end
  | VList l => match l with [] => false | _ => true end
  | VDict d => match d with [] => false | _ => true end
  end.

(** [a or b] *)
Definition py_or (a b : value) : value := if truthy a then a else b.

(** [k in c], for a string [k] *)
Definition contains (k : str) (c : value) : result bool :=
  match c with
  | VDict d => Return (dict_mem k d)
  | VList l =>
      Return (existsb (fun x =>
                match x with VStr s => str_eqb k s | _ => false end) l)
  | VStr s => Return (str_contains k s)
  | _ => Raise TypeError
  end.

(** [c[k]], for a string [k] *)
Definition getitem (c : value) (k : str) : result value :=
  match c with
  | VDict d =>
      match dict_get k d with
      | Some v => Return v
      | None => Raise (KeyError k)
      end
  | _ => Raise TypeError
  end.

(** [c[k] = v], for a string [k] *)
Definition setitem (c : value) (k : str) (v : value) : result value :=
  match c with
  | VDict d => Return (VDict (dict_set k v d))
  | _ => Raise TypeError
  end.

(** [c.keys()] *)
Definition keys (c : value) : result (list str) :=
  match c with
  | VDict d => Return (dict_keys d)
  | _ => Raise AttributeError
  end.

(** A statement that mutates the object [c[k]] in place: the object is
    read, changed by [f], and [c] afterwards holds the changed object under
    the same key. *)
Definition with_item (c : value) (k : str) (f : value -> result value)
  : result value :=
  (x <- getitem c k ;; x' <- f x ;; setitem c k x')%result.

(** ** The state of the process *)

(** The generator of the [random] module: a tape of raw draws and a cursor. *)
Record rng : Type := { tape : nat -> nat; cursor : nat }.

(** [_randbelow(n)], for [0 < n] *)
Definition randbelow (n : nat) (g : rng) : nat * rng :=
  (Nat.modulo (tape g (cursor g)) n,
   {| tape := tape g; cursor := S (cursor g) |}).

(** The files: a file name is mapped to the text that the file holds. *)
Definition disk_t := string -> option str.

Definition disk_write (f : string) (content : str) (d : disk_t) : disk_t :=
  fun f' => if String.eqb f' f then Some content else d f'.

Record world : Type := {
  Yggdrasil : value;   (* the global music tree *)
  disk : disk_t;
  gen : rng
}.

Definition set_tree (w : world) (t : value) : world :=
  {| Yggdrasil := t; disk := disk w; gen := gen w |}.

Definition set_disk (w : world) (d : disk_t) : world :=
  {| Yggdrasil := Yggdrasil w; disk := d; gen := gen w |}.

Definition set_gen (w : world) (g : rng) : world :=
  {| Yggdrasil := Yggdrasil w; disk := disk w; gen := g |}.

(** Statements: state passing, with exceptions. *)
Definition M (A : Type) : Type := world -> result A * world.

Definition ret {A} (a : A) : M A := fun w => (Return a, w).

Definition bind {A B} (c : M A) (k : A -> M B) : M B :=
  fun w =>
    match c w with
    | (Return a, w') => k a w'
    | (Raise e, w') => (Raise e, w')
    | (Beyond l, w') => (Beyond l, w')
    end.

Definition lift {A} (r : result A) : M A := fun w => (r, w).

Definition get_tree : M value := fun w => (Return (Yggdrasil w), w).

Definition put_tree (t : value) : M unit := fun w => (Return tt, set_tree w t).

Declare Scope stmt_scope.
Delimit Scope stmt_scope with stmt.
Notation "x <- c ;; k" := (bind c (fun x => k))
  (at level 61, c at next level, right associativity) : stmt_scope.
Notation "c ;; k" := (bind c (fun _ => k))
  (at level 61, right associativity) : stmt_scope.

(** [Yggdrasil[k1] = v] *)
Definition assign1 (k1 : str) (v : value) : M unit :=
  (Y <- get_tree ;;
   Y' <- lift (setitem Y k1 v) ;;
   put_tree Y')%stmt.

(** [Yggdrasil[k1][k2] = v] *)
Definition assign2 (k1 k2 : str) (v : value) : M unit :=
  (Y <- get_tree ;;
   Y' <- lift (with_item Y k1 (fun G => setitem G k2 v)) ;;
   put_tree Y')%stmt.

(** [Yggdrasil[k1][k2][k3] = v] *)
Definition assign3 (k1 k2 k3 : str) (v : value) : M unit :=
  (Y <- get_tree ;;
   Y' <- lift (with_item Y k1 (fun G =>
           with_item G k2 (fun A => setitem A k3 v))) ;;
   put_tree Y')%stmt.

(** [Yggdrasil[k1][k2][k3][k4] = v] *)
Definition assign4 (k1 k2 k3 k4 : str) (v : value) : M unit :=
  (Y <- get_tree ;;
   Y' <- lift (with_item Y k1 (fun G =>
           with_item G k2 (fun A =>
             with_item A k3 (fun B => setitem B k4 v)))) ;;
   put_tree Y')%stmt.

(** The expression [Yggdrasil[k1]...[kn]] *)
Fixpoint subscript (c : value) (path : list str) : result value :=
  match path with
  | [] => Return c
  | k :: path' => (x <- getitem c k ;; subscript x path')%result
  end.

(** ** Data structure functions *)

(** [add_song(genre, artist, album, song_name, metadata=None)] *)
Definition add_song (genre artist album song_name : str) (metadata : value)
  : M unit :=
  (Y <- get_tree ;;
   present <- lift (contains genre Y) ;;
   (if negb present then assign1 genre (VDict []) else ret tt) ;;
   Y <- get_tree ;;
   G <- lift (getitem Y genre) ;;
   present <- lift (contains artist G) ;;
   (if negb present then assign2 genre artist (VDict []) else ret tt) ;;
   Y <- get_tree ;;
   A <- lift (subscript Y [genre; artist]) ;;
   present <- lift (contains album A) ;;
   (if negb present then assign3 genre artist album (VDict []) else ret tt) ;;
   assign4 genre artist album song_name (py_or metadata (VDict [])))%stmt.

(** ** Random selection functions *)

(** [random.choice(seq)]: [if not len(seq): raise IndexError(...)], then
    [seq[self._randbelow(len(seq))]]. *)
Definition random_choice {A} (seq : list A) : M A :=
  fun w =>
    match seq with
    | [] => (Raise IndexError, w)
    | x :: _ =>
        let (i, g') := randbelow (length seq) (gen w) in
        (Return (nth i seq x), set_gen w g')
    end.

Definition random_genre : M str :=
  (Y <- get_tree ;;
   ks <- lift (keys Y) ;;
   random_choice ks)%stmt.

Definition random_artist (genre : str) : M str :=
  (Y <- get_tree ;;
   G <- lift (subscript Y [genre]) ;;
   ks <- lift (keys G) ;;
   random_choice ks)%stmt.

Definition random_album (genre artist : str) : M str :=
  (Y <- get_tree ;;
   A <- lift (subscript Y [genre; artist]) ;;
   ks <- lift (keys A) ;;
   random_choice ks)%stmt.

Definition random_song (genre artist album : str) : M str :=
  (Y <- get_tree ;;
   B <- lift (subscript Y [genre; artist; album]) ;;
   ks <- lift (keys B) ;;
   random_choice ks)%stmt.

(** ** User navigation *)

(** [Yggdrasil[genre][artist][album][song]], the lookup of [enter_bragi] *)
Definition lookup (genre artist album song : str) : M value :=
  (Y <- get_tree ;;
   lift (subscript Y [genre; artist; album; song]))%stmt.

(** [Yggdrasil[k1]...[kn].keys()], the key listing of the prompts of
    [enter_bragi] and of the random selectors *)
Definition enumerate_keys (prefix : list str) : M (list str) :=
  (Y <- get_tree ;;
   node <- lift (subscript Y prefix) ;;
   lift (keys node))%stmt.

(** Option 1 of [enter_bragi], with the four answers of the user as
    arguments: [None] when the tree is empty and the function returns
    early, else the metadata found. *)
Definition enter_bragi_manual (genre artist album song : str)
  : M (option value) :=
  (Y <- get_tree ;;
   if negb (truthy Y) then ret None
   else
     _ <- enumerate_keys [] ;;
     _ <- enumerate_keys [genre] ;;
     _ <- enumerate_keys [genre; artist] ;;
     _ <- enumerate_keys [genre; artist; album] ;;
     metadata <- lookup genre artist album song ;;
     ret (Some metadata))%stmt.

(** Option 2 of [enter_bragi]: [None] when the tree is empty and the
    function returns early, else the path selected and its metadata. *)
Definition enter_bragi_random
  : M (option (str * str * str * str * value)) :=
  (Y <- get_tree ;;
   if negb (truthy Y) then ret None
   else
     genre <- random_genre ;;
     artist <- random_artist genre ;;
     album <- random_album genre artist ;;
     song <- random_song genre artist album ;;
     metadata <- lookup genre artist album song ;;
     ret (Some (genre, artist, album, song, metadata)))%stmt.

(** Running a statement: its result and the state it leaves. *)
Definition eval {A} (c : M A) (w : world) : result A := fst (c w).
Definition exec {A} (c : M A) (w : world) : world := snd (c w).

Local Open Scope N_scope.

(** ** The [json] module: encoder

    [json.dump(obj, f, indent=4)] with the other options at their defaults
    ([ensure_ascii=True], [sort_keys=False]).  Characters are written as
    code points: 34 is the double quote, 92 the backslash, 117 the letter u,
    123 and 125 the braces, 91 and 93 the brackets, 44 the comma, 58 the
    colon, 32 the space, 10 the newline, 45 the minus sign, 48 to 57 the
    digits. *)

Definition hex_digit (d : N) : N := if d <? 10 then 48 + d else 87 + d.

(** ['{0:04x}'.format(n)] *)
Definition hex4 (n : N) : str :=
  [hex_digit (n / 4096 mod 16); hex_digit (n / 256 mod 16);
   hex_digit (n / 16 mod 16); hex_digit (n mod 16)].

Definition uescape (n : N) : str := 92 :: 117 :: hex4 n.

(** The replacement of one character in [encode_basestring_ascii]. *)
Definition escape_char (c : N) : str :=
  if c =? 34 then [92; 34]
  else if c =? 92 then [92; 92]
  else if c =? 10 then [92; 110]
  else if c =? 13 then [92; 114]
  else if c =? 9 then [92; 116]
  else if c =? 8 then [92; 98]
  else if c =? 12 then [92; 102]
  else if (32 <=? c) && (c <=? 126) then [c]
  else if c <? 0x10000 then uescape c
  else
    let n := c - 0x10000 in
    uescape (N.lor 0xd800 (N.land (N.shiftr n 10) 0x3ff))
    ++ uescape (N.lor 0xdc00 (N.land n 0x3ff)).

Definition encode_basestring_ascii (s : str) : str :=
  34 :: flat_map escape_char s ++ [34].

Fixpoint uint_chars (d : Decimal.uint) : str :=
  match d with
  | Decimal.Nil => []
  | Decimal.D0 d => 48 :: uint_chars d
  | Decimal.D1 d => 49 :: uint_chars d
  | Decimal.D2 d => 50 :: uint_chars d
  | Decimal.D3 d => 51 :: uint_chars d
  | Decimal.D4 d => 52 :: uint_chars d
  | Decimal.D5 d => 53 :: uint_chars d
  | Decimal.D6 d => 54 :: uint_chars d
  | Decimal.D7 d => 55 :: uint_chars d
  | Decimal.D8 d => 56 :: uint_chars d
  | Decimal.D9 d => 57 :: uint_chars d
  end.

(** [int.__repr__] *)
Definition int_repr (z : Z) : str :=
  match z with
  | Z0 => [48]
  | Zpos p => uint_chars (Pos.to_uint p)
  | Zneg p => 45 :: uint_chars (Pos.to_uint p)
  end.

(** ['\n' + indent * level], for [indent=4] *)
Definition newline_indent (level : nat) : str :=
  10 :: repeat 32 (4 * level)%nat.

Definition is_container (o : value) : bool :=
  match o with
  | VList _ | VDict _ => true
  | _ => false
  end.

Section Items.

(** The encoder of the items and their indentation level. *)
Variable encode_item : value -> list str.
Variable level : nat.

(** The loop of [_iterencode_list] *)
Fixpoint list_chunks (first : bool) (l : list value) : list str :=
  match l with
  | [] => []
  | x :: l' =>
      let buf :=
        if first then 91 :: newline_indent level
        else 44 :: newline_indent level in
      (if is_container x then buf :: encode_item x
       else [buf ++ concat (encode_item x)])
      ++ list_chunks false l'
  end.

(** The loop of [_iterencode_dict] *)
Fixpoint dict_chunks (first : bool) (l : list (str * value)) : list str :=
  match l with
  | [] => []
  | (k, x) :: l' =>
      (if first then [] else [44 :: newline_indent level])
      ++ encode_basestring_ascii k :: [58; 32]
      :: encode_item x
      ++ dict_chunks false l'
  end.

End Items.

(** The chunks that [iterencode] yields, one after the other. *)
Fixpoint iterencode (level : nat) (o : value) {struct o} : list str :=
  match o with
  | VNone => [u "null"]
  | VBool true => [u "true"]
  | VBool false => [u "false"]
  | VInt z => [int_repr z]
  | VStr s => [encode_basestring_ascii s]
  | VList [] => [u "[]"]
  | VList ((_ :: _) as lst) =>
      list_chunks (iterencode (S level)) (S level) true lst
      ++ [newline_indent level; [93]]
  | VDict [] => [u "{}"]
  | VDict ((_ :: _) as dct) =>
      [123] :: newline_indent (S level)
      :: dict_chunks (iterencode (S level)) (S level) true dct
      ++ [newline_indent level; [125]]
  end.

(** [json.dumps(o, indent=4)] *)
Definition json_dumps (o : value) : str := concat (iterencode 0 o).

(** ** The [json] module: decoder

    [json.load(f)] with the default decoder, strict.  Further code points:
    46 is the dot, 101 and 69 the letters e and E, 43 the plus sign, 47 the
    slash, 98, 102, 110, 114 and 116 the letters b, f, n, r and t, 9 the
    tab, 13 the carriage return, 0xfeff the byte order mark. *)

Definition is_ws (c : N) : bool :=
  (c =? 32) || (c =? 9) || (c =? 10) || (c =? 13).

Fixpoint skip_ws (s : str) : str :=
  match s with
  | c :: s' => if is_ws c then skip_ws s' else s
  | [] => []
  end.

Definition is_digit (c : N) : bool := (48 <=? c) && (c <=? 57).

Definition hex_value (c : N) : option N :=
  if (48 <=? c) && (c <=? 57) then Some (c - 48)
  else if (97 <=? c) && (c <=? 102) then Some (c - 87)
  else if (65 <=? c) && (c <=? 70) then Some (c - 55)
  else None.

(** Four hexadecimal digits *)
Definition hex4_value (a b c d : N) : option N :=
  match hex_value a, hex_value b, hex_value c, hex_value d with
  | Some x, Some y, Some z, Some t => Some (((x * 16 + y) * 16 + z) * 16 + t)
  | _, _, _, _ => None
  end.

Definition is_high_surrogate (c : N) : bool := (0xd800 <=? c) && (c <=? 0xdbff).
Definition is_low_surrogate (c : N) : bool := (0xdc00 <=? c) && (c <=? 0xdfff).

Definition join_surrogates (hi lo : N) : N :=
  0x10000 + N.lor (N.shiftl (hi - 0xd800) 10) (lo - 0xdc00).

(** The character that a backslash escape stands for *)
Definition backslash (c : N) : option N :=
  if c =? 34 then Some 34
  else if c =? 92 then Some 92
  else if c =? 47 then Some 47
  else if c =? 98 then Some 8
  else if c =? 102 then Some 12
  else if c =? 110 then Some 10
  else if c =? 114 then Some 13
  else if c =? 116 then Some 9
  else None.

Definition decode_error {A} (m : json_msg) : result A :=
  Raise (JSONDecodeError m).

(** [scanstring], strict: [s] is the text after the opening quote, [acc]
    the characters decoded so far, last first.  Returns the string and the
    text after the closing quote. *)
Fixpoint scanstring (s : str) (acc : str) {struct s} : result (str * str) :=
  match s with
  | [] => decode_error UnterminatedString
  | c :: s1 =>
      if c =? 34 then Return (rev acc, s1)
      else if c =? 92 then
        match s1 with
        | [] => decode_error UnterminatedString
        | esc :: s2 =>
            if esc =? 117 then
              match s2 with
              | h1 :: h2 :: h3 :: h4 :: ((_ :: _) as s3) =>
                  match hex4_value h1 h2 h3 h4 with
                  | None => decode_error InvalidUnicodeEscape
                  | Some c1 =>
                      match s3 with
                      | b :: v :: g1 :: g2 :: g3 :: g4 :: ((_ :: _) as s4) =>
                          if is_high_surrogate c1 && (b =? 92) && (v =? 117)
                          then
                            match hex4_value g1 g2 g3 g4 with
                            | None => decode_error InvalidUnicodeEscape
                            | Some c2 =>
                                if is_low_surrogate c2 then
                                  scanstring s4
                                    (join_surrogates c1 c2 :: acc)
                                else scanstring s3 (c1 :: acc)
                            end
                          else scanstring s3 (c1 :: acc)
                      | _ => scanstring s3 (c1 :: acc)
                      end
                  end
              | _ => decode_error InvalidUnicodeEscape
              end
            else
              match backslash esc with
              | Some ch => scanstring s2 (ch :: acc)
              | None => decode_error InvalidEscape
              end
        end
      else if c <=? 31 then decode_error InvalidControlCharacter
      else scanstring s1 (c :: acc)
  end.

Fixpoint span_digits (s : str) : str * str :=
  match s with
  | c :: s' =>
      if is_digit c then let (ds, r) := span_digits s' in (c :: ds, r)
      else ([], s)
  | [] => ([], [])
  end.

Definition digit_of_char (c : N) (d : Decimal.uint) : Decimal.uint :=
  match c - 48 with
  | 0 => Decimal.D0 d
  | 1 => Decimal.D1 d
  | 2 => Decimal.D2 d
  | 3 => Decimal.D3 d
  | 4 => Decimal.D4 d
  | 5 => Decimal.D5 d
  | 6 => Decimal.D6 d
  | 7 => Decimal.D7 d
  | 8 => Decimal.D8 d
  | _ => Decimal.D9 d
  end.

Fixpoint uint_of_chars (s : str) : Decimal.uint :=
  match s with
  | [] => Decimal.Nil
  | c :: s' => digit_of_char c (uint_of_chars s')
  end.

(** [int(digits)], for a string of decimal digits *)
Definition int_of_digits (neg : bool) (ds : str) : Z :=
  let n := Z.of_N (N.of_uint (uint_of_chars ds)) in
  if neg then Z.opp n else n.

(** The text goes on with a fraction or an exponent: the number is a float. *)
Definition float_follows (r : str) : bool :=
  match r with
  | c :: r' =>
      if c =? 46 then
        match r' with
        | d :: _ => is_digit d
        | [] => false
        end
      else if (c =? 101) || (c =? 69) then
        match r' with
        | sg :: d :: _ =>
            if (sg =? 43) || (sg =? 45) then is_digit d else is_digit sg
        | [d] => is_digit d
        | [] => false
        end
      else false
  | [] => false
  end.

(** The number at the head of [s], if there is one: an optional minus
    sign, then a zero or a digit from 1 to 9 with the digits after it. *)
Definition match_number (s : str) : result (value * str) :=
  let (neg, s1) :=
    match s with
    | c :: s' => if c =? 45 then (true, s') else (false, s)
    | [] => (false, s)
    end in
  match s1 with
  | c :: s2 =>
      let (ds, r) :=
        if c =? 48 then ([c], s2)
        else let (ds, r) := span_digits s2 in (c :: ds, r) in
      if is_digit c then
        if float_follows r then Beyond FloatLiteral
        else Return (VInt (int_of_digits neg ds), r)
      else decode_error ExpectingValue
  | [] => decode_error ExpectingValue
  end.

(** The text after [c], when [s] starts with [c]. *)
Definition after (c : N) (s : str) : option str :=
  match s with
  | x :: r => if x =? c then Some r else None
  | [] => None
  end.

(** [scan_once], with the loops of [JSONObject] and [JSONArray].  [fuel]
    bounds the depth of the calls; [json_loads] gives enough of it. *)
Fixpoint scan_once (fuel : nat) (s : str) {struct fuel}
  : result (value * str) :=
  match fuel with
  | O => Beyond OutOfFuel
  | S fuel' =>
      match s with
      | [] => decode_error ExpectingValue
      | c :: s' =>
          if c =? 34 then
            (r <- scanstring s' [] ;; Return (VStr (fst r), snd r))%result
          else if c =? 123 then
            match after 125 (skip_ws s') with
            | Some rest => Return (VDict [], rest)
            | None => object_items fuel' (skip_ws s') []
            end
          else if c =? 91 then
            match after 93 (skip_ws s') with
            | Some rest => Return (VList [], rest)
            | None => array_items fuel' (skip_ws s') []
            end
          else if startswith (u "null") s then Return (VNone, skipn 4 s)
          else if startswith (u "true") s then Return (VBool true, skipn 4 s)
          else if startswith (u "false") s then Return (VBool false, skipn 5 s)
          else if startswith (u "NaN") s then Beyond FloatLiteral
          else if startswith (u "Infinity") s then Beyond FloatLiteral
          else if startswith (u "-Infinity") s then Beyond FloatLiteral
          else match_number s
      end
  end

with object_items (fuel : nat) (s : str) (acc : dict) {struct fuel}
  : result (value * str) :=
  match fuel with
  | O => Beyond OutOfFuel
  | S fuel' =>
      match after 34 s with
      | None => decode_error ExpectingPropertyName
      | Some s1 =>
          (kr <- scanstring s1 [] ;;
           match after 58 (skip_ws (snd kr)) with
           | None => decode_error ExpectingColon
           | Some s2 =>
               vr <- scan_once fuel' (skip_ws s2) ;;
               let acc' := dict_set (fst kr) (fst vr) acc in
               match after 125 (skip_ws (snd vr)) with
               | Some rest => Return (VDict acc', rest)
               | None =>
                   match after 44 (skip_ws (snd vr)) with
                   | Some s3 => object_items fuel' (skip_ws s3) acc'
                   | None => decode_error ExpectingComma
                   end
               end
           end)%result
      end
  end

with array_items (fuel : nat) (s : str) (acc : list value) {struct fuel}
  : result (value * str) :=
  match fuel with
  | O => Beyond OutOfFuel
  | S fuel' =>
      (vr <- scan_once fuel' s ;;
       let acc' := fst vr :: acc in
       match after 93 (skip_ws (snd vr)) with
       | Some rest => Return (VList (rev acc'), rest)
       | None =>
           match after 44 (skip_ws (snd vr)) with
           | Some s1 => array_items fuel' (skip_ws s1) acc'
           | None => decode_error ExpectingComma
           end
       end)%result
  end.

(** [json.loads(s)]: no byte order mark, white space, one value, white
    space, and nothing more. *)
Definition json_loads (s : str) : result value :=
  match after 0xfeff s with
  | Some _ => decode_error UnexpectedBOM
  | None =>
      (vr <- scan_once (2 * List.length s + 1) (skip_ws s) ;;
       match skip_ws (snd vr) with
       | [] => Return (fst vr)
       | _ :: _ => decode_error ExtraData
       end)%result
  end.

(** ** Values that [json] writes and reads back unchanged *)

(** The character after [c] is a low surrogate. *)
Definition low_next (s : str) : bool :=
  match s with
  | c' :: _ => is_low_surrogate c'
  | [] => false
  end.

(** Text: every character is a code point, and no high surrogate is
    followed by a low surrogate.  Unicode text holds no surrogate at all; a
    [str] that holds such a pair as two characters is written as two
    escapes, which the decoder reads back as one character. *)
Fixpoint str_ok (s : str) : bool :=
  match s with
  | [] => true
  | c :: s' =>
      (c <? 0x110000)
      && negb (is_high_surrogate c && low_next s')
      && str_ok s'
  end.

(** No key occurs twice, as in every [dict]. *)
Fixpoint keys_distinct (ks : list str) : bool :=
  match ks with
  | [] => true
  | k :: ks' => negb (existsb (str_eqb k) ks') && keys_distinct ks'
  end.

Fixpoint stable (v : value) : bool :=
  match v with
  | VStr s => str_ok s
  | VList l => forallb stable l
  | VDict d =>
      keys_distinct (map fst d)
      && forallb (fun kv => str_ok (fst kv) && stable (snd kv)) d
  | _ => true
  end.

Local Close Scope N_scope.

(** ** Save / load functions *)

(** What a file holds; nothing when there is no such file. *)
Definition file_content (filename : string) (w : world) : str :=
  match disk w filename with
  | Some content => content
  | None => []
  end.

(** [open(filename, "w")]: the file is created, or emptied if it exists. *)
Definition open_w (filename : string) : M unit :=
  fun w => (Return tt, set_disk w (disk_write filename [] (disk w))).

(** [f.write(chunk)] *)
Definition file_write (filename : string) (chunk : str) : M unit :=
  fun w =>
    (Return tt,
     set_disk w
       (disk_write filename (file_content filename w ++ chunk) (disk w))).

Fixpoint write_chunks (filename : string) (chunks : list str) : M unit :=
  match chunks with
  | [] => ret tt
  | chunk :: chunks' =>
      (file_write filename chunk ;; write_chunks filename chunks')%stmt
  end.

(** [json.dump(obj, f, indent=4)]: every chunk of the encoder is written
    to the file. *)
Definition json_dump (obj : value) (filename : string) : M unit :=
  write_chunks filename (iterencode 0 obj).

(** [save_yggdrasil(filename="yggdrasil.json")] *)
Definition save_yggdrasil (filename : string) : M unit :=
  (open_w filename ;;
   Y <- get_tree ;;
   json_dump Y filename)%stmt.


(** [os.path.exists(filename)] *)
Definition path_exists (filename : string) : M bool :=
  fun w =>
    (Return (match disk w filename with Some _ => true | None => false end),
     w).

(** [f.read()] *)
Definition file_read (filename : string) : M str :=
  fun w => (Return (file_content filename w), w).

(** [load_yggdrasil(filename="yggdrasil.json")] *)
Definition load_yggdrasil (filename : string) : M unit :=
  (found <- path_exists filename ;;
   if found then
     content <- file_read filename ;;
     Y <- lift (json_loads content) ;;
     put_tree Y
   else put_tree (VDict []))%stmt.

Definition default_filename : string := "yggdrasil.json".

(** ** Sequences of calls *)

(** The arguments of one call of [add_song]. *)
Record song : Type := {
  song_genre : str;
  song_artist : str;
  song_album : str;
  song_name : str;
  song_metadata : value
}.

Fixpoint add_songs (calls : list song) : M unit :=
  match calls with
  | [] => ret tt
  | c :: calls' =>
      (add_song (song_genre c) (song_artist c) (song_album c) (song_name c)
         (song_metadata c) ;;
       add_songs calls')%stmt
  end.


(** * The functions that talk to Spotify and to the user

    [search_song_on_spotify], [get_artist_genre], [add_song_dynamic], the
    whole of [enter_bragi], and the main program.  The Spotify client [sp]
    is an oracle: what it replies to a request is given, request by
    request, and a reply is any value that JSON can denote, or a failure.
    The user is the list of the lines that [input] will read.  The builtin
    [int] and the method [str.lower] are parameters.  A name that is not a
    string cannot be a key of a [dict] here, so a reply with such a name is
    answered by [Outside NonStringKey]. *)

(** ** Exceptions and outcomes *)

(** The exceptions of the first part, and those that only these functions
    meet: a [KeyError] whose key is an [int], the [ValueError] of [int],
    the [EOFError] of [input], and what the client raises when a request
    fails. *)
Inductive error : Type :=
| Exception (e : exn)
| KeyErrorInt (i : Z)
| ValueError
| EOFError
| SpotifyException.

Inductive gap : Type :=
| Limit (l : limit)
| NonStringKey.

Inductive outcome (A : Type) : Type :=
| Ok (a : A)
| Error (e : error)
| Outside (g : gap).

Arguments Ok {A} a.
Arguments Error {A} e.
Arguments Outside {A} g.

Definition of_result {A} (r : result A) : outcome A :=
  match r with
  | Return a => Ok a
  | Raise e => Error (Exception e)
  | Beyond l => Outside (Limit l)
  end.

Definition obind {A B} (c : outcome A) (k : A -> outcome B) : outcome B :=
  match c with
  | Ok a => k a
  | Error e => Error e
  | Outside g => Outside g
  end.

Declare Scope outcome_scope.
Delimit Scope outcome_scope with outcome.
Notation "x <- c ;; k" := (obind c (fun x => k))
  (at level 61, c at next level, right associativity) : outcome_scope.

(** [try: body] with [except (...): handler], for the exceptions that
    [caught] selects *)
Definition try_except {A} (body : outcome A) (caught : error -> bool)
    (handler : outcome A) : outcome A :=
  match body with
  | Error e => if caught e then handler else Error e
  | _ => body
  end.

(** ** Operators of the language, continued *)

(** [c.get(k, default)] *)
Definition py_get (c : value) (k : str) (default : value) : result value :=
  match c with
  | VDict d =>
      match dict_get k d with
      | Some v => Return v
      | None => Return default
      end
  | _ => Raise AttributeError
  end.

(** The item at index [i] of a sequence, counted from the end when [i] is
    negative. *)
Definition index {A} (l : list A) (i : Z) : option A :=
  if (0 <=? i)%Z then nth_error l (Z.to_nat i)
  else if (0 <=? i + Z.of_nat (List.length l))%Z
       then nth_error l (Z.to_nat (i + Z.of_nat (List.length l)))
       else None.

(** [c[i]], for an [int] [i] *)
Definition getindex (c : value) (i : Z) : outcome value :=
  match c with
  | VList l =>
      match index l i with
      | Some v => Ok v
      | None => Error (Exception IndexError)
      end
  | VStr s =>
      match index s i with
      | Some ch => Ok (VStr [ch])
      | None => Error (Exception IndexError)
      end
  | VDict _ => Error (KeyErrorInt i)
  | _ => Error (Exception TypeError)
  end.

(** The items that [for x in c] goes through *)
Definition py_iter (c : value) : result (list value) :=
  match c with
  | VList l => Return l
  | VDict d => Return (map VStr (dict_keys d))
  | VStr s => Return (map (fun ch => VStr [ch]) s)
  | _ => Raise TypeError
  end.

(** A [for] loop that appends [f x] to a list, for each [x] in turn. *)
Fixpoint for_each {A B} (f : A -> outcome B) (l : list A) : outcome (list B) :=
  match l with
  | [] => Ok []
  | x :: l' => (y <- f x ;; ys <- for_each f l' ;; Ok (y :: ys))%outcome
  end.

(** A value used as a key of the tree. *)
Definition as_key (v : value) : outcome str :=
  match v with
  | VStr s => Ok s
  | _ => Outside NonStringKey
  end.

(** ** The state of the session *)

(** The Spotify client: the reply to the request that is made when
    [requests] requests have been made before, for a search with its query
    and limit, and for an artist with its id. *)
Record spotify : Type := {
  search_reply : nat -> str -> Z -> option value;
  artist_reply : nat -> value -> option value;
  requests : nat
}.

Record session : Type := {
  process : world;
  sp : spotify;
  stdin : list str   (* the lines that the user will type *)
}.

Definition set_process (s : session) (w : world) : session :=
  {| process := w; sp := sp s; stdin := stdin s |}.

Definition set_stdin (s : session) (lines : list str) : session :=
  {| process := process s; sp := sp s; stdin := lines |}.

(** One more request has been made. *)
Definition asked (s : session) : session :=
  {| process := process s;
     sp := {| search_reply := search_reply (sp s);
              artist_reply := artist_reply (sp s);
              requests := S (requests (sp s)) |};
     stdin := stdin s |}.

Definition W (A : Type) : Type := session -> outcome A * session.

Definition wret {A} (a : A) : W A := fun s => (Ok a, s).

Definition wbind {A B} (c : W A) (k : A -> W B) : W B :=
  fun s =>
    match c s with
    | (Ok a, s') => k a s'
    | (Error e, s') => (Error e, s')
    | (Outside g, s') => (Outside g, s')
    end.

Definition pure {A} (o : outcome A) : W A := fun s => (o, s).

(** A statement of the first part, run in the process of the session. *)
Definition run {A} (c : M A) : W A :=
  fun s => (of_result (fst (c (process s))),
            set_process s (snd (c (process s)))).

Declare Scope flow_scope.
Delimit Scope flow_scope with flow.
Notation "x <- c ;; k" := (wbind c (fun x => k))
  (at level 61, c at next level, right associativity) : flow_scope.
Notation "c ;; k" := (wbind c (fun _ => k))
  (at level 61, right associativity) : flow_scope.

(** [input(prompt)] *)
Definition input : W str :=
  fun s =>
    match stdin s with
    | line :: lines => (Ok line, set_stdin s lines)
    | [] => (Error EOFError, s)
    end.

(** [sp.search(q=q, type="track", limit=limit)] *)
Definition sp_search (q : str) (limit : Z) : W value :=
  fun s =>
    match search_reply (sp s) (requests (sp s)) q limit with
    | Some reply => (Ok reply, asked s)
    | None => (Error SpotifyException, asked s)
    end.

(** [sp.artist(artist_id)] *)
Definition sp_artist (artist_id : value) : W value :=
  fun s =>
    match artist_reply (sp s) (requests (sp s)) artist_id with
    | Some reply => (Ok reply, asked s)
    | None => (Error SpotifyException, asked s)
    end.

(** ** Spotify API functions *)

(** The dictionary that the loop of [search_song_on_spotify] appends for
    one track. *)
Definition track_metadata (track : value) : outcome value :=
  (name <- of_result (getitem track (u "name")) ;;
   artists <- of_result (getitem track (u "artists")) ;;
   first <- getindex artists 0 ;;
   artist <- of_result (getitem first (u "name")) ;;
   album <- of_result (getitem track (u "album")) ;;
   album_name <- of_result (getitem album (u "name")) ;;
   artists' <- of_result (getitem track (u "artists")) ;;
   first' <- getindex artists' 0 ;;
   artist_id <- of_result (getitem first' (u "id")) ;;
   urls <- of_result (getitem track (u "external_urls")) ;;
   url <- of_result (getitem urls (u "spotify")) ;;
   duration <- of_result (getitem track (u "duration_ms")) ;;
   number <- of_result (getitem track (u "track_number")) ;;
   Ok (VDict [(u "song_name", name);
              (u "artist", artist);
              (u "album", album_name);
              (u "artist_id", artist_id);
              (u "spotify_url", url);
              (u "duration_ms", duration);
              (u "track_number", number)]))%outcome.

(** [search_song_on_spotify(song_name, limit=7)] *)
Definition search_song_on_spotify (song_name : str) (limit : Z)
  : W (list value) :=
  (results <- sp_search (u "track:" ++ song_name) limit ;;
   found <- pure (of_result (py_get results (u "tracks") (VDict []))) ;;
   tracks <- pure (of_result (py_get found (u "items") (VList []))) ;;
   if negb (truthy tracks) then wret []
   else
     items <- pure (of_result (py_iter tracks)) ;;
     pure (for_each track_metadata items))%flow.

(** [get_artist_genre(artist_id)] *)
Definition get_artist_genre (artist_id : value) : W value :=
  (artist <- sp_artist artist_id ;;
   genres <- pure (of_result (py_get artist (u "genres") (VList []))) ;;
   if truthy genres then pure (getindex genres 0)
   else wret (VStr (u "Unknown")))%flow.

(** What the loop that prints the results of a search evaluates. *)
Definition print_results (results : list value) : outcome (list unit) :=
  for_each
    (fun track =>
       _ <- of_result (getitem track (u "song_name")) ;;
       _ <- of_result (getitem track (u "artist")) ;;
       _ <- of_result (getitem track (u "album")) ;;
       Ok tt)%outcome
    results.

Section Builtins.

(** The builtin [int] on a string: the number read, or nothing when [int]
    raises [ValueError]. *)
Variable int : str -> option Z.

(** [s.lower()] *)
Variable lower : str -> str.

(** The [try] statement of [add_song_dynamic]: nothing when the function
    returns [None], else the metadata selected. *)
Definition choose (results : list value) (choice : str)
  : outcome (option value) :=
  try_except
    (choice <- match int choice with
               | Some n => Ok n
               | None => Error ValueError
               end ;;
     if (choice =? 0)%Z then Ok None
     else
       metadata <- getindex (VList results) (choice - 1) ;;
       Ok (Some metadata))%outcome
    (fun e =>
       match e with
       | ValueError | Exception IndexError => true
       | _ => false
       end)
    (Ok None).

(** [add_song_dynamic(song_name)] *)
Definition add_song_dynamic (song_name : str) : W (option value) :=
  (results <- search_song_on_spotify song_name 7 ;;
   if negb (truthy (VList results)) then wret None
   else
     selected <-
       (if (1 <? List.length results)%nat then
          _ <- pure (print_results results) ;;
          choice <- input ;;
          pure (choose results choice)
        else
          metadata <- pure (getindex (VList results) 0) ;;
          wret (Some metadata)) ;;
     match selected with
     | None => wret None
     | Some metadata =>
         artist_id <- pure (of_result (getitem metadata (u "artist_id"))) ;;
         genre <- get_artist_genre artist_id ;;
         artist <- pure (of_result (getitem metadata (u "artist"))) ;;
         album <- pure (of_result (getitem metadata (u "album"))) ;;
         name <- pure (of_result (getitem metadata (u "song_name"))) ;;
         genre <- pure (as_key genre) ;;
         artist <- pure (as_key artist) ;;
         album <- pure (as_key album) ;;
         name <- pure (as_key name) ;;
         run (add_song genre artist album name metadata) ;;
         run (save_yggdrasil default_filename) ;;
         _ <- pure (of_result (getitem metadata (u "song_name"))) ;;
         wret (Some metadata)
     end)%flow.

(** ** User navigation, the whole of it *)

(** What the lines that print the song evaluate. *)
Definition print_song (metadata : value) : W unit :=
  (_ <- pure (of_result (py_get metadata (u "spotify_url") VNone)) ;;
   _ <- pure (of_result (py_get metadata (u "duration_ms") VNone)) ;;
   _ <- pure (of_result (py_get metadata (u "track_number") VNone)) ;;
   wret tt)%flow.

(** [enter_bragi()] *)
Definition enter_bragi : W unit :=
  (choice <- input ;;
   if str_eqb choice (u "1") then
     Y <- run get_tree ;;
     if negb (truthy Y) then wret tt
     else
       _ <- run (enumerate_keys []) ;;
       genre <- input ;;
       _ <- run (enumerate_keys [genre]) ;;
       artist <- input ;;
       _ <- run (enumerate_keys [genre; artist]) ;;
       album <- input ;;
       _ <- run (enumerate_keys [genre; artist; album]) ;;
       song <- input ;;
       metadata <- run (lookup genre artist album song) ;;
       print_song metadata
   else if str_eqb choice (u "2") then
     found <- run enter_bragi_random ;;
     match found with
     | None => wret tt
     | Some (_, metadata) => print_song metadata
     end
   else if str_eqb choice (u "3") then
     song_name <- input ;;
     found <- add_song_dynamic song_name ;;
     match found with
     | None => wret tt
     | Some metadata =>
         if negb (truthy metadata) then wret tt
         else
           artist_id <-
             pure (of_result (getitem metadata (u "artist_id"))) ;;
           _ <- get_artist_genre artist_id ;;
           _ <- pure (of_result (getitem metadata (u "artist"))) ;;
           _ <- pure (of_result (getitem metadata (u "album"))) ;;
           _ <- pure (of_result (getitem metadata (u "song_name"))) ;;
           print_song metadata
     end
   else wret tt)%flow.

(** ** Main program *)

(** The [while True] loop, for at most [rounds] rounds. *)
Fixpoint main_loop (rounds : nat) : W unit :=
  match rounds with
  | 0 => pure (Outside (Limit OutOfFuel))
  | S rounds' =>
      (enter_bragi ;;
       cont <- input ;;
       if negb (str_eqb (lower cont) (u "y")) then wret tt
       else main_loop rounds')%flow
  end.

(** The program: every round reads two lines at least, so the loop ends
    within as many rounds as there are lines. *)
Definition main : W unit :=
  (run (load_yggdrasil default_filename) ;;
   (fun s => main_loop (S (List.length (stdin s))) s) ;;
   run (save_yggdrasil default_filename))%flow.

End Builtins.

(** * Vocabulary of the properties *)

(** ** The shape of the tree *)

(** [shaped n v]: [v] is a dictionary of dictionaries, [n] levels deep. *)
Fixpoint shaped (n : nat) (v : value) : bool :=
  match n with
  | 0 => true
  | S n' =>
      match v with
      | VDict d => forallb (fun kv => shaped n' (snd kv)) d
      | _ => false
      end
  end.

(** Genre, artist, album, song: four levels of dictionaries above the
    metadata. *)
Definition is_catalog (v : value) : Prop := shaped 4 v = true.

(** The dictionary under key [k], empty when there is none. *)
Definition child (k : str) (d : dict) : dict :=
  match dict_get k d with
  | Some (VDict d') => d'
  | _ => []
  end.

(** The tree after [leaf] is stored at the end of [path], missing
    dictionaries being created on the way. *)
Fixpoint insert_path (path : list str) (leaf : value) (node : dict) : dict :=
  match path with
  | [] => node
  | k :: rest =>
      match rest with
      | [] => dict_set k leaf node
      | _ :: _ => dict_set k (VDict (insert_path rest leaf (child k node))) node
      end
  end.

(** Two paths part ways at some key. *)
Fixpoint diverge (p q : list str) : bool :=
  match p, q with
  | k :: p', k' :: q' => if str_eqb k k' then diverge p' q' else true
  | _, _ => false
  end.

(** The keys under a prefix, as a pure function of the tree. *)
Definition keys_at (Y : value) (prefix : list str) : result (list str) :=
  (node <- subscript Y prefix ;; keys node)%result.

(** Key [k] is listed under [prefix]. *)
Definition present (w : world) (prefix : list str) (k : str) : Prop :=
  exists ks, eval (enumerate_keys prefix) w = Return ks /\ In k ks.

Definition rmap {A B} (f : A -> B) (r : result A) : result B :=
  match r with
  | Return a => Return (f a)
  | Raise e => Raise e
  | Beyond l => Beyond l
  end.

(** One draw has been taken from the generator. *)
Definition drawn (w : world) : world :=
  set_gen w {| tape := tape (gen w); cursor := S (cursor (gen w)) |}.

(** What a selector does at a prefix whose node lists the keys [ks]: on no
    keys it raises [IndexError] before any draw, on some keys it takes one
    draw and returns one of them. *)
Definition sample_ok (w : world) (prefix : list str) (sel : M str) : Prop :=
  forall ks,
    eval (enumerate_keys prefix) w = Return ks ->
    (ks = [] -> sel w = (Raise IndexError, w)) /\
    (ks <> [] -> exists k, sel w = (Return k, drawn w) /\ In k ks).

(** ** A small catalog *)

Definition bohemian : song :=
  {| song_genre := u "Rock";
     song_artist := u "Queen";
     song_album := u "A Night at the Opera";
     song_name := u "Bohemian Rhapsody";
     song_metadata := VDict [(u "duration_ms", VInt 354000)] |}.

Definition no_files : disk_t := fun _ => None.

Definition counting : rng := {| tape := fun n => n; cursor := 0 |}.

(** The process at start, before anything is loaded. *)
Definition fresh : world :=
  {| Yggdrasil := VDict []; disk := no_files; gen := counting |}.

(** The process after [add_song] of [bohemian]. *)
Definition rock : world := exec (add_songs [bohemian]) fresh.

(** [rock] with a saved file that holds [content]. *)
Definition rock_with_file (content : str) : world :=
  set_disk rock (disk_write default_filename content no_files).


(** ** Definitions for the proofs about [json] *)

Local Open Scope N_scope.

(** The two halves of the escape of a character beyond the basic plane. *)
Definition high_half (c : N) : N :=
  N.lor 0xd800 (N.land (N.shiftr (c - 0x10000) 10) 0x3ff).
Definition low_half (c : N) : N :=
  N.lor 0xdc00 (N.land (c - 0x10000) 0x3ff).

(** The escape of a character, by cases. *)
Inductive escape_shape (c : N) : str -> Prop :=
| shape_short e :
    backslash e = Some c -> (e =? 117) = false ->
    escape_shape c [92; e]
| shape_plain :
    (c =? 34) = false -> (c =? 92) = false -> (c <=? 31) = false ->
    escape_shape c [c]
| shape_unicode :
    c < 65536 -> escape_shape c (uescape c)
| shape_pair :
    0x10000 <= c ->
    escape_shape c (uescape (high_half c) ++ uescape (low_half c)).

(** What [scanstring] looks at after a high surrogate: no escape of a low
    surrogate follows. *)
Definition no_low_escape (s : str) : bool :=
  match s with
  | b :: v :: t =>
      if (b =? 92) && (v =? 117) then
        match t with
        | g1 :: g2 :: g3 :: g4 :: _ :: _ =>
            match hex4_value g1 g2 g3 g4 with
            | Some c2 => negb (is_low_surrogate c2)
            | None => false
            end
        | _ => true
        end
      else true
  | _ => true
  end.

Definition ends_number (rest : str) : Prop :=
  match rest with
  | c :: _ => is_digit c = false
  | [] => True
  end.

Section value_induction.
Variable P : value -> Prop.
Hypothesis HNone : P VNone.
Hypothesis HBool : forall b, P (VBool b).
Hypothesis HInt : forall z, P (VInt z).
Hypothesis HStr : forall s, P (VStr s).
Hypothesis HList : forall l, Forall P l -> P (VList l).
Hypothesis HDict : forall d, Forall (fun kv => P (snd kv)) d -> P (VDict d).

Fixpoint value_ind (v : value) : P v :=
  match v with
  | VNone => HNone
  | VBool b => HBool b
  | VInt z => HInt z
  | VStr s => HStr s
  | VList l =>
      HList l
        ((fix go (l : list value) : Forall P l :=
            match l with
            | [] => Forall_nil P
            | x :: l' => Forall_cons x (value_ind x) (go l')
            end) l)
  | VDict d =>
      HDict d
        ((fix go (d : list (str * value))
            : Forall (fun kv => P (snd kv)) d :=
            match d with
            | [] => Forall_nil _
            | kv :: d' =>
                @Forall_cons _ (fun kv => P (snd kv)) kv d'
                  (value_ind (snd kv)) (go d')
            end) d)
  end.
End value_induction.

(** The characters a value can start with. *)
Definition is_value_start (h : N) : bool :=
  (h =? 34) || (h =? 123) || (h =? 91) || (h =? 110) || (h =? 116)
  || (h =? 102) || (h =? 45) || is_digit h.

(** What follows the first item of a list, then the closing bracket. *)
Definition list_tail (enc : value -> list str) (level : nat)
    (l : list value) (rest : str) : str :=
  concat (list_chunks enc (S level) false l)
  ++ newline_indent level ++ 93 :: rest.

Definition dict_tail (enc : value -> list str) (level : nat)
    (l : list (str * value)) (rest : str) : str :=
  concat (dict_chunks enc (S level) false l)
  ++ newline_indent level ++ 125 :: rest.

(** Fuel that is enough to read a value back. *)
Fixpoint value_fuel (v : value) : nat :=
  match v with
  | VList l => S (List.length l + list_sum (map value_fuel l))
  | VDict d =>
      S (List.length d + list_sum (map (fun kv => value_fuel (snd kv)) d))
  | _ => 1
  end.

Definition roundtrips (v : value) : Prop :=
  stable v = true ->
  forall level rest fuel,
    ends_number rest -> float_follows rest = false ->
    (value_fuel v <= fuel)%nat ->
    scan_once fuel (concat (iterencode level v) ++ rest) = Return (v, rest).

Definition dict_of_items (l : list (str * value)) (acc : dict) : dict :=
  fold_left (fun a kv => dict_set (fst kv) (snd kv) a) l acc.

Definition consumes (f : str -> result (value * str)) : Prop :=
  forall s v r, f s = Return (v, r) -> (List.length r < List.length s)%nat.

Local Close Scope N_scope.

(** * Vocabulary of the further properties *)

(** ** Trees of any shape *)

(** The nodes that the tree has along [path] are dictionaries: the tree
    itself, and each node under the keys of [path] as far as they are
    there. *)
Fixpoint passable (path : list str) (v : value) : bool :=
  match v with
  | VDict d =>
      match path with
      | [] => true
      | k :: rest =>
          match dict_get k d with
          | Some x => passable rest x
          | None => true
          end
      end
  | _ => false
  end.

(** ** What a sequence of calls leaves *)

Definition song_path (c : song) : list str :=
  [song_genre c; song_artist c; song_album c; song_name c].

Fixpoint path_eqb (p q : list str) : bool :=
  match p, q with
  | [], [] => true
  | k :: p', k' :: q' => str_eqb k k' && path_eqb p' q'
  | _, _ => false
  end.

(** The record of the last call at [path], if there is a call at [path]. *)
Fixpoint last_record (path : list str) (calls : list song) : option value :=
  match calls with
  | [] => None
  | c :: calls' =>
      match last_record path calls' with
      | Some r => Some r
      | None =>
          if path_eqb (song_path c) path
          then Some (py_or (song_metadata c) (VDict []))
          else None
      end
  end.

(** ** Trees without dead ends *)

(** [populated n v]: [v] is a dictionary that is not empty, and so are the
    dictionaries below it, [n] levels deep. *)
Fixpoint populated (n : nat) (v : value) : bool :=
  match n with
  | 0 => true
  | S n' =>
      match v with
      | VDict ((_ :: _) as d) => forallb (fun kv => populated n' (snd kv)) d
      | _ => false
      end
  end.

(** Every genre has an artist, every artist an album, every album a song. *)
Definition no_dead_end (v : value) : bool :=
  match v with
  | VDict Y => forallb (fun kv => populated 3 (snd kv)) Y
  | _ => false
  end.

(** [n] draws have been taken from the generator. *)
Fixpoint draws (n : nat) (w : world) : world :=
  match n with
  | 0 => w
  | S n' => drawn (draws n' w)
  end.

(** ** The text of a file *)

Local Open Scope N_scope.

(** What [json.dump] writes with [ensure_ascii]: the newline and the
    printable characters of ASCII. *)
Definition is_ascii_text (c : N) : bool :=
  (c =? 10) || ((32 <=? c) && (c <=? 126)).

(** What [open(filename, "r", encoding="utf-8")] reads: UTF-8 encodes the
    code points below 0x110000 that are no surrogates. *)
Definition is_scalar (c : N) : bool :=
  (c <? 0x110000) && negb ((0xd800 <=? c) && (c <=? 0xdfff)).

(** The character read last is a high surrogate. *)
Definition last_high (acc : str) : bool :=
  match acc with
  | c :: _ => is_high_surrogate c
  | [] => false
  end.

Local Close Scope N_scope.

(** ** Vocabulary of the properties of the session *)

(** The keys of the metadata of a song, in the order of the dictionary that
    [search_song_on_spotify] builds. *)
Definition field_names : list str :=
  [u "song_name"; u "artist"; u "album"; u "artist_id"; u "spotify_url";
   u "duration_ms"; u "track_number"].

(** The tree, the files and the replies of the client are the same in two
    sessions. *)
Definition same_store (s s' : session) : Prop :=
  Yggdrasil (process s') = Yggdrasil (process s) /\
  disk (process s') = disk (process s) /\
  search_reply (sp s') = search_reply (sp s) /\
  artist_reply (sp s') = artist_reply (sp s).

(** Every run of a statement relates the session before to the session
    after, whatever the outcome. *)
Definition steps (R : session -> session -> Prop) {A} (c : W A) : Prop :=
  forall s, R s (snd (c s)).

(** A statement of the first part that leaves the tree and the files as
    they are, and goes beyond no limit of the embedding. *)
Definition reads_only {A} (c : M A) : Prop :=
  forall w,
    Yggdrasil (snd (c w)) = Yggdrasil w /\ disk (snd (c w)) = disk w /\
    forall l, fst (c w) <> Beyond l.

(** No more lines are left to read than before. *)
Definition fewer_lines (s s' : session) : Prop :=
  (List.length (stdin s') <= List.length (stdin s))%nat.

(** The rounds given to the loop were enough. *)
Definition in_time {A} (c : W A) : Prop :=
  forall s, fst (c s) <> Outside (Limit OutOfFuel).




(** ** A small session *)

(** A stand-in for [int] in the examples: a string of decimal digits, with
    a minus sign before it or not, is read as [int] reads it, and no other
    string is read. *)
Definition int_decimal (s : str) : option Z :=
  match s with
  | [] => None
  | c :: s' =>
      if (c =? 45)%N then
        match s' with
        | [] => None
        | _ :: _ =>
            if forallb is_digit s' then Some (int_of_digits true s') else None
        end
      else if forallb is_digit s then Some (int_of_digits false s) else None
  end.

(** A stand-in for [str.lower] in the examples, for answers in lower case. *)
Definition lower_case (s : str) : str := s.

(** A track as Spotify describes it, with the fields that the program
    reads and one that it does not read. *)
Definition track (name artist artist_id album url : string)
    (duration number : Z) : value :=
  VDict [(u "album", VDict [(u "name", VStr (u album))]);
         (u "artists",
          VList [VDict [(u "id", VStr (u artist_id));
                        (u "name", VStr (u artist))]]);
         (u "duration_ms", VInt duration);
         (u "external_urls", VDict [(u "spotify", VStr (u url))]);
         (u "name", VStr (u name));
         (u "popularity", VInt 80);
         (u "track_number", VInt number)].

Definition studio : value :=
  track "Bohemian Rhapsody" "Queen" "1dfeR4HaWDbWqFHLkxsg1d"
        "A Night at the Opera" "https://open.spotify.com/track/1" 354000 11.

Definition live : value :=
  track "Bohemian Rhapsody - Live" "Queen" "1dfeR4HaWDbWqFHLkxsg1d"
        "Live Killers" "https://open.spotify.com/track/2" 360000 5.

(** A client that finds two tracks for "Bohemian", nothing else, and knows
    the genres of every artist. *)
Definition client : spotify :=
  {| search_reply := fun _ q _ =>
       if str_eqb q (u "track:Bohemian")
       then Some (VDict [(u "tracks",
                          VDict [(u "items", VList [studio; live])])])
       else Some (VDict [(u "tracks", VDict [(u "items", VList [])])]);
     artist_reply := fun _ _ =>
       Some (VDict [(u "genres", VList [VStr (u "rock"); VStr (u "glam")])]);
     requests := 0 |}.

(** A session at the start of the program, with what the user will type. *)
Definition opening (lines : list str) : session :=
  {| process := fresh; sp := client; stdin := lines |}.

(** Nothing of the store has changed, and no line has come back. *)
Definition calm (s s' : session) : Prop :=
  same_store s s' /\ fewer_lines s s'.


(** An outcome that is not the end of the rounds. *)
Definition within {A} (o : outcome A) : Prop :=
  o <> Outside (Limit OutOfFuel).

(** * Properties *)

(** ** Strings and dictionaries *)

Lemma str_eqb_eq (a b : str) : str_eqb a b = true <-> a = b.
Proof.
  revert b. induction a as [|x a IH]; intros [|y b]; simpl; split;
    try congruence; try reflexivity.
  - intros H. apply andb_true_iff in H as [Hx Hab].
    apply N.eqb_eq in Hx. apply IH in Hab. congruence.
  - intros H. injection H as -> ->. rewrite N.eqb_refl. simpl.
    apply IH. reflexivity.
Qed.

Lemma str_eqb_refl (a : str) : str_eqb a a = true.
Proof. apply str_eqb_eq. reflexivity. Qed.

Lemma str_eqb_neq (a b : str) : str_eqb a b = false <-> a <> b.
Proof.
  split.
  - intros H E. apply str_eqb_eq in E. congruence.
  - intros H. destruct (str_eqb a b) eqn:E; [|reflexivity].
    apply str_eqb_eq in E. contradiction.
Qed.

Lemma dict_get_set_same k v d : dict_get k (dict_set k v d) = Some v.
Proof.
  induction d as [|[k' v'] d IH]; simpl.
  - rewrite str_eqb_refl. reflexivity.
  - destruct (str_eqb k k') eqn:E; simpl; rewrite E; auto.
Qed.

Lemma dict_get_set_other k k' v d :
  k <> k' -> dict_get k' (dict_set k v d) = dict_get k' d.
Proof.
  intros Hne. induction d as [|[k0 v0] d IH]; simpl.
  - assert (str_eqb k' k = false) as -> by (apply str_eqb_neq; congruence).
    reflexivity.
  - destruct (str_eqb k k0) eqn:E; simpl.
    + apply str_eqb_eq in E. subst k0.
      assert (str_eqb k' k = false) as -> by (apply str_eqb_neq; congruence).
      reflexivity.
    + rewrite IH. reflexivity.
Qed.

Lemma dict_set_set k v v' d : dict_set k v (dict_set k v' d) = dict_set k v d.
Proof.
  induction d as [|[k0 v0] d IH]; simpl.
  - rewrite str_eqb_refl. reflexivity.
  - destruct (str_eqb k k0) eqn:E; simpl; rewrite E; [reflexivity|].
    rewrite IH. reflexivity.
Qed.

Lemma dict_mem_In k d : dict_mem k d = true <-> In k (dict_keys d).
Proof.
  unfold dict_mem. induction d as [|[k0 v0] d IH]; simpl.
  - split; [discriminate | tauto].
  - destruct (str_eqb k k0) eqn:E.
    + apply str_eqb_eq in E. subst. split; auto.
    + apply str_eqb_neq in E. rewrite IH. split; [tauto|].
      intros [H|H]; [congruence | assumption].
Qed.

Lemma dict_get_None k d : dict_get k d = None <-> ~ In k (dict_keys d).
Proof.
  rewrite <- dict_mem_In. unfold dict_mem.
  destruct (dict_get k d); split; congruence.
Qed.

Lemma dict_keys_set k v d :
  dict_keys (dict_set k v d) =
  if dict_mem k d then dict_keys d else dict_keys d ++ [k].
Proof.
  unfold dict_mem. induction d as [|[k0 v0] d IH]; simpl; [reflexivity|].
  destruct (str_eqb k k0) eqn:E; simpl; [reflexivity|].
  rewrite IH. destruct (dict_get k d); reflexivity.
Qed.

Lemma dict_keys_set_In k v d : In k (dict_keys (dict_set k v d)).
Proof.
  apply dict_mem_In. unfold dict_mem. rewrite dict_get_set_same. reflexivity.
Qed.

Lemma dict_keys_set_incl k v d :
  incl (dict_keys d) (dict_keys (dict_set k v d)).
Proof.
  rewrite dict_keys_set. destruct (dict_mem k d).
  - apply incl_refl.
  - apply incl_appl, incl_refl.
Qed.

Lemma dict_keys_set_NoDup k v d :
  NoDup (dict_keys d) -> NoDup (dict_keys (dict_set k v d)).
Proof.
  intros H. rewrite dict_keys_set. destruct (dict_mem k d) eqn:E; [assumption|].
  apply NoDup_app; [assumption | repeat constructor; simpl; tauto |].
  intros x Hx [<-|[]]. apply dict_mem_In in Hx. congruence.
Qed.

Lemma child_set k v d : child k (dict_set k (VDict v) d) = v.
Proof. unfold child. rewrite dict_get_set_same. reflexivity. Qed.

Lemma shaped_get n d k v :
  shaped (S n) (VDict d) = true -> dict_get k d = Some v -> shaped n v = true.
Proof.
  simpl. induction d as [|[k0 v0] d IH]; simpl; [discriminate|].
  intros H. apply andb_true_iff in H as [H0 Hd].
  destruct (str_eqb k k0); [congruence | auto].
Qed.

Lemma shaped_dict n v : shaped (S n) v = true -> exists d, v = VDict d.
Proof. destruct v; simpl; try discriminate. eauto. Qed.

(** ** [add_song] computes [insert_path] *)

Ltac run_stmt :=
  cbv beta iota zeta delta
    [add_song bind get_tree put_tree lift ret assign1 assign2 assign3 assign4
     with_item set_tree subscript rbind getitem setitem contains dict_mem
     child negb Yggdrasil disk gen insert_path].

Ltac run_dict :=
  repeat (run_stmt; cbn [dict_get];
          rewrite ?dict_get_set_same, ?dict_set_set, ?str_eqb_refl;
          repeat match goal with
                 | H : dict_get _ _ = _ |- _ => rewrite H
                 end).

Lemma add_song_run g a b s m w Y :
  Yggdrasil w = VDict Y ->
  is_catalog (VDict Y) ->
  add_song g a b s m w =
  (Return tt,
   set_tree w (VDict (insert_path [g; a; b; s] (py_or m (VDict [])) Y))).
Proof.
  intros HY HS. destruct w as [Y0 dk gn]. simpl in HY. subst Y0.
  unfold is_catalog in HS. run_stmt.
  destruct (dict_get g Y) as [G|] eqn:Eg; [|run_dict; reflexivity].
  pose proof (shaped_get _ _ _ _ HS Eg) as HG.
  destruct (shaped_dict _ _ HG) as [Gd ->]. run_dict.
  destruct (dict_get a Gd) as [A|] eqn:Ea; [|run_dict; reflexivity].
  pose proof (shaped_get _ _ _ _ HG Ea) as HA.
  destruct (shaped_dict _ _ HA) as [Ad ->]. run_dict.
  destruct (dict_get b Ad) as [B|] eqn:Eb; [|run_dict; reflexivity].
  pose proof (shaped_get _ _ _ _ HA Eb) as HB.
  destruct (shaped_dict _ _ HB) as [Bd ->]. run_dict. reflexivity.
Qed.

(** ** What [insert_path] does to the tree *)

Lemma subscript_insert_same p leaf d :
  p <> [] -> subscript (VDict (insert_path p leaf d)) p = Return leaf.
Proof.
  revert d. induction p as [|k rest IH]; intros d Hp; [congruence|].
  destruct rest as [|k2 rest].
  - simpl. rewrite dict_get_set_same. reflexivity.
  - change (insert_path (k :: k2 :: rest) leaf d)
      with (dict_set k (VDict (insert_path (k2 :: rest) leaf (child k d))) d).
    cbn [subscript getitem rbind]. rewrite dict_get_set_same.
    apply IH. discriminate.
Qed.

Lemma insert_path_head k rest leaf d :
  exists x, insert_path (k :: rest) leaf d = dict_set k x d /\
            (rest <> [] -> x = VDict (insert_path rest leaf (child k d))).
Proof.
  destruct rest as [|k2 rest]; simpl; eexists; split; try reflexivity.
  congruence.
Qed.

Lemma subscript_nondict v q x :
  (forall d, v <> VDict d) -> subscript v q = Return x -> q = [] /\ x = v.
Proof.
  intros Hv. destruct q as [|k q]; simpl.
  - intros [= <-]. auto.
  - destruct v; simpl; try discriminate. exfalso. eapply Hv. reflexivity.
Qed.

Lemma subscript_insert_frame p leaf d q v :
  diverge p q = true ->
  subscript (VDict d) q = Return v ->
  subscript (VDict (insert_path p leaf d)) q = Return v.
Proof.
  revert d q v. induction p as [|k rest IH]; intros d q v Hd Hq;
    [discriminate|].
  destruct q as [|k' q]; [discriminate|].
  cbn [diverge] in Hd.
  destruct (insert_path_head k rest leaf d) as (x & -> & Hx).
  cbn [subscript getitem rbind] in *.
  destruct (str_eqb k k') eqn:E.
  - apply str_eqb_eq in E. subst k'. rewrite dict_get_set_same.
    destruct rest as [|k2 rest]; [discriminate|].
    rewrite Hx by discriminate.
    destruct (dict_get k d) as [y|] eqn:Ey; [|discriminate].
    cbn [rbind] in Hq. unfold child. rewrite Ey.
    destruct y; try (destruct q; simpl in *; discriminate).
    apply IH; assumption.
  - apply str_eqb_neq in E. rewrite dict_get_set_other by assumption.
    exact Hq.
Qed.

Lemma subscript_insert_keys p leaf d q n :
  List.length q < List.length p ->
  subscript (VDict d) q = Return (VDict n) ->
  exists n',
    subscript (VDict (insert_path p leaf d)) q = Return (VDict n') /\
    incl (dict_keys n) (dict_keys n') /\
    (NoDup (dict_keys n) -> NoDup (dict_keys n')).
Proof.
  revert d q n. induction p as [|k rest IH]; intros d q n Hlen Hq;
    [simpl in Hlen; lia|].
  destruct (insert_path_head k rest leaf d) as (x & -> & Hx).
  destruct q as [|k' q].
  - simpl in Hq. injection Hq as <-. eexists. split; [reflexivity|].
    split; [apply dict_keys_set_incl | apply dict_keys_set_NoDup].
  - simpl in Hlen. cbn [subscript getitem rbind] in *.
    destruct (str_eqb k k') eqn:E.
    + apply str_eqb_eq in E. subst k'. rewrite dict_get_set_same.
      destruct rest as [|k2 rest]; [simpl in Hlen; lia|].
      rewrite Hx by discriminate.
      destruct (dict_get k d) as [y|] eqn:Ey; [|discriminate].
      cbn [rbind] in Hq. unfold child. rewrite Ey.
      destruct y; try (destruct q; simpl in *; discriminate).
      apply IH; [lia | assumption].
    + apply str_eqb_neq in E. rewrite dict_get_set_other by assumption.
      exists n. split; [exact Hq|]. split; [apply incl_refl | tauto].
Qed.

Lemma subscript_insert_ancestor leaf q k r d :
  exists n',
    subscript (VDict (insert_path (q ++ k :: r) leaf d)) q
    = Return (VDict n') /\
    In k (dict_keys n') /\
    (d = [] -> dict_keys n' = [k]).
Proof.
  revert d. induction q as [|k1 q IH]; intros d.
  - cbn [app]. destruct (insert_path_head k r leaf d) as (x & -> & _).
    eexists. split; [reflexivity|]. split; [apply dict_keys_set_In|].
    intros ->. reflexivity.
  - cbn [app].
    destruct (insert_path_head k1 (q ++ k :: r) leaf d) as (x & -> & Hx).
    rewrite Hx by (destruct q; discriminate).
    cbn [subscript getitem rbind]. rewrite dict_get_set_same.
    destruct (IH (child k1 d)) as (n' & H1 & H2 & H3).
    exists n'. split; [assumption|]. split; [assumption|].
    intros ->. apply H3. reflexivity.
Qed.

Lemma subscript_insert_created leaf q k r d k0 :
  q <> [] ->
  subscript (VDict d) q = Raise (KeyError k0) ->
  keys_at (VDict (insert_path (q ++ k :: r) leaf d)) q = Return [k].
Proof.
  revert d. induction q as [|k1 q IH]; intros d Hq Hraise; [congruence|].
  cbn [app]. unfold keys_at.
  destruct (insert_path_head k1 (q ++ k :: r) leaf d) as (x & -> & Hx).
  rewrite Hx by (destruct q; discriminate).
  cbn [subscript getitem rbind] in *. rewrite dict_get_set_same.
  unfold child. destruct (dict_get k1 d) as [y|] eqn:Ey.
  - cbn [rbind] in Hraise.
    destruct y; try (destruct q; simpl in *; discriminate).
    destruct q as [|k2 q]; [discriminate|].
    apply IH; [discriminate | assumption].
  - cbn [rbind].
    destruct (subscript_insert_ancestor leaf q k r []) as (n' & -> & _ & H3).
    simpl. rewrite H3; reflexivity.
Qed.

Lemma insert_path_twice p l1 l2 d :
  insert_path p l2 (insert_path p l1 d) = insert_path p l2 d.
Proof.
  revert d. induction p as [|k rest IH]; intros d; [reflexivity|].
  destruct rest as [|k2 rest].
  - simpl. apply dict_set_set.
  - change (insert_path (k :: k2 :: rest) l1 d)
      with (dict_set k (VDict (insert_path (k2 :: rest) l1 (child k d))) d).
    change (insert_path (k :: k2 :: rest) l2 d)
      with (dict_set k (VDict (insert_path (k2 :: rest) l2 (child k d))) d).
    change (insert_path (k :: k2 :: rest) l2 ?x)
      with (dict_set k (VDict (insert_path (k2 :: rest) l2 (child k x))) x).
    rewrite child_set, IH, dict_set_set. reflexivity.
Qed.

Lemma keys_at_insert_leaf p l1 l2 d q :
  List.length q < List.length p ->
  keys_at (VDict (insert_path p l1 d)) q =
  keys_at (VDict (insert_path p l2 d)) q.
Proof.
  revert d q. induction p as [|k rest IH]; intros d q Hlen;
    [simpl in Hlen; lia|].
  destruct (insert_path_head k rest l1 d) as (x1 & -> & Hx1).
  destruct (insert_path_head k rest l2 d) as (x2 & -> & Hx2).
  unfold keys_at in *. destruct q as [|k' q].
  - simpl. rewrite !dict_keys_set. reflexivity.
  - simpl in Hlen. cbn [subscript getitem rbind].
    destruct (str_eqb k k') eqn:E.
    + apply str_eqb_eq in E. subst k'. rewrite !dict_get_set_same.
      destruct rest as [|k2 rest]; [simpl in Hlen; lia|].
      rewrite Hx1, Hx2 by discriminate. cbn [rbind]. apply IH. lia.
    + apply str_eqb_neq in E. rewrite !dict_get_set_other by assumption.
      reflexivity.
Qed.

Lemma shaped_set n k v d :
  shaped (S n) (VDict d) = true -> shaped n v = true ->
  shaped (S n) (VDict (dict_set k v d)) = true.
Proof.
  cbn [shaped]. intros Hd Hv. induction d as [|[k0 v0] d IH]; simpl in *.
  - rewrite Hv. reflexivity.
  - apply andb_true_iff in Hd as [H0 Hd].
    destruct (str_eqb k k0); simpl.
    + rewrite Hv, Hd. reflexivity.
    + rewrite H0, IH by assumption. reflexivity.
Qed.

Lemma shaped_child n k d :
  shaped (S n) (VDict d) = true -> shaped n (VDict (child k d)) = true.
Proof.
  intros H. unfold child. destruct (dict_get k d) as [y|] eqn:Ey.
  - pose proof (shaped_get _ _ _ _ H Ey) as Hy.
    destruct y; try (destruct n; reflexivity). exact Hy.
  - destruct n; reflexivity.
Qed.

Lemma shaped_insert p leaf d :
  shaped (List.length p) (VDict d) = true ->
  shaped (List.length p) (VDict (insert_path p leaf d)) = true.
Proof.
  revert d. induction p as [|k rest IH]; intros d H; [reflexivity|].
  destruct rest as [|k2 rest].
  - apply shaped_set; [assumption | reflexivity].
  - change (insert_path (k :: k2 :: rest) leaf d)
      with (dict_set k (VDict (insert_path (k2 :: rest) leaf (child k d))) d).
    apply shaped_set; [assumption|]. apply IH. apply shaped_child, H.
Qed.

(** ** Reading the tree does not change the state *)

Lemma enumerate_keys_run prefix w :
  enumerate_keys prefix w = (keys_at (Yggdrasil w) prefix, w).
Proof.
  unfold enumerate_keys, keys_at, bind, get_tree, lift.
  destruct (subscript (Yggdrasil w) prefix); reflexivity.
Qed.

Lemma lookup_run g a b s w :
  lookup g a b s w = (subscript (Yggdrasil w) [g; a; b; s], w).
Proof. reflexivity. Qed.

Lemma keys_at_Return Y prefix ks :
  keys_at Y prefix = Return ks ->
  exists n, subscript Y prefix = Return (VDict n) /\ ks = dict_keys n.
Proof.
  unfold keys_at. destruct (subscript Y prefix) as [v| |]; try discriminate.
  destruct v; try discriminate. simpl. intros [= <-]. eauto.
Qed.

Lemma keys_at_KeyError Y prefix k :
  keys_at Y prefix = Raise (KeyError k) ->
  subscript Y prefix = Raise (KeyError k).
Proof.
  unfold keys_at. destruct (subscript Y prefix) as [v| |]; try discriminate.
  - destruct v; discriminate.
  - simpl. congruence.
Qed.

Lemma diverge_neq p q :
  List.length p = List.length q -> p <> q -> diverge p q = true.
Proof.
  revert q. induction p as [|k p IH]; intros [|k' q] Hlen Hne;
    simpl in *; try congruence; try lia.
  destruct (str_eqb k k') eqn:E; [|reflexivity].
  apply str_eqb_eq in E. subst k'. apply IH; [lia | congruence].
Qed.

Lemma py_or_dict d : py_or (VDict d) (VDict []) = VDict d.
Proof. destruct d; reflexivity. Qed.

(** ** Path creation *)

(** C2 (path-creation invariant).  On a tree of the catalog shape [add_song]
    never fails and changes nothing but the tree; afterwards the lookup of
    the path returns what was stored, [metadata or {}]: the record itself
    when it is a mapping, the empty mapping when the argument is missing
    ([None]); every ancestor prefix lists the next key of the path; and a
    node that did not exist before holds exactly that one key, having been
    created empty. *)
Theorem add_song_creates_path
    (w : world) (genre artist album song : str) (record : value) :
  is_catalog (Yggdrasil w) ->
  exists w',
    add_song genre artist album song record w = (Return tt, w') /\
    disk w' = disk w /\ gen w' = gen w /\
    eval (lookup genre artist album song) w'
      = Return (py_or record (VDict [])) /\
    (forall d, record = VDict d ->
       eval (lookup genre artist album song) w' = Return record) /\
    (record = VNone ->
       eval (lookup genre artist album song) w' = Return (VDict [])) /\
    (forall prefix key rest,
       prefix ++ key :: rest = [genre; artist; album; song] ->
       (exists ks,
          eval (enumerate_keys prefix) w' = Return ks /\ In key ks) /\
       (forall k0,
          prefix <> [] ->
          eval (enumerate_keys prefix) w = Raise (KeyError k0) ->
          eval (enumerate_keys prefix) w' = Return [key])).
Proof.
  intros HS. pose proof HS as HS'.
  apply shaped_dict in HS' as [Y HY]. rewrite HY in HS.
  eexists. split; [apply (add_song_run _ _ _ _ _ _ _ HY HS)|].
  split; [reflexivity|]. split; [reflexivity|].
  assert (Hlook : eval (lookup genre artist album song)
            (set_tree w (VDict (insert_path [genre; artist; album; song]
                                  (py_or record (VDict [])) Y)))
          = Return (py_or record (VDict []))).
  { unfold eval. rewrite lookup_run. cbn [fst set_tree Yggdrasil].
    apply subscript_insert_same. discriminate. }
  split; [exact Hlook|].
  split; [intros d ->; rewrite Hlook, py_or_dict; reflexivity|].
  split; [intros ->; exact Hlook|].
  intros prefix key rest Hp. unfold eval. rewrite !enumerate_keys_run.
  cbn [fst set_tree Yggdrasil]. rewrite <- Hp. split.
  - destruct (subscript_insert_ancestor (py_or record (VDict []))
                prefix key rest Y) as (n' & H1 & H2 & _).
    exists (dict_keys n'). unfold keys_at. rewrite H1. auto.
  - intros k0 Hne Hraise. rewrite HY in Hraise.
    apply keys_at_KeyError in Hraise.
    eapply subscript_insert_created; eassumption.
Qed.

(** ** Overwriting *)

(** C7 (overwrite invariant).  Two calls of [add_song] on the same path
    leave the tree that the second call alone would have produced: the
    lookup returns the second record (as stored, [metadata or {}]), the key
    list under every prefix of at most three keys is the one left by the
    first call, so no sibling is added at any level, and key lists without
    repetition stay without repetition. *)
Theorem add_song_overwrites
    (w : world) (genre artist album song : str) (r1 r2 : value) :
  is_catalog (Yggdrasil w) ->
  exists w1 w2,
    add_song genre artist album song r1 w = (Return tt, w1) /\
    add_song genre artist album song r2 w1 = (Return tt, w2) /\
    add_song genre artist album song r2 w = (Return tt, w2) /\
    eval (lookup genre artist album song) w2 = Return (py_or r2 (VDict [])) /\
    (forall d, r2 = VDict d ->
       eval (lookup genre artist album song) w2 = Return r2) /\
    (forall prefix,
       List.length prefix <= 3 ->
       eval (enumerate_keys prefix) w2 = eval (enumerate_keys prefix) w1) /\
    (forall prefix ks,
       List.length prefix <= 3 ->
       eval (enumerate_keys prefix) w = Return ks -> NoDup ks ->
       exists ks2,
         eval (enumerate_keys prefix) w2 = Return ks2 /\ NoDup ks2).
Proof.
  intros HS. pose proof HS as HS'.
  apply shaped_dict in HS' as [Y HY]. rewrite HY in HS.
  set (p := [genre; artist; album; song]).
  set (w1 := set_tree w (VDict (insert_path p (py_or r1 (VDict [])) Y))).
  set (w2 := set_tree w (VDict (insert_path p (py_or r2 (VDict [])) Y))).
  assert (H1 : add_song genre artist album song r1 w = (Return tt, w1))
    by (apply add_song_run; assumption).
  assert (H2 : add_song genre artist album song r2 w1 = (Return tt, w2)).
  { rewrite (add_song_run genre artist album song r2 w1
               (insert_path p (py_or r1 (VDict [])) Y) eq_refl).
    - fold p. rewrite insert_path_twice. reflexivity.
    - apply (shaped_insert p). exact HS. }
  assert (Hlook : eval (lookup genre artist album song) w2
                  = Return (py_or r2 (VDict []))).
  { unfold eval. rewrite lookup_run. cbn [fst w2 set_tree Yggdrasil].
    apply subscript_insert_same. discriminate. }
  exists w1, w2. split; [exact H1|]. split; [exact H2|].
  split; [apply add_song_run; assumption|].
  split; [exact Hlook|].
  split; [intros d ->; rewrite Hlook, py_or_dict; reflexivity|].
  split.
  - intros prefix Hlen. unfold eval. rewrite !enumerate_keys_run.
    cbn [fst w1 w2 set_tree Yggdrasil].
    apply keys_at_insert_leaf. simpl. lia.
  - intros prefix ks Hlen Hks Hnd. unfold eval in *.
    rewrite enumerate_keys_run in *. cbn [fst w2 set_tree Yggdrasil] in *.
    rewrite HY in Hks. apply keys_at_Return in Hks as (n & Hn & ->).
    destruct (subscript_insert_keys p (py_or r2 (VDict [])) Y prefix n)
      as (n' & Hn' & _ & Hnd'); [simpl; lia | assumption |].
    exists (dict_keys n'). unfold keys_at. rewrite Hn'. auto.
Qed.

(** ** Frame *)

(** C10 (frame property).  [add_song] leaves every other path alone: a
    lookup of a different path that returned a record before returns the
    same record afterwards, and every key listed under a prefix of at most
    three keys is still listed there. *)
Theorem add_song_frame
    (w : world) (genre artist album song : str) (record : value)
    (genre' artist' album' song' : str) (v : value) :
  is_catalog (Yggdrasil w) ->
  [genre'; artist'; album'; song'] <> [genre; artist; album; song] ->
  eval (lookup genre' artist' album' song') w = Return v ->
  exists w',
    add_song genre artist album song record w = (Return tt, w') /\
    eval (lookup genre' artist' album' song') w' = Return v /\
    (forall prefix ks,
       List.length prefix <= 3 ->
       eval (enumerate_keys prefix) w = Return ks ->
       exists ks',
         eval (enumerate_keys prefix) w' = Return ks' /\ incl ks ks').
Proof.
  intros HS Hne Hv. pose proof HS as HS'.
  apply shaped_dict in HS' as [Y HY]. rewrite HY in HS.
  eexists. split; [apply (add_song_run _ _ _ _ _ _ _ HY HS)|].
  unfold eval in *. rewrite lookup_run in *.
  cbn [fst set_tree Yggdrasil] in *. rewrite HY in Hv. split.
  - apply subscript_insert_frame; [|assumption].
    apply diverge_neq; [reflexivity | congruence].
  - intros prefix ks Hlen Hks. rewrite enumerate_keys_run in *.
    cbn [fst set_tree Yggdrasil] in *.
    rewrite HY in Hks. apply keys_at_Return in Hks as (n & Hn & ->).
    destruct (subscript_insert_keys [genre; artist; album; song]
                (py_or record (VDict [])) Y prefix n)
      as (n' & Hn' & Hincl & _); [simpl; lia | assumption |].
    exists (dict_keys n'). unfold keys_at. rewrite Hn'. auto.
Qed.

(** ** Lookup *)

Lemma present_path w Y prefix k :
  Yggdrasil w = VDict Y ->
  (present w prefix k <->
   exists n, subscript (VDict Y) prefix = Return (VDict n) /\
             dict_get k n <> None).
Proof.
  intros HY. unfold present, eval. rewrite enumerate_keys_run, HY.
  cbn [fst]. split.
  - intros (ks & Hks & Hin). apply keys_at_Return in Hks as (n & Hn & ->).
    exists n. split; [assumption|]. apply dict_mem_In in Hin.
    unfold dict_mem in Hin. destruct (dict_get k n); congruence.
  - intros (n & Hn & Hk). exists (dict_keys n). unfold keys_at. rewrite Hn.
    split; [reflexivity|]. apply dict_mem_In. unfold dict_mem.
    destruct (dict_get k n); congruence.
Qed.

Lemma enter_bragi_manual_run g a b s w :
  is_catalog (Yggdrasil w) ->
  truthy (Yggdrasil w) = true ->
  eval (enter_bragi_manual g a b s) w = rmap Some (eval (lookup g a b s) w).
Proof.
  intros HS HT. destruct w as [Y0 dk gn]. cbn [Yggdrasil] in *.
  pose proof HS as HS'. apply shaped_dict in HS' as [Y ->].
  unfold is_catalog in HS. unfold eval, enter_bragi_manual, bind.
  cbn [get_tree Yggdrasil]. rewrite HT. cbn [negb].
  rewrite !enumerate_keys_run, !lookup_run. unfold keys_at.
  cbn [Yggdrasil subscript getitem rbind keys fst ret].
  destruct (dict_get g Y) as [G|] eqn:Eg; [|reflexivity].
  pose proof (shaped_get _ _ _ _ HS Eg) as HG.
  destruct (shaped_dict _ _ HG) as [Gd ->]. cbn [rbind getitem keys].
  destruct (dict_get a Gd) as [A|] eqn:Ea; [|reflexivity].
  pose proof (shaped_get _ _ _ _ HG Ea) as HA.
  destruct (shaped_dict _ _ HA) as [Ad ->]. cbn [rbind getitem keys].
  destruct (dict_get b Ad) as [B|] eqn:Eb; [|reflexivity].
  pose proof (shaped_get _ _ _ _ HA Eb) as HB.
  destruct (shaped_dict _ _ HB) as [Bd ->]. cbn [rbind getitem keys].
  destruct (dict_get s Bd); reflexivity.
Qed.

Ltac use_present :=
  repeat match goal with
         | H : exists _, _ |- _ => destruct H
         | H : _ /\ _ |- _ => destruct H
         | H : Return _ = Return _ |- _ => injection H as H; subst
         | H : Raise _ = Return _ |- _ => discriminate H
         | H : VDict _ = VDict _ |- _ => injection H as H; subst
         | H : ~ (exists _, _) |- _ =>
             exfalso; apply H; eexists; split; [reflexivity | congruence]
         end; try congruence.

(** C8 (lookup error).  On a tree of the catalog shape the lookup raises
    [KeyError] carrying the first key of the path that is not listed under
    the keys before it, and returns the stored metadata when all four keys
    are listed; the state is left as it was.  Option 1 of [enter_bragi], on
    a tree that is not empty, ends the same way. *)
Theorem lookup_first_missing
    (w : world) (genre artist album song : str) :
  is_catalog (Yggdrasil w) ->
  (~ present w [] genre ->
     lookup genre artist album song w = (Raise (KeyError genre), w)) /\
  (present w [] genre -> ~ present w [genre] artist ->
     lookup genre artist album song w = (Raise (KeyError artist), w)) /\
  (present w [genre] artist -> ~ present w [genre; artist] album ->
     lookup genre artist album song w = (Raise (KeyError album), w)) /\
  (present w [genre; artist] album ->
   ~ present w [genre; artist; album] song ->
     lookup genre artist album song w = (Raise (KeyError song), w)) /\
  (present w [genre; artist; album] song ->
     exists node metadata,
       subscript (Yggdrasil w) [genre; artist; album] = Return (VDict node) /\
       dict_get song node = Some metadata /\
       lookup genre artist album song w = (Return metadata, w)) /\
  (truthy (Yggdrasil w) = true ->
     eval (enter_bragi_manual genre artist album song) w
     = rmap Some (eval (lookup genre artist album song) w)).
Proof.
  intros HS.
  repeat match goal with
         | |- _ /\ _ => split
         end; try (apply enter_bragi_manual_run; assumption).
  all: pose proof HS as HS'; apply shaped_dict in HS' as [Y HY].
  all: rewrite !(present_path w Y) by assumption.
  all: rewrite lookup_run, HY; rewrite HY in HS; unfold is_catalog in HS.
  all: cbn [subscript getitem rbind].
  all: destruct (dict_get genre Y) as [G|] eqn:Eg; cbn [rbind];
    [pose proof (shaped_get _ _ _ _ HS Eg) as HG;
     destruct (shaped_dict _ _ HG) as [Gd ->]; cbn [getitem rbind]
    | intros; use_present].
  all: try (destruct (dict_get artist Gd) as [A|] eqn:Ea; cbn [rbind];
    [pose proof (shaped_get _ _ _ _ HG Ea) as HA;
     destruct (shaped_dict _ _ HA) as [Ad ->]; cbn [getitem rbind]
    | intros; use_present]).
  all: try (destruct (dict_get album Ad) as [B|] eqn:Eb; cbn [rbind];
    [pose proof (shaped_get _ _ _ _ HA Eb) as HB;
     destruct (shaped_dict _ _ HB) as [Bd ->]; cbn [getitem rbind]
    | intros; use_present]).
  all: try (destruct (dict_get song Bd) as [m|] eqn:Es; cbn [rbind];
            intros; use_present).
  all: try (eexists; eexists; split; [reflexivity|]; split;
            [eassumption | reflexivity]).
Qed.

(** ** Random selection *)

Lemma random_choice_run (w : world) (ks : list str) :
  (ks = [] -> random_choice ks w = (Raise IndexError, w)) /\
  (ks <> [] -> exists k, random_choice ks w = (Return k, drawn w) /\ In k ks).
Proof.
  split.
  - intros ->. reflexivity.
  - intros Hne. destruct ks as [|x ks]; [congruence|].
    unfold random_choice, randbelow. eexists. split; [reflexivity|].
    apply nth_In. apply Nat.mod_upper_bound. discriminate.
Qed.

Lemma sample_run (w : world) (prefix : list str) (sel : M str) :
  (forall w, sel w =
     (Y <- get_tree ;;
      node <- lift (subscript Y prefix) ;;
      ks <- lift (keys node) ;;
      random_choice ks)%stmt w) ->
  sample_ok w prefix sel.
Proof.
  intros Hsel ks Hks. unfold eval in Hks. rewrite enumerate_keys_run in Hks.
  cbn [fst] in Hks. apply keys_at_Return in Hks as (n & Hn & ->).
  rewrite Hsel. unfold bind, get_tree, lift. rewrite Hn. cbn [keys].
  apply random_choice_run.
Qed.

(** C3 (sampling validity).  Each of the four selectors, at a prefix whose
    node lists some keys, returns one of the listed keys; at a node that
    lists no key, the empty tree included, it raises [IndexError], the
    error of [random.choice] on an empty sequence, and the generator has
    not been advanced: emptiness is tested before the draw.  Option 2 of
    [enter_bragi] tests the tree itself before the first selection and, on
    the empty tree, returns without a draw. *)
Theorem random_selection_valid (w : world) (genre artist album : str) :
  sample_ok w [] random_genre /\
  sample_ok w [genre] (random_artist genre) /\
  sample_ok w [genre; artist] (random_album genre artist) /\
  sample_ok w [genre; artist; album] (random_song genre artist album) /\
  (truthy (Yggdrasil w) = false -> enter_bragi_random w = (Return None, w)).
Proof.
  split; [|split; [|split; [|split]]];
    try (apply sample_run; intros w0; reflexivity).
  intros H. unfold enter_bragi_random, bind, get_tree. rewrite H. reflexivity.
Qed.

(** ** The [json] module: what is written is read back *)

Local Open Scope N_scope.

Lemma lor_shiftl_add (hi lo : N) :
  lo < 1024 -> N.lor (N.shiftl hi 10) lo = hi * 1024 + lo.
Proof.
  intros Hlo.
  assert (Hland : N.land (N.shiftl hi 10) lo = 0).
  { apply N.bits_inj. intros i. rewrite N.land_spec, N.bits_0.
    destruct (N.lt_ge_cases i 10) as [Hi|Hi].
    - rewrite N.shiftl_spec_low by assumption. reflexivity.
    - assert (N.testbit lo i = false) as ->.
      { destruct (N.eq_dec lo 0) as [->|Hnz]; [apply N.bits_0|].
        apply N.bits_above_log2. apply N.log2_lt_pow2; [lia|].
        apply N.lt_le_trans with (2 ^ 10); [exact Hlo|].
        apply N.pow_le_mono_r; lia. }
      apply andb_false_r. }
  rewrite <- N.lxor_lor, <- N.add_nocarry_lxor by assumption.
  rewrite N.shiftl_mul_pow2. reflexivity.
Qed.

Lemma hex_value_digit d : d < 16 -> hex_value (hex_digit d) = Some d.
Proof.
  intros H. unfold hex_value, hex_digit.
  destruct (N.ltb_spec d 10).
  - replace ((48 <=? 48 + d) && (48 + d <=? 57)) with true.
    + f_equal. lia.
    + symmetry. apply andb_true_iff. split; apply N.leb_le; lia.
  - replace ((48 <=? 87 + d) && (87 + d <=? 57)) with false.
    + replace ((97 <=? 87 + d) && (87 + d <=? 102)) with true.
      * f_equal. lia.
      * symmetry. apply andb_true_iff. split; apply N.leb_le; lia.
    + symmetry. apply andb_false_iff. right. apply N.leb_gt. lia.
Qed.

Lemma hex4_value_hex4 n :
  n < 65536 ->
  hex4_value (hex_digit (n / 4096 mod 16)) (hex_digit (n / 256 mod 16))
             (hex_digit (n / 16 mod 16)) (hex_digit (n mod 16)) = Some n.
Proof.
  intros H. unfold hex4_value.
  rewrite !hex_value_digit by (apply N.mod_lt; discriminate).
  f_equal.
  replace (n / 256) with (n / 16 / 16) by (rewrite N.Div0.div_div; reflexivity).
  replace (n / 4096) with (n / 16 / 16 / 16)
    by (rewrite !N.Div0.div_div; reflexivity).
  pose proof (N.div_mod n 16 ltac:(discriminate)).
  pose proof (N.div_mod (n / 16) 16 ltac:(discriminate)).
  pose proof (N.div_mod (n / 16 / 16) 16 ltac:(discriminate)).
  pose proof (N.mod_lt n 16 ltac:(discriminate)).
  pose proof (N.mod_lt (n / 16) 16 ltac:(discriminate)).
  pose proof (N.mod_lt (n / 16 / 16) 16 ltac:(discriminate)).
  assert (n / 16 / 16 / 16 < 16).
  { rewrite !N.Div0.div_div. apply N.Div0.div_lt_upper_bound. exact H. }
  rewrite (N.mod_small (n / 16 / 16 / 16)) by assumption.
  generalize dependent (n / 16 / 16 / 16).
  generalize dependent (n / 16 / 16 mod 16).
  generalize dependent (n / 16 / 16). generalize dependent (n / 16 mod 16).
  generalize dependent (n / 16). generalize dependent (n mod 16).
  intros. lia.
Qed.

Lemma high_half_eq c :
  0x10000 <= c -> c < 0x110000 ->
  high_half c = 0xd800 + (c - 0x10000) / 1024.
Proof.
  intros H1 H2. unfold high_half.
  change 0x3ff with (N.ones 10). rewrite N.land_ones, N.shiftr_div_pow2.
  change (2 ^ 10) with 1024.
  assert ((c - 65536) / 1024 < 1024)
    by (apply N.Div0.div_lt_upper_bound; lia).
  rewrite N.mod_small by assumption.
  change 0xd800 with (N.shiftl 54 10) at 1.
  rewrite lor_shiftl_add by assumption. reflexivity.
Qed.

Lemma low_half_eq c :
  low_half c = 0xdc00 + (c - 0x10000) mod 1024.
Proof.
  unfold low_half. change 0x3ff with (N.ones 10). rewrite N.land_ones.
  change (2 ^ 10) with 1024.
  change 0xdc00 with (N.shiftl 55 10) at 1.
  rewrite lor_shiftl_add by (apply N.mod_lt; discriminate). reflexivity.
Qed.

Lemma join_halves c :
  0x10000 <= c -> c < 0x110000 ->
  join_surrogates (high_half c) (low_half c) = c.
Proof.
  intros H1 H2. unfold join_surrogates.
  rewrite high_half_eq, low_half_eq by assumption.
  rewrite (N.add_comm 55296), (N.add_comm 56320), !N.add_sub.
  rewrite lor_shiftl_add by (apply N.mod_lt; discriminate).
  pose proof (N.div_mod (c - 65536) 1024 ltac:(discriminate)) as E.
  rewrite (N.mul_comm _ 1024), <- E. lia.
Qed.

Lemma high_half_range c :
  0x10000 <= c -> c < 0x110000 ->
  is_high_surrogate (high_half c) = true /\
  is_low_surrogate (high_half c) = false /\ high_half c < 65536.
Proof.
  intros H1 H2. rewrite high_half_eq by assumption.
  assert ((c - 65536) / 1024 < 1024)
    by (apply N.Div0.div_lt_upper_bound; lia).
  revert H. generalize ((c - 65536) / 1024). intros q Hq.
  unfold is_high_surrogate, is_low_surrogate. repeat split.
  - apply andb_true_iff. split; apply N.leb_le; lia.
  - apply andb_false_iff. left. apply N.leb_gt. lia.
  - lia.
Qed.

Lemma low_half_range c :
  is_low_surrogate (low_half c) = true /\ low_half c < 65536.
Proof.
  rewrite low_half_eq.
  pose proof (N.mod_lt (c - 65536) 1024 ltac:(discriminate)) as H.
  revert H. generalize ((c - 65536) mod 1024). intros q Hq.
  unfold is_low_surrogate. split.
  - apply andb_true_iff. split; apply N.leb_le; lia.
  - lia.
Qed.

Lemma escape_char_shape c : escape_shape c (escape_char c).
Proof.
  unfold escape_char.
  destruct (N.eqb_spec c 34) as [->|H34]; [apply shape_short; reflexivity|].
  destruct (N.eqb_spec c 92) as [->|H92]; [apply shape_short; reflexivity|].
  destruct (N.eqb_spec c 10) as [->|H10]; [apply shape_short; reflexivity|].
  destruct (N.eqb_spec c 13) as [->|H13]; [apply shape_short; reflexivity|].
  destruct (N.eqb_spec c 9) as [->|H9]; [apply shape_short; reflexivity|].
  destruct (N.eqb_spec c 8) as [->|H8]; [apply shape_short; reflexivity|].
  destruct (N.eqb_spec c 12) as [->|H12]; [apply shape_short; reflexivity|].
  destruct ((32 <=? c) && (c <=? 126)) eqn:Hp.
  - apply andb_true_iff in Hp as [Hlo Hhi]. apply N.leb_le in Hlo.
    apply shape_plain.
    + apply N.eqb_neq; assumption.
    + apply N.eqb_neq; assumption.
    + apply N.leb_gt. lia.
  - destruct (N.ltb_spec c 65536).
    + apply shape_unicode. assumption.
    + apply shape_pair. assumption.
Qed.

Lemma scanstring_unicode h1 h2 h3 h4 c1 x s3 acc :
  hex4_value h1 h2 h3 h4 = Some c1 ->
  is_high_surrogate c1 = false \/ no_low_escape (x :: s3) = true ->
  scanstring (92 :: 117 :: h1 :: h2 :: h3 :: h4 :: x :: s3) acc
  = scanstring (x :: s3) (c1 :: acc).
Proof.
  intros Hhex Hcase.
  cbn [scanstring]. change (92 =? 34) with false. change (92 =? 92) with true.
  change (117 =? 117) with true. cbv beta iota. rewrite Hhex.
  destruct s3 as [|v [|g1 [|g2 [|g3 [|g4 [|y s4]]]]]]; try reflexivity.
  destruct Hcase as [Hhigh|Hnext].
  - rewrite Hhigh. reflexivity.
  - unfold no_low_escape in Hnext.
    destruct (is_high_surrogate c1); [|reflexivity].
    cbn [andb]. destruct ((x =? 92) && (v =? 117)); [|reflexivity].
    destruct (hex4_value g1 g2 g3 g4) as [c2|]; [|discriminate].
    apply negb_true_iff in Hnext. rewrite Hnext. reflexivity.
Qed.

Lemma scanstring_pair h1 h2 h3 h4 g1 g2 g3 g4 c1 c2 x s4 acc :
  hex4_value h1 h2 h3 h4 = Some c1 ->
  hex4_value g1 g2 g3 g4 = Some c2 ->
  is_high_surrogate c1 = true -> is_low_surrogate c2 = true ->
  scanstring (92 :: 117 :: h1 :: h2 :: h3 :: h4
              :: 92 :: 117 :: g1 :: g2 :: g3 :: g4 :: x :: s4) acc
  = scanstring (x :: s4) (join_surrogates c1 c2 :: acc).
Proof.
  intros H1 H2 Hhi Hlo.
  cbn [scanstring]. change (92 =? 34) with false. change (92 =? 92) with true.
  change (117 =? 117) with true. cbv beta iota.
  rewrite H1, Hhi. cbn [andb]. rewrite H2, Hlo. reflexivity.
Qed.

Lemma hex4_value_uescape n rest :
  n < 65536 ->
  exists h1 h2 h3 h4,
    uescape n ++ rest = 92 :: 117 :: h1 :: h2 :: h3 :: h4 :: rest /\
    hex4_value h1 h2 h3 h4 = Some n.
Proof.
  intros H. do 4 eexists. split; [reflexivity|]. apply hex4_value_hex4, H.
Qed.

Lemma escaped_nonempty s tail :
  exists x r, flat_map escape_char s ++ 34 :: tail = x :: r.
Proof.
  destruct s as [|c s]; simpl; [eauto|].
  destruct (escape_char_shape c); simpl; eauto.
Qed.

Lemma no_low_escape_escaped s tail :
  match s with
  | c' :: _ => is_low_surrogate c' = false /\ c' < 0x110000
  | [] => True
  end ->
  no_low_escape (flat_map escape_char s ++ 34 :: tail) = true.
Proof.
  destruct s as [|c s]; intros Hlow.
  - destruct tail; reflexivity.
  - destruct Hlow as [Hlow Hcp].
    cbn [flat_map]. rewrite <- List.app_assoc.
    destruct (escaped_nonempty s tail) as (x & r & ->).
    destruct (escape_char_shape c) as [e He Hu | H34 H92 H31 | Hc | Hc].
    + cbn [app no_low_escape]. rewrite Hu. reflexivity.
    + cbn [app no_low_escape]. rewrite H92. reflexivity.
    + destruct (hex4_value_uescape c (x :: r) Hc)
        as (h1 & h2 & h3 & h4 & -> & Hhex).
      cbn [no_low_escape]. change ((92 =? 92) && (117 =? 117)) with true.
      cbv beta iota. rewrite Hhex, Hlow. reflexivity.
    + rewrite <- List.app_assoc.
      destruct (high_half_range c Hc Hcp) as (_ & Hnl & Hlt).
      destruct (hex4_value_uescape (high_half c)
                  (uescape (low_half c) ++ x :: r) Hlt)
        as (h1 & h2 & h3 & h4 & -> & Hhex).
      cbn [no_low_escape uescape app].
      change ((92 =? 92) && (117 =? 117)) with true.
      cbv beta iota. rewrite Hhex, Hnl. reflexivity.
Qed.

Lemma scanstring_escaped s :
  str_ok s = true ->
  forall acc tail,
    scanstring (flat_map escape_char s ++ 34 :: tail) acc
    = Return (rev acc ++ s, tail).
Proof.
  induction s as [|c s IH]; intros Hok acc tail.
  - cbn [flat_map app scanstring]. change (34 =? 34) with true.
    cbv beta iota. rewrite List.app_nil_r. reflexivity.
  - cbn [str_ok] in Hok. apply andb_true_iff in Hok as [Hok Hs].
    apply andb_true_iff in Hok as [Hcp Hpair].
    apply N.ltb_lt in Hcp. apply negb_true_iff in Hpair.
    specialize (IH Hs).
    assert (Hnext :
              is_high_surrogate c = false \/
              no_low_escape (flat_map escape_char s ++ 34 :: tail) = true).
    { destruct (is_high_surrogate c); [right | left; reflexivity].
      apply no_low_escape_escaped. destruct s as [|c' s']; [exact I|].
      cbn [andb] in Hpair. split; [assumption|].
      cbn [str_ok] in Hs. apply andb_true_iff in Hs as [Hs _].
      apply andb_true_iff in Hs as [Hs _]. apply N.ltb_lt. exact Hs. }
    cbn [flat_map]. rewrite <- List.app_assoc.
    replace (rev acc ++ c :: s) with (rev (c :: acc) ++ s)
      by (cbn [rev]; rewrite <- List.app_assoc; reflexivity).
    destruct (escaped_nonempty s tail) as (x & r & Hxr).
    destruct (escape_char_shape c) as [e He Hu | H34 H92 H31 | Hc | Hc].
    + cbn [app scanstring]. change (92 =? 34) with false.
      change (92 =? 92) with true. cbv beta iota. rewrite Hu, He. apply IH.
    + cbn [app scanstring]. rewrite H34, H92, H31. apply IH.
    + destruct (hex4_value_uescape c (flat_map escape_char s ++ 34 :: tail) Hc)
        as (h1 & h2 & h3 & h4 & -> & Hhex).
      rewrite Hxr in *. rewrite (scanstring_unicode _ _ _ _ _ _ _ _ Hhex Hnext).
      rewrite <- Hxr. apply IH.
    + rewrite <- List.app_assoc.
      destruct (high_half_range c Hc Hcp) as (Hhi & _ & Hlt).
      destruct (low_half_range c) as (Hlo & Hlt').
      destruct (hex4_value_uescape (low_half c)
                  (flat_map escape_char s ++ 34 :: tail) Hlt')
        as (g1 & g2 & g3 & g4 & -> & Hhex').
      destruct (hex4_value_uescape (high_half c)
                  (92 :: 117 :: g1 :: g2 :: g3 :: g4
                   :: flat_map escape_char s ++ 34 :: tail) Hlt)
        as (h1 & h2 & h3 & h4 & -> & Hhex).
      rewrite Hxr in *.
      rewrite (scanstring_pair _ _ _ _ _ _ _ _ _ _ _ _ _ Hhex Hhex' Hhi Hlo).
      rewrite join_halves by assumption. rewrite <- Hxr. apply IH.
Qed.

(** ** Integers *)

Lemma uint_of_chars_chars d : uint_of_chars (uint_chars d) = d.
Proof.
  induction d; cbn [uint_chars uint_of_chars];
    [reflexivity | rewrite IHd; reflexivity ..].
Qed.

Lemma span_digits_chars d rest :
  ends_number rest ->
  span_digits (uint_chars d ++ rest) = (uint_chars d, rest).
Proof.
  intros Hrest. induction d; cbn [uint_chars app span_digits];
    try (rewrite IHd; reflexivity).
  destruct rest as [|c rest]; [reflexivity|].
  cbn [span_digits]. simpl in Hrest. rewrite Hrest. reflexivity.
Qed.

Lemma to_uint_head p :
  exists c d,
    uint_chars (Pos.to_uint p) = c :: uint_chars d /\
    49 <= c /\ c <= 57 /\
    Pos.to_uint p = uint_of_chars (c :: uint_chars d).
Proof.
  assert (Hnorm : Pos.to_uint p = Decimal.unorm (Pos.to_uint p)).
  { rewrite <- DecimalPos.Unsigned.to_of, DecimalPos.Unsigned.of_to.
    reflexivity. }
  pose proof (DecimalPos.Unsigned.to_uint_nonzero p) as Hnz.
  pose proof (DecimalFacts.nzhead_nonzero (Pos.to_uint p)) as Hhead.
  unfold Decimal.unorm in Hnorm.
  destruct (Decimal.nzhead (Pos.to_uint p)) eqn:E;
    try (exfalso; apply Hnz; exact Hnorm);
    try (exfalso; eapply Hhead; reflexivity);
    rewrite Hnorm; eexists; eexists;
    (split; [reflexivity|]); (split; [lia|]); (split; [lia|]);
    cbn [uint_of_chars]; rewrite uint_of_chars_chars; reflexivity.
Qed.

Lemma match_number_digits (neg : bool) (c : N) d rest :
  49 <= c -> c <= 57 ->
  ends_number rest -> float_follows rest = false ->
  match_number ((if neg then [45] else []) ++ c :: uint_chars d ++ rest)
  = Return (VInt (int_of_digits neg (c :: uint_chars d)), rest).
Proof.
  intros H1 H2 Hend Hfloat. unfold match_number.
  assert (Hdig : is_digit c = true)
    by (apply andb_true_iff; split; apply N.leb_le; lia).
  assert (H45 : (c =? 45) = false) by (apply N.eqb_neq; lia).
  assert (H48 : (c =? 48) = false) by (apply N.eqb_neq; lia).
  destruct neg; cbn [app]; [change (45 =? 45) with true | rewrite H45];
    cbv beta iota; rewrite H48, (span_digits_chars d rest Hend), Hdig, Hfloat;
    reflexivity.
Qed.

Lemma match_number_repr z rest :
  ends_number rest -> float_follows rest = false ->
  match_number (int_repr z ++ rest) = Return (VInt z, rest).
Proof.
  intros Hend Hfloat. destruct z as [|p|p]; cbn [int_repr].
  - unfold match_number. cbn [app]. change (48 =? 45) with false.
    cbv beta iota. change (48 =? 48) with true. cbv beta iota.
    change (is_digit 48) with true. cbv beta iota. rewrite Hfloat. reflexivity.
  - destruct (to_uint_head p) as (c & d & -> & H1 & H2 & Hp).
    pose proof (match_number_digits false c d rest H1 H2 Hend Hfloat) as E.
    cbn [app] in E |- *. rewrite E.
    unfold int_of_digits. rewrite <- Hp.
    change (N.of_uint (Pos.to_uint p)) with (Pos.of_uint (Pos.to_uint p)).
    rewrite DecimalPos.Unsigned.of_to. reflexivity.
  - destruct (to_uint_head p) as (c & d & -> & H1 & H2 & Hp).
    pose proof (match_number_digits true c d rest H1 H2 Hend Hfloat) as E.
    cbn [app] in E |- *. rewrite E.
    unfold int_of_digits. rewrite <- Hp.
    change (N.of_uint (Pos.to_uint p)) with (Pos.of_uint (Pos.to_uint p)).
    rewrite DecimalPos.Unsigned.of_to. reflexivity.
Qed.

(** ** The text of a container *)

Lemma value_start_facts h :
  is_value_start h = true ->
  is_ws h = false /\ (h =? 93) = false /\ (h =? 125) = false /\
  (h =? 44) = false /\ (h =? 0xfeff) = false.
Proof.
  unfold is_value_start, is_digit, is_ws. intros H.
  repeat (apply orb_true_iff in H; destruct H as [H|H]);
    try (apply N.eqb_eq in H; subst h; repeat split; reflexivity).
  apply andb_true_iff in H as [H1 H2].
  apply N.leb_le in H1. apply N.leb_le in H2.
  repeat split;
    repeat (apply orb_false_iff; split); apply N.eqb_neq; lia.
Qed.

Lemma concat_singleton (s : str) : concat [s] = s.
Proof. simpl. apply List.app_nil_r. Qed.

Lemma list_tail_cons enc level y l rest :
  list_tail enc level (y :: l) rest
  = 44 :: newline_indent (S level) ++ concat (enc y)
    ++ list_tail enc level l rest.
Proof.
  unfold list_tail. cbn [list_chunks]. rewrite concat_app.
  destruct (is_container y).
  - cbn [concat app]. rewrite <- !List.app_assoc. reflexivity.
  - rewrite concat_singleton. cbn [app]. rewrite <- !List.app_assoc.
    reflexivity.
Qed.

Lemma dict_tail_cons enc level k y l rest :
  dict_tail enc level ((k, y) :: l) rest
  = 44 :: newline_indent (S level) ++ encode_basestring_ascii k
    ++ 58 :: 32 :: concat (enc y) ++ dict_tail enc level l rest.
Proof.
  unfold dict_tail. cbn [dict_chunks app concat].
  rewrite concat_app. rewrite <- !List.app_assoc. cbn [app].
  rewrite <- !List.app_assoc. reflexivity.
Qed.

Lemma iterencode_list level x l rest :
  concat (iterencode level (VList (x :: l))) ++ rest
  = 91 :: newline_indent (S level) ++ concat (iterencode (S level) x)
    ++ list_tail (iterencode (S level)) level l rest.
Proof.
  cbn [iterencode]. unfold list_tail. cbn [list_chunks].
  rewrite !concat_app. destruct (is_container x).
  - cbn [concat app]. rewrite <- !List.app_assoc. cbn [app].
    reflexivity.
  - rewrite concat_singleton. cbn [concat app].
    rewrite <- !List.app_assoc. cbn [app]. reflexivity.
Qed.

Lemma iterencode_dict level k x l rest :
  concat (iterencode level (VDict ((k, x) :: l))) ++ rest
  = 123 :: newline_indent (S level) ++ encode_basestring_ascii k
    ++ 58 :: 32 :: concat (iterencode (S level) x)
    ++ dict_tail (iterencode (S level)) level l rest.
Proof.
  cbn [iterencode]. unfold dict_tail. cbn [dict_chunks concat app].
  rewrite !concat_app. cbn [concat app].
  rewrite <- !List.app_assoc. cbn [app]. rewrite <- !List.app_assoc.
  reflexivity.
Qed.

Lemma iterencode_head v level :
  exists h t, concat (iterencode level v) = h :: t /\ is_value_start h = true.
Proof.
  destruct v as [| [|] | z | s | [|x l] | [|[k x] d]];
    try (do 2 eexists; split; [reflexivity | reflexivity]).
  - cbn [iterencode]. rewrite concat_singleton.
    destruct z as [|p|p]; cbn [int_repr].
    + do 2 eexists; split; reflexivity.
    + destruct (to_uint_head p) as (c & d & -> & H1 & H2 & _).
      do 2 eexists. split; [reflexivity|].
      unfold is_value_start, is_digit.
      replace ((48 <=? c) && (c <=? 57)) with true.
      * repeat rewrite orb_true_r. reflexivity.
      * symmetry. apply andb_true_iff. split; apply N.leb_le; lia.
    + do 2 eexists; split; reflexivity.
  - pose proof (iterencode_list level x l []) as E.
    rewrite List.app_nil_r in E. rewrite E.
    do 2 eexists; split; reflexivity.
Qed.

Lemma skip_ws_indent level h t :
  is_ws h = false -> skip_ws (newline_indent level ++ h :: t) = h :: t.
Proof.
  intros Hh. unfold newline_indent. cbn [app skip_ws].
  change (is_ws 10) with true. cbv beta iota.
  induction (4 * level)%nat as [|n IH]; cbn [repeat app skip_ws].
  - rewrite Hh. reflexivity.
  - change (is_ws 32) with true. cbv beta iota. exact IH.
Qed.

Lemma skip_ws_start h t : is_ws h = false -> skip_ws (h :: t) = h :: t.
Proof. intros Hh. cbn [skip_ws]. rewrite Hh. reflexivity. Qed.

(** ** Reading back what was written *)

Lemma startswith_head k t c s :
  (k =? c) = false -> startswith (k :: t) (c :: s) = false.
Proof. intros H. cbn [startswith]. rewrite H. reflexivity. Qed.

Ltac literals :=
  change (u "null") with [110; 117; 108; 108];
  change (u "true") with [116; 114; 117; 101];
  change (u "false") with [102; 97; 108; 115; 101];
  change (u "NaN") with [78; 97; 78];
  change (u "Infinity") with [73; 110; 102; 105; 110; 105; 116; 121];
  change (u "-Infinity") with [45; 73; 110; 102; 105; 110; 105; 116; 121].

Lemma scan_once_digit fuel c s :
  48 <= c -> c <= 57 ->
  scan_once (S fuel) (c :: s) = match_number (c :: s).
Proof.
  intros H1 H2. cbn [scan_once].
  assert (E34 : (c =? 34) = false) by (apply N.eqb_neq; lia).
  assert (E123 : (c =? 123) = false) by (apply N.eqb_neq; lia).
  assert (E91 : (c =? 91) = false) by (apply N.eqb_neq; lia).
  rewrite E34, E123, E91. literals.
  rewrite !startswith_head by (apply N.eqb_neq; lia). reflexivity.
Qed.

Lemma scan_once_minus fuel c s :
  48 <= c -> c <= 57 ->
  scan_once (S fuel) (45 :: c :: s) = match_number (45 :: c :: s).
Proof.
  intros H1 H2. cbn [scan_once].
  change (45 =? 34) with false. change (45 =? 123) with false.
  change (45 =? 91) with false. cbv beta iota. literals.
  rewrite !startswith_head by reflexivity.
  cbn [startswith].
  replace (73 =? c) with false by (symmetry; apply N.eqb_neq; lia).
  reflexivity.
Qed.

Lemma scan_once_int z : roundtrips (VInt z).
Proof.
  intros _ level rest fuel Hend Hfloat Hfuel.
  destruct fuel as [|fuel]; [simpl in Hfuel; lia|].
  cbn [iterencode]. rewrite concat_singleton.
  rewrite <- (match_number_repr z rest Hend Hfloat).
  destruct z as [|p|p]; cbn [int_repr].
  - apply scan_once_digit; lia.
  - destruct (to_uint_head p) as (c & d & -> & H1 & H2 & _).
    apply scan_once_digit; lia.
  - destruct (to_uint_head p) as (c & d & -> & H1 & H2 & _).
    apply scan_once_minus; lia.
Qed.

Lemma scan_once_str s : roundtrips (VStr s).
Proof.
  intros Hok level rest fuel _ _ Hfuel.
  destruct fuel as [|fuel]; [simpl in Hfuel; lia|].
  cbn [iterencode stable] in *. rewrite concat_singleton.
  unfold encode_basestring_ascii. cbn [app]. rewrite <- List.app_assoc.
  cbn [app scan_once]. change (34 =? 34) with true. cbv beta iota.
  rewrite (scanstring_escaped s Hok). reflexivity.
Qed.

Lemma tail_ends (h : N) (t : str) :
  h = 44 \/ h = 10 ->
  ends_number (h :: t) /\ float_follows (h :: t) = false.
Proof. intros [-> | ->]; split; reflexivity. Qed.

Lemma list_tail_ends enc level l rest :
  ends_number (list_tail enc level l rest) /\
  float_follows (list_tail enc level l rest) = false.
Proof.
  destruct l as [|y l].
  - unfold list_tail. cbn [list_chunks concat app newline_indent].
    apply tail_ends. auto.
  - rewrite list_tail_cons. apply tail_ends. auto.
Qed.

Lemma dict_tail_ends enc level l rest :
  ends_number (dict_tail enc level l rest) /\
  float_follows (dict_tail enc level l rest) = false.
Proof.
  destruct l as [|[k y] l].
  - unfold dict_tail. cbn [dict_chunks concat app newline_indent].
    apply tail_ends. auto.
  - rewrite dict_tail_cons. apply tail_ends. auto.
Qed.

Lemma array_items_encoded l :
  Forall roundtrips l -> forallb stable l = true ->
  forall x acc level rest fuel,
    roundtrips x -> stable x = true ->
    (S (value_fuel x) + List.length l + list_sum (map value_fuel l)
     <= fuel)%nat ->
    array_items fuel
      (concat (iterencode (S level) x)
       ++ list_tail (iterencode (S level)) level l rest) acc
    = Return (VList (rev acc ++ x :: l), rest).
Proof.
  induction l as [|y l IH]; intros Hall Hst x acc level rest fuel Hx Hsx Hfuel;
    (destruct fuel as [|fuel]; [simpl in Hfuel; lia|]); cbn [array_items].
  - destruct (list_tail_ends (iterencode (S level)) level [] rest) as [He Hf].
    rewrite (Hx Hsx (S level) _ fuel He Hf) by (simpl in Hfuel; lia).
    cbn [rbind fst snd]. unfold list_tail. cbn [list_chunks concat app].
    rewrite skip_ws_indent by reflexivity. reflexivity.
  - destruct (list_tail_ends (iterencode (S level)) level (y :: l) rest)
      as [He Hf].
    rewrite (Hx Hsx (S level) _ fuel He Hf) by (simpl in Hfuel; lia).
    cbn [rbind fst snd]. rewrite list_tail_cons.
    rewrite skip_ws_start by reflexivity.
    change (after 93 (44 :: ?t)) with (@None str). cbv beta iota.
    cbn [after]. change (44 =? 44) with true. cbv beta iota.
    destruct (iterencode_head y (S level)) as (h & t & Hht & Hh).
    destruct (value_start_facts h Hh) as (Hws & _).
    rewrite Hht. cbn [app]. rewrite skip_ws_indent by assumption.
    change (h :: t ++ ?r) with ((h :: t) ++ r). rewrite <- Hht.
    inversion Hall as [|? ? Hy Hl]; subst.
    cbn [forallb] in Hst. apply andb_true_iff in Hst as [Hsy Hsl].
    rewrite (IH Hl Hsl y (x :: acc) level rest fuel Hy Hsy)
      by (simpl in Hfuel |- *; lia).
    cbn [rev]. rewrite <- List.app_assoc. reflexivity.
Qed.

Lemma str_eqb_sym a b : str_eqb a b = str_eqb b a.
Proof.
  destruct (str_eqb a b) eqn:E.
  - apply str_eqb_eq in E. subst. symmetry. apply str_eqb_refl.
  - symmetry. apply str_eqb_neq. apply str_eqb_neq in E. congruence.
Qed.

Lemma keys_distinct_middle ks1 k ks2 :
  keys_distinct (ks1 ++ k :: ks2) = true ->
  existsb (str_eqb k) ks1 = false.
Proof.
  induction ks1 as [|k1 ks1 IH]; cbn [app keys_distinct existsb];
    [reflexivity|].
  intros H. apply andb_true_iff in H as [H1 H2].
  apply negb_true_iff in H1. rewrite existsb_app in H1.
  apply orb_false_iff in H1 as [_ H1]. cbn [existsb] in H1.
  apply orb_false_iff in H1 as [H1 _].
  rewrite str_eqb_sym, H1, (IH H2). reflexivity.
Qed.

Lemma dict_set_fresh k v acc :
  existsb (str_eqb k) (map fst acc) = false ->
  dict_set k v acc = acc ++ [(k, v)].
Proof.
  induction acc as [|[k0 v0] acc IH]; cbn [map existsb dict_set app fst];
    [reflexivity|].
  intros H. apply orb_false_iff in H as [H1 H2].
  rewrite H1, (IH H2). reflexivity.
Qed.

Lemma dict_of_items_distinct l acc :
  keys_distinct (map fst (acc ++ l)) = true ->
  dict_of_items l acc = acc ++ l.
Proof.
  revert acc. induction l as [|[k v] l IH]; intros acc H;
    cbn [dict_of_items fold_left fst snd].
  - rewrite List.app_nil_r. reflexivity.
  - rewrite map_app in H. cbn [map fst] in H.
    rewrite dict_set_fresh by (eapply keys_distinct_middle; exact H).
    fold (dict_of_items l (acc ++ [(k, v)])).
    rewrite IH.
    + rewrite <- List.app_assoc. reflexivity.
    + rewrite <- List.app_assoc, map_app. exact H.
Qed.

Lemma object_items_encoded l :
  Forall (fun kv => roundtrips (snd kv)) l ->
  forallb (fun kv => str_ok (fst kv) && stable (snd kv)) l = true ->
  forall k x acc level rest fuel,
    roundtrips x -> str_ok k = true -> stable x = true ->
    (S (value_fuel x) + List.length l
     + list_sum (map (fun kv => value_fuel (snd kv)) l) <= fuel)%nat ->
    object_items fuel
      (encode_basestring_ascii k
       ++ 58 :: 32 :: concat (iterencode (S level) x)
       ++ dict_tail (iterencode (S level)) level l rest) acc
    = Return (VDict (dict_of_items ((k, x) :: l) acc), rest).
Proof.
  induction l as [|[k' y] l IH];
    intros Hall Hst k x acc level rest fuel Hx Hk Hsx Hfuel;
    (destruct fuel as [|fuel]; [simpl in Hfuel; lia|]);
    cbn [object_items]; unfold encode_basestring_ascii;
    cbn [app after]; change (34 =? 34) with true; cbv beta iota;
    rewrite <- List.app_assoc; cbn [app];
    rewrite (scanstring_escaped k Hk); cbn [rbind fst snd rev app];
    rewrite skip_ws_start by reflexivity;
    cbn [after]; change (58 =? 58) with true; cbv beta iota;
    destruct (iterencode_head x (S level)) as (h & t & Hht & Hh);
    destruct (value_start_facts h Hh) as (Hws & _);
    rewrite Hht; cbn [app skip_ws]; change (is_ws 32) with true;
    cbv beta iota; rewrite Hws;
    change (h :: t ++ ?r) with ((h :: t) ++ r); rewrite <- Hht.
  - destruct (dict_tail_ends (iterencode (S level)) level [] rest) as [He Hf].
    rewrite (Hx Hsx (S level) _ fuel He Hf) by (simpl in Hfuel; lia).
    cbn [rbind fst snd]. unfold dict_tail. cbn [dict_chunks concat app].
    rewrite skip_ws_indent by reflexivity. reflexivity.
  - destruct (dict_tail_ends (iterencode (S level)) level ((k', y) :: l) rest)
      as [He Hf].
    rewrite (Hx Hsx (S level) _ fuel He Hf) by (simpl in Hfuel; lia).
    cbn [rbind fst snd]. rewrite dict_tail_cons.
    rewrite skip_ws_start by reflexivity.
    change (after 125 (44 :: ?t)) with (@None str). cbv beta iota.
    cbn [after]. change (44 =? 44) with true. cbv beta iota.
    unfold encode_basestring_ascii. cbn [app].
    rewrite skip_ws_indent by reflexivity.
    inversion Hall as [|? ? Hy Hl]; subst. cbn [snd] in Hy.
    cbn [forallb fst snd] in Hst. apply andb_true_iff in Hst as [Hsy Hsl].
    apply andb_true_iff in Hsy as [Hk' Hsy].
    pose proof (IH Hl Hsl k' y (dict_set k x acc) level rest fuel Hy Hk' Hsy)
      as E.
    unfold encode_basestring_ascii in E. cbn [app] in E.
    rewrite E by (simpl in Hfuel |- *; lia). reflexivity.
Qed.

(** Every stable value is read back from its own encoding. *)
Lemma scan_once_encoded v : roundtrips v.
Proof.
  induction v as [| b | z | s | l IH | d IH] using value_ind.
  - intros _ level rest [|fuel] _ _ Hfuel; [simpl in Hfuel; lia|].
    reflexivity.
  - intros _ level rest [|fuel] _ _ Hfuel; [simpl in Hfuel; lia|].
    destruct b; reflexivity.
  - apply scan_once_int.
  - apply scan_once_str.
  - intros Hst level rest fuel _ _ Hfuel.
    destruct fuel as [|fuel]; [simpl in Hfuel; lia|].
    destruct l as [|x l]; [reflexivity|].
    rewrite iterencode_list. cbn [scan_once].
    change (91 =? 34) with false. change (91 =? 123) with false.
    change (91 =? 91) with true. cbv beta iota.
    destruct (iterencode_head x (S level)) as (h & t & Hht & Hh).
    destruct (value_start_facts h Hh) as (Hws & H93 & _).
    rewrite Hht. cbn [app]. rewrite skip_ws_indent by assumption.
    cbn [after]. rewrite H93.
    change (h :: t ++ ?r) with ((h :: t) ++ r). rewrite <- Hht.
    inversion IH as [|? ? Hx Hl]; subst.
    cbn [stable forallb] in Hst. apply andb_true_iff in Hst as [Hsx Hsl].
    rewrite (array_items_encoded l Hl Hsl x [] level rest fuel Hx Hsx)
      by (simpl in Hfuel |- *; lia).
    reflexivity.
  - intros Hst level rest fuel _ _ Hfuel.
    destruct fuel as [|fuel]; [simpl in Hfuel; lia|].
    destruct d as [|[k x] d]; [reflexivity|].
    rewrite iterencode_dict. cbn [scan_once].
    change (123 =? 34) with false. change (123 =? 123) with true.
    cbv beta iota. unfold encode_basestring_ascii. cbn [app].
    rewrite skip_ws_indent by reflexivity.
    cbn [after]. change (34 =? 125) with false. cbv beta iota.
    inversion IH as [|? ? Hx Hl]; subst. cbn [snd] in Hx.
    cbn [stable] in Hst. apply andb_true_iff in Hst as [Hkeys Hst].
    cbn [forallb fst snd] in Hst. apply andb_true_iff in Hst as [Hsx Hsl].
    apply andb_true_iff in Hsx as [Hk Hsx].
    pose proof (object_items_encoded d Hl Hsl k x [] level rest fuel Hx Hk Hsx)
      as E.
    unfold encode_basestring_ascii in E. cbn [app] in E.
    rewrite E by (simpl in Hfuel |- *; lia).
    rewrite (dict_of_items_distinct ((k, x) :: d) []) by exact Hkeys.
    reflexivity.
Qed.

(** ** The decoder consumes text *)

Lemma skip_ws_length s : (List.length (skip_ws s) <= List.length s)%nat.
Proof.
  induction s as [|c s IH]; cbn [skip_ws]; [lia|].
  destruct (is_ws c); simpl; lia.
Qed.

Lemma after_length c s r :
  after c s = Some r -> List.length s = S (List.length r).
Proof.
  destruct s as [|x s]; cbn [after]; [discriminate|].
  destruct (x =? c); [|discriminate]. intros [= <-]. reflexivity.
Qed.

Ltac split_match :=
  match goal with
  | H : context [match ?x with _ => _ end] |- _ =>
      destruct x eqn:?; try discriminate H
  | H : context [if ?x then _ else _] |- _ =>
      destruct x eqn:?; try discriminate H
  end.

Lemma scanstring_length n :
  forall s acc k r,
    (List.length s <= n)%nat ->
    scanstring s acc = Return (k, r) ->
    (List.length r < List.length s)%nat.
Proof.
  induction n as [|n IH]; intros s acc k r Hn H.
  - destruct s; [discriminate H | simpl in Hn; lia].
  - destruct s as [|c s1]; [discriminate H|].
    cbn [scanstring] in H. unfold decode_error in H.
    repeat split_match;
      try (injection H as <- <-; simpl; lia);
      try (apply IH in H; simpl in *; lia).
Qed.

Lemma span_digits_length s ds r :
  span_digits s = (ds, r) -> (List.length r <= List.length s)%nat.
Proof.
  revert ds r. induction s as [|c s IH]; intros ds r; cbn [span_digits].
  - intros [= <- <-]. simpl. lia.
  - destruct (is_digit c).
    + destruct (span_digits s) as [ds' r'] eqn:E. intros [= <- <-].
      specialize (IH _ _ eq_refl). simpl. lia.
    + intros [= <- <-]. simpl. lia.
Qed.

Lemma match_number_length s v r :
  match_number s = Return (v, r) -> (List.length r < List.length s)%nat.
Proof.
  unfold match_number, decode_error. intros H.
  destruct s as [|c s']; [discriminate H|].
  destruct (c =? 45).
  - destruct s' as [|c' s2]; [discriminate H|].
    destruct (c' =? 48).
    + repeat split_match. injection H as <- <-. simpl. lia.
    + destruct (span_digits s2) as [ds r'] eqn:E.
      apply span_digits_length in E.
      repeat split_match. injection H as <- <-. simpl. lia.
  - destruct (c =? 48).
    + repeat split_match. injection H as <- <-. simpl. lia.
    + destruct (span_digits s') as [ds r'] eqn:E.
      apply span_digits_length in E.
      repeat split_match. injection H as <- <-. simpl. lia.
Qed.

Lemma skipn_length_lt (n : nat) (s : str) :
  (0 < n)%nat -> (n <= List.length s)%nat ->
  (List.length (skipn n s) < List.length s)%nat.
Proof. intros H1 H2. rewrite length_skipn. lia. Qed.

Lemma startswith_length a b :
  startswith a b = true -> (List.length a <= List.length b)%nat.
Proof.
  revert b. induction a as [|x a IH]; intros [|y b]; cbn [startswith];
    simpl; try lia; try discriminate.
  intros H. apply andb_true_iff in H as [_ H]. apply IH in H. lia.
Qed.

Lemma scan_consumes fuel :
  consumes (scan_once fuel) /\
  (forall acc, consumes (fun s => object_items fuel s acc)) /\
  (forall acc, consumes (fun s => array_items fuel s acc)).
Proof.
  induction fuel as [|fuel (IHs & IHo & IHa)].
  - repeat split; intros; intros s v r H; discriminate H.
  - split; [|split].
    + intros s v r H. cbn [scan_once] in H. unfold decode_error in H.
      destruct s as [|c s']; [discriminate H|].
      destruct (c =? 34).
      { destruct (scanstring s' []) as [[k r']| |] eqn:E; try discriminate H.
        apply (scanstring_length _ _ _ _ _ (le_n _)) in E.
        cbn [rbind fst snd] in H. injection H as <- <-. simpl. lia. }
      destruct (c =? 123).
      { pose proof (skip_ws_length s').
        destruct (after 125 (skip_ws s')) as [rest|] eqn:E.
        - apply after_length in E. injection H as <- <-. simpl. lia.
        - apply IHo in H. simpl. lia. }
      destruct (c =? 91).
      { pose proof (skip_ws_length s').
        destruct (after 93 (skip_ws s')) as [rest|] eqn:E.
        - apply after_length in E. injection H as <- <-. simpl. lia.
        - apply IHa in H. simpl. lia. }
      repeat match type of H with
             | (if startswith ?a ?b then Return (_, skipn ?n _) else _) = _ =>
                 let E := fresh "E" in
                 destruct (startswith a b) eqn:E;
                 [apply startswith_length in E; injection H as <- <-;
                  apply (skipn_length_lt n b); [lia | exact E] |]
             | (if startswith ?a ?b then Beyond _ else _) = _ =>
                 destruct (startswith a b); [discriminate H |]
             end.
      apply match_number_length in H. exact H.
    + intros acc s v r H. cbn [object_items] in H. unfold decode_error in H.
      destruct (after 34 s) as [s1|] eqn:E1; [|discriminate H].
      apply after_length in E1.
      destruct (scanstring s1 []) as [[k r1]| |] eqn:E2; try discriminate H.
      apply (scanstring_length _ _ _ _ _ (le_n _)) in E2.
      cbn [rbind fst snd] in H. pose proof (skip_ws_length r1).
      destruct (after 58 (skip_ws r1)) as [s2|] eqn:E3; [|discriminate H].
      apply after_length in E3. pose proof (skip_ws_length s2).
      destruct (scan_once fuel (skip_ws s2)) as [[x r2]| |] eqn:E4;
        try discriminate H.
      apply IHs in E4. cbn [rbind fst snd] in H.
      pose proof (skip_ws_length r2).
      destruct (after 125 (skip_ws r2)) as [rest|] eqn:E5.
      * apply after_length in E5. injection H as <- <-. lia.
      * destruct (after 44 (skip_ws r2)) as [s3|] eqn:E6; [|discriminate H].
        apply after_length in E6. pose proof (skip_ws_length s3).
        apply IHo in H. lia.
    + intros acc s v r H. cbn [array_items] in H. unfold decode_error in H.
      destruct (scan_once fuel s) as [[x r2]| |] eqn:E4; try discriminate H.
      apply IHs in E4. cbn [rbind fst snd] in H.
      pose proof (skip_ws_length r2).
      destruct (after 93 (skip_ws r2)) as [rest|] eqn:E5.
      * apply after_length in E5. injection H as <- <-. lia.
      * destruct (after 44 (skip_ws r2)) as [s3|] eqn:E6; [|discriminate H].
        apply after_length in E6. pose proof (skip_ws_length s3).
        apply IHa in H. lia.
Qed.

(** ** The fuel of [json_loads] is enough *)

Lemma match_number_fuel s : match_number s <> Beyond OutOfFuel.
Proof.
  unfold match_number, decode_error.
  repeat match goal with
         | |- context [match ?x with _ => _ end] => destruct x
         | |- context [if ?x then _ else _] => destruct x
         end; discriminate.
Qed.

Lemma scanstring_fuel n :
  forall s acc, (List.length s <= n)%nat ->
                scanstring s acc <> Beyond OutOfFuel.
Proof.
  induction n as [|n IH]; intros s acc Hn.
  - destruct s; [discriminate | simpl in Hn; lia].
  - destruct s as [|c s1]; [discriminate|].
    cbn [scanstring]. unfold decode_error.
    repeat match goal with
           | |- context [match ?x with _ => _ end] => destruct x eqn:?
           | |- context [if ?x then _ else _] => destruct x eqn:?
           end; try discriminate; apply IH; simpl in *; lia.
Qed.

Lemma scan_fuel fuel :
  (forall s, (2 * List.length s + 1 <= fuel)%nat ->
             scan_once fuel s <> Beyond OutOfFuel) /\
  (forall s acc, (2 * List.length s + 2 <= fuel)%nat ->
                 object_items fuel s acc <> Beyond OutOfFuel) /\
  (forall s acc, (2 * List.length s + 2 <= fuel)%nat ->
                 array_items fuel s acc <> Beyond OutOfFuel).
Proof.
  induction fuel as [|fuel (IHs & IHo & IHa)].
  - repeat split; intros; lia.
  - destruct (scan_consumes fuel) as (Cs & Co & Ca).
    split; [|split].
    + intros s Hlen. cbn [scan_once]. unfold decode_error.
      destruct s as [|c s']; [discriminate|]. simpl in Hlen.
      pose proof (skip_ws_length s').
      destruct (c =? 34).
      { pose proof (scanstring_fuel _ s' [] (le_n _)).
        destruct (scanstring s' []) as [[k r']| |]; cbn [rbind];
          congruence. }
      destruct (c =? 123).
      { destruct (after 125 (skip_ws s')); [discriminate|]. apply IHo. lia. }
      destruct (c =? 91).
      { destruct (after 93 (skip_ws s')); [discriminate|]. apply IHa. lia. }
      repeat match goal with
             | |- (if ?x then _ else _) <> _ => destruct x; [discriminate|]
             end.
      apply match_number_fuel.
    + intros s acc Hlen. cbn [object_items]. unfold decode_error.
      destruct (after 34 s) as [s1|] eqn:E1; [|discriminate].
      apply after_length in E1.
      pose proof (scanstring_fuel _ s1 [] (le_n _)).
      destruct (scanstring s1 []) as [[k r1]| |] eqn:E2; cbn [rbind];
        try congruence.
      apply (scanstring_length _ _ _ _ _ (le_n _)) in E2.
      cbn [fst snd]. pose proof (skip_ws_length r1).
      destruct (after 58 (skip_ws r1)) as [s2|] eqn:E3; [|discriminate].
      apply after_length in E3. pose proof (skip_ws_length s2).
      assert (scan_once fuel (skip_ws s2) <> Beyond OutOfFuel)
        by (apply IHs; lia).
      destruct (scan_once fuel (skip_ws s2)) as [[x r2]| |] eqn:E4;
        cbn [rbind]; try congruence.
      apply Cs in E4. cbn [fst snd]. pose proof (skip_ws_length r2).
      destruct (after 125 (skip_ws r2)); [discriminate|].
      destruct (after 44 (skip_ws r2)) as [s3|] eqn:E6; [|discriminate].
      apply after_length in E6. pose proof (skip_ws_length s3).
      apply IHo. lia.
    + intros s acc Hlen. cbn [array_items]. unfold decode_error.
      assert (scan_once fuel s <> Beyond OutOfFuel) by (apply IHs; lia).
      destruct (scan_once fuel s) as [[x r2]| |] eqn:E4;
        cbn [rbind]; try congruence.
      apply Cs in E4. cbn [fst snd]. pose proof (skip_ws_length r2).
      destruct (after 93 (skip_ws r2)); [discriminate|].
      destruct (after 44 (skip_ws r2)) as [s3|] eqn:E6; [|discriminate].
      apply after_length in E6. pose proof (skip_ws_length s3).
      apply IHa. lia.
Qed.

(** More fuel does not change a result. *)
Lemma scan_more_fuel fuel :
  (forall s, scan_once fuel s <> Beyond OutOfFuel ->
             scan_once (S fuel) s = scan_once fuel s) /\
  (forall s acc, object_items fuel s acc <> Beyond OutOfFuel ->
                 object_items (S fuel) s acc = object_items fuel s acc) /\
  (forall s acc, array_items fuel s acc <> Beyond OutOfFuel ->
                 array_items (S fuel) s acc = array_items fuel s acc).
Proof.
  induction fuel as [|fuel (IHs & IHo & IHa)].
  - repeat split; intros; exfalso; auto.
  - split; [|split].
    + intros s H. cbn [scan_once] in H.
      cbn [scan_once]. destruct s as [|c s']; [reflexivity|].
      destruct (c =? 34); [reflexivity|].
      destruct (c =? 123).
      { destruct (after 125 (skip_ws s')); [reflexivity|]. apply IHo, H. }
      destruct (c =? 91).
      { destruct (after 93 (skip_ws s')); [reflexivity|]. apply IHa, H. }
      reflexivity.
    + intros s acc H. cbn [object_items] in H |- *.
      destruct (after 34 s) as [s1|]; [|reflexivity].
      destruct (scanstring s1 []) as [[k r1]| |]; [|reflexivity..].
      cbn [rbind fst snd] in H |- *.
      destruct (after 58 (skip_ws r1)) as [s2|]; [|reflexivity].
      assert (Hs : scan_once fuel (skip_ws s2) <> Beyond OutOfFuel).
      { intros E. rewrite E in H. apply H. reflexivity. }
      rewrite (IHs _ Hs).
      destruct (scan_once fuel (skip_ws s2)) as [[x r2]| |]; [|reflexivity..].
      cbn [rbind fst snd] in H |- *.
      destruct (after 125 (skip_ws r2)); [reflexivity|].
      destruct (after 44 (skip_ws r2)) as [s3|]; [|reflexivity].
      apply IHo, H.
    + intros s acc H. cbn [array_items] in H |- *.
      assert (Hs : scan_once fuel s <> Beyond OutOfFuel).
      { intros E. rewrite E in H. apply H. reflexivity. }
      rewrite (IHs _ Hs).
      destruct (scan_once fuel s) as [[x r2]| |]; [|reflexivity..].
      cbn [rbind fst snd] in H |- *.
      destruct (after 93 (skip_ws r2)); [reflexivity|].
      destruct (after 44 (skip_ws r2)) as [s3|]; [|reflexivity].
      apply IHa, H.
Qed.

Lemma scan_once_more_fuel fuel extra s :
  scan_once fuel s <> Beyond OutOfFuel ->
  scan_once (extra + fuel) s = scan_once fuel s.
Proof.
  intros H. induction extra as [|extra IH]; [reflexivity|].
  cbn [Nat.add]. rewrite <- IH.
  apply (proj1 (scan_more_fuel (extra + fuel))). rewrite IH. exact H.
Qed.

(** [json.loads] never runs out of fuel. *)
Lemma json_loads_fuel s : json_loads s <> Beyond OutOfFuel.
Proof.
  unfold json_loads, decode_error.
  destruct (after 65279 s); [discriminate|].
  pose proof (skip_ws_length s).
  assert (scan_once (2 * List.length s + 1) (skip_ws s) <> Beyond OutOfFuel)
    by (apply (proj1 (scan_fuel _)); lia).
  destruct (scan_once (2 * List.length s + 1) (skip_ws s)) as [[v r]| |];
    cbn [rbind]; try congruence.
  destruct (skip_ws (snd (v, r))); discriminate.
Qed.

(** The round trip of the encoder and the decoder. *)
Lemma json_loads_dumps v :
  stable v = true -> json_loads (json_dumps v) = Return v.
Proof.
  intros Hst. unfold json_loads, json_dumps.
  destruct (iterencode_head v 0) as (h & t & Hht & Hh).
  destruct (value_start_facts h Hh) as (Hws & _ & _ & _ & Hbom).
  rewrite Hht. cbn [after]. rewrite Hbom.
  rewrite skip_ws_start by assumption. rewrite <- Hht.
  set (s := concat (iterencode 0 v)).
  set (fuel := (2 * List.length s + 1)%nat).
  assert (Hfuel : scan_once fuel s <> Beyond OutOfFuel)
    by (apply (proj1 (scan_fuel _)); unfold fuel; lia).
  rewrite <- (scan_once_more_fuel fuel (value_fuel v) s Hfuel).
  pose proof (scan_once_encoded v Hst 0%nat [] (value_fuel v + fuel)%nat
                I eq_refl ltac:(lia)) as E.
  rewrite List.app_nil_r in E. fold s in E. rewrite E. reflexivity.
Qed.

Local Close Scope N_scope.

(** ** Saving and loading *)

Lemma keys_distinct_NoDup ks : keys_distinct ks = true <-> NoDup ks.
Proof.
  induction ks as [|k ks IH]; cbn [keys_distinct].
  - split; [constructor | reflexivity].
  - rewrite andb_true_iff, negb_true_iff, IH. split.
    + intros [Hk Hks]. constructor; [|assumption].
      intros Hin. assert (existsb (str_eqb k) ks = true); [|congruence].
      apply existsb_exists. exists k. split; [assumption | apply str_eqb_refl].
    + intros H. inversion H as [|? ? Hk Hks]; subst. split; [|assumption].
      destruct (existsb (str_eqb k) ks) eqn:E; [|reflexivity].
      apply existsb_exists in E as (x & Hx & Hkx).
      apply str_eqb_eq in Hkx. subst x. contradiction.
Qed.


Lemma stable_dict_set k v d :
  str_ok k = true -> stable v = true -> stable (VDict d) = true ->
  stable (VDict (dict_set k v d)) = true.
Proof.
  intros Hk Hv Hd. cbn [stable] in *. apply andb_true_iff in Hd as [Hkeys Hd].
  apply andb_true_iff. split.
  - apply keys_distinct_NoDup. apply (dict_keys_set_NoDup k v d).
    apply keys_distinct_NoDup. exact Hkeys.
  - clear Hkeys. induction d as [|[k0 v0] d IH]; cbn [dict_set forallb fst snd].
    + rewrite Hk, Hv. reflexivity.
    + cbn [forallb fst snd] in Hd. apply andb_true_iff in Hd as [H0 Hd].
      destruct (str_eqb k k0) eqn:E; cbn [forallb fst snd].
      * apply andb_true_iff in H0 as [H0 _]. rewrite H0, Hv, Hd. reflexivity.
      * rewrite H0, (IH Hd). reflexivity.
Qed.




Lemma write_chunks_run filename chunks :
  forall w content,
    disk w filename = Some content ->
    exists w',
      write_chunks filename chunks w = (Return tt, w') /\
      Yggdrasil w' = Yggdrasil w /\ gen w' = gen w /\
      disk w' filename = Some (content ++ concat chunks) /\
      (forall f, f <> filename -> disk w' f = disk w f).
Proof.
  induction chunks as [|chunk chunks IH]; intros w content Hw.
  - exists w. cbn [write_chunks concat]. rewrite List.app_nil_r.
    repeat split; auto.
  - cbn [write_chunks]. unfold bind at 1, file_write, file_content.
    rewrite Hw.
    destruct (IH (set_disk w (disk_write filename (content ++ chunk) (disk w)))
                (content ++ chunk))
      as (w' & Hrun & HY & Hg & Hf & Hother).
    + cbn [set_disk disk]. unfold disk_write. rewrite String.eqb_refl.
      reflexivity.
    + exists w'. rewrite Hrun. repeat split; try assumption.
      * rewrite Hf. cbn [concat]. rewrite List.app_assoc. reflexivity.
      * intros f Hne. rewrite (Hother f Hne). cbn [set_disk disk].
        unfold disk_write. apply String.eqb_neq in Hne. rewrite Hne.
        reflexivity.
Qed.

Lemma save_chunks_run filename chunks w :
  exists w',
    (open_w filename ;; write_chunks filename chunks)%stmt w
    = (Return tt, w') /\
    Yggdrasil w' = Yggdrasil w /\ gen w' = gen w /\
    disk w' filename = Some (concat chunks) /\
    (forall f, f <> filename -> disk w' f = disk w f).
Proof.
  unfold bind, open_w.
  destruct (write_chunks_run filename chunks
              (set_disk w (disk_write filename [] (disk w))) [])
    as (w' & Hrun & HY & Hg & Hf & Hother).
  - cbn [set_disk disk]. unfold disk_write. rewrite String.eqb_refl.
    reflexivity.
  - exists w'. repeat split; try assumption.
    intros f Hne. rewrite (Hother f Hne). cbn [set_disk disk].
    unfold disk_write. apply String.eqb_neq in Hne. rewrite Hne. reflexivity.
Qed.

Lemma load_yggdrasil_run filename w content :
  disk w filename = Some content ->
  load_yggdrasil filename w =
  match json_loads content with
  | Return Y => (Return tt, set_tree w Y)
  | Raise e => (Raise e, w)
  | Beyond l => (Beyond l, w)
  end.
Proof.
  intros H. unfold load_yggdrasil, bind, path_exists, file_read, file_content,
    lift, put_tree.
  rewrite H. cbv beta iota. rewrite H.
  destruct (json_loads content); reflexivity.
Qed.

Lemma save_yggdrasil_run filename w :
  save_yggdrasil filename w =
  (open_w filename ;;
   write_chunks filename (iterencode 0 (Yggdrasil w)))%stmt w.
Proof. reflexivity. Qed.






Local Open Scope N_scope.





Local Close Scope N_scope.

(** ** Round trip *)



(** The scenario of the specification: add, save, load, lookup. *)
Example bohemian_scenario :
  eval (add_songs [bohemian] ;;
        save_yggdrasil default_filename ;;
        put_tree (VDict []) ;;
        load_yggdrasil default_filename ;;
        lookup (u "Rock") (u "Queen") (u "A Night at the Opera")
               (u "Bohemian Rhapsody"))%stmt fresh
  = Return (VDict [(u "duration_ms", VInt 354000)]).
Proof. vm_compute. reflexivity. Qed.

(** A high surrogate followed by a low surrogate, as two characters of a
    key, comes back as one character: such text is outside [str_ok]. *)
Example surrogate_pair_joined :
  json_loads (json_dumps (VStr [0xd83d; 0xde00]%N)) = Return (VStr [0x1f600%N]).
Proof. vm_compute. reflexivity. Qed.

(** ** Saving *)



(** ** Loading *)

(** C5 (cold start).  When the file does not exist, [load_yggdrasil]
    returns normally and the tree is the empty dictionary. *)
Theorem load_cold_start (filename : string) (w : world) :
  disk w filename = None ->
  load_yggdrasil filename w = (Return tt, set_tree w (VDict [])).
Proof.
  intros H. unfold load_yggdrasil, bind, path_exists. rewrite H. reflexivity.
Qed.

Lemma load_cold_start_witness :
  disk rock default_filename = None /\
  load_yggdrasil default_filename rock = (Return tt, set_tree rock (VDict [])).
Proof.
  split; [reflexivity|]. apply (load_cold_start default_filename rock).
  reflexivity.
Defined.




(** C9, as the code has it.  A reload does not merge: when the file holds a
    document that [json] decodes, the decoded document replaces the tree.
    Afterwards every lookup and every key listing is answered from the
    document alone, so every song path of the document is present with its
    record, and the tree that was in memory before has no part in the
    result. *)
Theorem load_replaces_tree
    (filename : string) (w : world) (content : str) (Y : value) :
  disk w filename = Some content ->
  json_loads content = Return Y ->
  load_yggdrasil filename w = (Return tt, set_tree w Y) /\
  (forall genre artist album song,
     eval (lookup genre artist album song) (exec (load_yggdrasil filename) w)
     = subscript Y [genre; artist; album; song]) /\
  (forall prefix,
     eval (enumerate_keys prefix) (exec (load_yggdrasil filename) w)
     = keys_at Y prefix) /\
  (forall w',
     disk w' filename = Some content ->
     Yggdrasil (exec (load_yggdrasil filename) w')
     = Yggdrasil (exec (load_yggdrasil filename) w)).
Proof.
  intros H HY.
  assert (Hload : forall w0, disk w0 filename = Some content ->
            load_yggdrasil filename w0 = (Return tt, set_tree w0 Y)).
  { intros w0 H0. rewrite (load_yggdrasil_run filename w0 content H0), HY.
    reflexivity. }
  split; [apply Hload, H|]. unfold exec. rewrite (Hload w H). cbn [snd].
  split; [|split].
  - intros genre artist album song. unfold eval. rewrite lookup_run.
    reflexivity.
  - intros prefix. unfold eval. rewrite enumerate_keys_run. reflexivity.
  - intros w' H'. rewrite (Hload w' H'). reflexivity.
Qed.

Lemma load_replaces_tree_witness :
  let w := rock_with_file (u "{}") in
  disk w default_filename = Some (u "{}") /\
  json_loads (u "{}") = Return (VDict []) /\
  load_yggdrasil default_filename w = (Return tt, set_tree w (VDict [])).
Proof.
  split; [reflexivity|]. split; [reflexivity|].
  apply (load_replaces_tree default_filename (rock_with_file (u "{}"))
           (u "{}") (VDict []) eq_refl eq_refl).
Defined.

(** C9, as stated, fails: the tree in memory holds a song, the file holds
    the document of the empty tree; after the load the song is gone. *)
Lemma reload_discards_memory :
  let w := rock_with_file (u "{}") in
  let w' := exec (load_yggdrasil default_filename) w in
  eval (lookup (u "Rock") (u "Queen") (u "A Night at the Opera")
               (u "Bohemian Rhapsody")) w
  = Return (VDict [(u "duration_ms", VInt 354000)]) /\
  eval (load_yggdrasil default_filename) w = Return tt /\
  eval (lookup (u "Rock") (u "Queen") (u "A Night at the Opera")
               (u "Bohemian Rhapsody")) w'
  = Raise (KeyError (u "Rock")).
Proof.
  vm_compute. repeat split; reflexivity.
Qed.

(** ** The catalog, on the small example *)

Lemma add_song_creates_path_witness :
  is_catalog (Yggdrasil rock) /\
  exists w',
    add_song (u "Rock") (u "Queen") (u "Jazz") (u "Mustapha") VNone rock
    = (Return tt, w') /\
    eval (lookup (u "Rock") (u "Queen") (u "Jazz") (u "Mustapha")) w'
    = Return (VDict []).
Proof.
  split; [reflexivity|].
  destruct (add_song_creates_path rock (u "Rock") (u "Queen") (u "Jazz")
              (u "Mustapha") VNone eq_refl)
    as (w' & Hadd & _ & _ & _ & _ & Hnone & _).
  exists w'. split; [exact Hadd | exact (Hnone eq_refl)].
Defined.

Lemma add_song_overwrites_witness :
  is_catalog (Yggdrasil fresh) /\
  exists w1 w2,
    add_song (u "Rock") (u "Queen") (u "Jazz") (u "Mustapha")
      (VDict [(u "track_number", VInt 1)]) fresh = (Return tt, w1) /\
    add_song (u "Rock") (u "Queen") (u "Jazz") (u "Mustapha")
      (VDict [(u "track_number", VInt 2)]) w1 = (Return tt, w2) /\
    eval (lookup (u "Rock") (u "Queen") (u "Jazz") (u "Mustapha")) w2
    = Return (VDict [(u "track_number", VInt 2)]).
Proof.
  split; [reflexivity|].
  destruct (add_song_overwrites fresh (u "Rock") (u "Queen") (u "Jazz")
              (u "Mustapha") (VDict [(u "track_number", VInt 1)])
              (VDict [(u "track_number", VInt 2)]) eq_refl)
    as (w1 & w2 & H1 & H2 & _ & _ & Hdict & _).
  exists w1, w2. split; [exact H1|]. split; [exact H2|].
  exact (Hdict _ eq_refl).
Defined.

Lemma add_song_frame_witness :
  is_catalog (Yggdrasil rock) /\
  [u "Rock"; u "Queen"; u "A Night at the Opera"; u "Bohemian Rhapsody"]
  <> [u "Rock"; u "Queen"; u "Jazz"; u "Mustapha"] /\
  eval (lookup (u "Rock") (u "Queen") (u "A Night at the Opera")
               (u "Bohemian Rhapsody")) rock
  = Return (VDict [(u "duration_ms", VInt 354000)]) /\
  exists w',
    add_song (u "Rock") (u "Queen") (u "Jazz") (u "Mustapha") VNone rock
    = (Return tt, w') /\
    eval (lookup (u "Rock") (u "Queen") (u "A Night at the Opera")
                 (u "Bohemian Rhapsody")) w'
    = Return (VDict [(u "duration_ms", VInt 354000)]).
Proof.
  assert (Hne : [u "Rock"; u "Queen"; u "A Night at the Opera";
                 u "Bohemian Rhapsody"]
                <> [u "Rock"; u "Queen"; u "Jazz"; u "Mustapha"])
    by (vm_compute; discriminate).
  split; [reflexivity|]. split; [exact Hne|]. split; [reflexivity|].
  destruct (add_song_frame rock (u "Rock") (u "Queen") (u "Jazz")
              (u "Mustapha") VNone (u "Rock") (u "Queen")
              (u "A Night at the Opera") (u "Bohemian Rhapsody")
              (VDict [(u "duration_ms", VInt 354000)]) eq_refl Hne eq_refl)
    as (w' & Hadd & Hlook & _).
  exists w'. split; assumption.
Defined.

(** The scenario of the specification: only "Rock" is in the tree, and the
    lookup of "Jazz" raises [KeyError] with "Jazz". *)
Lemma lookup_first_missing_witness :
  is_catalog (Yggdrasil rock) /\
  ~ present rock [] (u "Jazz") /\
  lookup (u "Jazz") (u "Queen") (u "A Night at the Opera")
         (u "Bohemian Rhapsody") rock
  = (Raise (KeyError (u "Jazz")), rock).
Proof.
  assert (Habsent : ~ present rock [] (u "Jazz")).
  { intros (ks & Hks & Hin). vm_compute in Hks. injection Hks as <-.
    destruct Hin as [Hin|[]]. vm_compute in Hin. discriminate Hin. }
  split; [reflexivity|]. split; [exact Habsent|].
  exact (proj1 (lookup_first_missing rock (u "Jazz") (u "Queen")
                  (u "A Night at the Opera") (u "Bohemian Rhapsody") eq_refl)
           Habsent).
Defined.

(** The scenario of the specification: on the empty tree, the selection of
    a genre raises [IndexError]. *)
Example random_genre_empty :
  random_genre fresh = (Raise IndexError, fresh).
Proof. reflexivity. Qed.

(** Why the catalog shape is asked for: after a load of a document that is
    a list, [add_song] raises [TypeError] and leaves the tree as it is. *)
Example add_song_on_list :
  let w := exec (load_yggdrasil default_filename)
             (rock_with_file (u "[1, 2]")) in
  add_song (u "Rock") (u "Queen") (u "Jazz") (u "Mustapha") VNone w
  = (Raise TypeError, w).
Proof. vm_compute. reflexivity. Qed.

(** A random descent on the small catalog ends at its only song. *)
Example random_descent :
  eval enter_bragi_random rock
  = Return (Some (u "Rock", u "Queen", u "A Night at the Opera",
                  u "Bohemian Rhapsody",
                  VDict [(u "duration_ms", VInt 354000)])).
Proof. vm_compute. reflexivity. Qed.

(** * Further properties *)

(** ** [add_song] on a tree of any shape *)

Lemma passable_dict path v : passable path v = true -> exists d, v = VDict d.
Proof. destruct path, v; simpl; try discriminate; eauto. Qed.

Lemma passable_cons k rest d :
  passable (k :: rest) (VDict d) =
  match dict_get k d with
  | Some x => passable rest x
  | None => true
  end.
Proof. reflexivity. Qed.

Lemma add_song_passable g a b s m w Y :
  Yggdrasil w = VDict Y ->
  passable [g; a; b] (VDict Y) = true ->
  add_song g a b s m w =
  (Return tt,
   set_tree w (VDict (insert_path [g; a; b; s] (py_or m (VDict [])) Y))).
Proof.
  intros HY HS. destruct w as [Y0 dk gn]. simpl in HY. subst Y0.
  rewrite passable_cons in HS. run_stmt.
  destruct (dict_get g Y) as [G|] eqn:Eg; [|run_dict; reflexivity].
  destruct (passable_dict _ _ HS) as [Gd ->]. rewrite passable_cons in HS.
  run_dict.
  destruct (dict_get a Gd) as [A|] eqn:Ea; [|run_dict; reflexivity].
  destruct (passable_dict _ _ HS) as [Ad ->]. rewrite passable_cons in HS.
  run_dict.
  destruct (dict_get b Ad) as [B|] eqn:Eb; [|run_dict; reflexivity].
  destruct (passable_dict _ _ HS) as [Bd ->]. run_dict. reflexivity.
Qed.

Ltac stuck :=
  run_dict;
  repeat match goal with
         | |- context [existsb ?f ?l] => destruct (existsb f l)
         | |- context [str_contains ?a ?b] => destruct (str_contains a b)
         end;
  run_dict; try reflexivity.

Lemma add_song_stuck g a b s m w :
  passable [g; a; b] (Yggdrasil w) = false ->
  add_song g a b s m w = (Raise TypeError, w).
Proof.
  destruct w as [Y dk gn]. cbn [Yggdrasil]. intros HS.
  destruct Y as [| | | |l|Y]; try (stuck; fail).
  rewrite passable_cons in HS.
  destruct (dict_get g Y) as [G|] eqn:Eg; [|discriminate].
  destruct G as [| | | |l|Gd]; try (stuck; fail).
  rewrite passable_cons in HS.
  destruct (dict_get a Gd) as [A|] eqn:Ea; [|discriminate].
  destruct A as [| | | |l|Ad]; try (stuck; fail).
  rewrite passable_cons in HS.
  destruct (dict_get b Ad) as [B|] eqn:Eb; [|discriminate].
  destruct B as [| | | |l|Bd]; try discriminate HS; try (stuck; fail).
Qed.

(** X1 ([add_song] on any tree).  Whatever the tree is, [add_song] either
    returns, and the tree is then the old one with the record stored at the
    end of the path and the missing dictionaries created, or raises
    [TypeError] and leaves the process exactly as it was.  It returns
    exactly when the tree is a dictionary and every node that the tree
    already has under the genre, the artist and the album is a
    dictionary. *)
Theorem add_song_all_or_nothing
    (w : world) (genre artist album song : str) (record : value) :
  (passable [genre; artist; album] (Yggdrasil w) = true ->
   exists Y,
     Yggdrasil w = VDict Y /\
     add_song genre artist album song record w =
     (Return tt,
      set_tree w
        (VDict (insert_path [genre; artist; album; song]
                  (py_or record (VDict [])) Y)))) /\
  (passable [genre; artist; album] (Yggdrasil w) = false ->
   add_song genre artist album song record w = (Raise TypeError, w)).
Proof.
  split.
  - intros H. destruct (passable_dict _ _ H) as [Y HY]. exists Y.
    split; [exact HY|]. apply add_song_passable; [exact HY|].
    rewrite <- HY. exact H.
  - apply add_song_stuck.
Qed.

(** ** Sequences of calls *)

Lemma path_eqb_eq p q : path_eqb p q = true <-> p = q.
Proof.
  revert q. induction p as [|k p IH]; intros [|k' q]; simpl; split;
    try congruence; try reflexivity.
  - intros H. apply andb_true_iff in H as [Hk Hp].
    apply str_eqb_eq in Hk. apply IH in Hp. congruence.
  - intros H. injection H as -> ->. rewrite str_eqb_refl. simpl.
    apply IH. reflexivity.
Qed.

Lemma subscript_insert_back p leaf d q v :
  diverge p q = true ->
  subscript (VDict (insert_path p leaf d)) q = Return v ->
  subscript (VDict d) q = Return v.
Proof.
  revert d q v. induction p as [|k rest IH]; intros d q v Hd Hq;
    [discriminate|].
  destruct q as [|k' q]; [discriminate|].
  cbn [diverge] in Hd.
  destruct (insert_path_head k rest leaf d) as (x & Hx0 & Hx).
  rewrite Hx0 in Hq. clear Hx0.
  cbn [subscript getitem rbind] in *.
  destruct (str_eqb k k') eqn:E.
  - apply str_eqb_eq in E. subst k'. rewrite dict_get_set_same in Hq.
    destruct rest as [|k2 rest]; [discriminate|].
    rewrite Hx in Hq by discriminate. cbn [rbind] in Hq.
    apply IH in Hq; [|exact Hd].
    destruct q as [|k3 q]; [discriminate|].
    unfold child in Hq.
    destruct (dict_get k d) as [[]|]; cbn [rbind];
      try (cbn [subscript getitem dict_get rbind] in Hq; discriminate Hq).
    exact Hq.
  - apply str_eqb_neq in E. rewrite dict_get_set_other in Hq by assumption.
    exact Hq.
Qed.

(** X2 (last write wins).  After any sequence of [add_song] calls on a
    catalog, the lookup of a path that some call names returns the record
    of the last such call; the lookup of any other path returns a record
    exactly when it did before the calls, and then the same record.  The
    tree is still a catalog, and the files and the random generator are
    untouched. *)
Theorem add_songs_last_wins (w : world) (calls : list song) :
  is_catalog (Yggdrasil w) ->
  exists w',
    add_songs calls w = (Return tt, w') /\
    is_catalog (Yggdrasil w') /\ disk w' = disk w /\ gen w' = gen w /\
    forall genre artist album song,
      match last_record [genre; artist; album; song] calls with
      | Some r => eval (lookup genre artist album song) w' = Return r
      | None =>
          forall v,
            eval (lookup genre artist album song) w' = Return v <->
            eval (lookup genre artist album song) w = Return v
      end.
Proof.
  revert w. induction calls as [|c calls IH]; intros w HS.
  - exists w. repeat split; auto.
  - destruct (shaped_dict _ _ HS) as [Y HY]. rewrite HY in HS.
    pose proof (add_song_run (song_genre c) (song_artist c) (song_album c)
                  (song_name c) (song_metadata c) w Y HY HS) as Hadd.
    set (leaf := py_or (song_metadata c) (VDict [])) in *.
    set (w1 := set_tree w (VDict (insert_path (song_path c) leaf Y))).
    assert (HS1 : is_catalog (Yggdrasil w1))
      by (apply (shaped_insert (song_path c)); exact HS).
    destruct (IH w1 HS1) as (w' & Hrun & HS' & Hdisk & Hgen & Hlook).
    exists w'. split.
    { cbn [add_songs]. unfold bind at 1. rewrite Hadd. exact Hrun. }
    split; [exact HS'|]. split; [exact Hdisk|]. split; [exact Hgen|].
    intros genre artist album song. specialize (Hlook genre artist album song).
    cbn [last_record].
    destruct (last_record [genre; artist; album; song] calls) as [r|];
      [exact Hlook|].
    unfold eval in *. rewrite !lookup_run in *. cbn [fst] in *.
    cbn [Yggdrasil w1 set_tree] in Hlook. rewrite HY.
    destruct (path_eqb (song_path c) [genre; artist; album; song]) eqn:E.
    + apply path_eqb_eq in E. rewrite <- E in *. apply Hlook.
      apply subscript_insert_same. discriminate.
    + assert (Hd : diverge (song_path c) [genre; artist; album; song] = true).
      { apply diverge_neq; [reflexivity|]. intros Heq.
        apply path_eqb_eq in Heq. congruence. }
      intros v. rewrite Hlook. split.
      * apply subscript_insert_back, Hd.
      * apply subscript_insert_frame, Hd.
Qed.

Lemma add_songs_last_wins_witness :
  is_catalog (Yggdrasil fresh) /\
  exists w',
    add_songs [bohemian; bohemian] fresh = (Return tt, w') /\
    eval (lookup (u "Rock") (u "Queen") (u "A Night at the Opera")
                 (u "Bohemian Rhapsody")) w'
    = Return (VDict [(u "duration_ms", VInt 354000)]).
Proof.
  split; [reflexivity|].
  destruct (add_songs_last_wins fresh [bohemian; bohemian] eq_refl)
    as (w' & Hrun & _ & _ & _ & Hlook).
  exists w'. split; [exact Hrun|].
  exact (Hlook (u "Rock") (u "Queen") (u "A Night at the Opera")
           (u "Bohemian Rhapsody")).
Defined.

(** ** Trees without dead ends *)

Lemma forallb_get (P : value -> bool) d k v :
  forallb (fun kv => P (snd kv)) d = true -> dict_get k d = Some v ->
  P v = true.
Proof.
  induction d as [|[k0 v0] d IH]; [discriminate|].
  cbn [forallb dict_get snd]. intros H E.
  apply andb_true_iff in H as [H0 Hd].
  destruct (str_eqb k k0); [congruence | auto].
Qed.

Lemma forallb_set (P : value -> bool) d k v :
  forallb (fun kv => P (snd kv)) d = true -> P v = true ->
  forallb (fun kv => P (snd kv)) (dict_set k v d) = true.
Proof.
  intros Hd Hv. induction d as [|[k0 v0] d IH]; cbn [dict_set forallb snd].
  - rewrite Hv. reflexivity.
  - cbn [forallb snd] in Hd. apply andb_true_iff in Hd as [H0 Hd].
    destruct (str_eqb k k0); cbn [forallb snd].
    + rewrite Hv, Hd. reflexivity.
    + rewrite H0, (IH Hd). reflexivity.
Qed.

Lemma dict_set_cons k v d : exists kv d', dict_set k v d = kv :: d'.
Proof.
  destruct d as [|[k0 v0] d]; cbn [dict_set]; [eauto|].
  destruct (str_eqb k k0); eauto.
Qed.

Lemma populated_kids n d :
  populated (S n) (VDict d) = true ->
  forallb (fun kv => populated n (snd kv)) d = true.
Proof. destruct d; [discriminate | auto]. Qed.

Lemma populated_child n k d :
  forallb (fun kv => populated (S n) (snd kv)) d = true ->
  forallb (fun kv => populated n (snd kv)) (child k d) = true.
Proof.
  intros H. unfold child. destruct (dict_get k d) as [v|] eqn:E;
    [|reflexivity].
  pose proof (forallb_get _ _ _ _ H E) as Hv.
  destruct v; try reflexivity. apply populated_kids, Hv.
Qed.

Lemma populated_insert n p leaf d :
  List.length p = S n ->
  forallb (fun kv => populated n (snd kv)) d = true ->
  forallb (fun kv => populated n (snd kv)) (insert_path p leaf d) = true.
Proof.
  revert n d. induction p as [|k rest IH]; intros n d Hn Hd; [exact Hd|].
  destruct rest as [|k2 rest].
  - injection Hn as <-. apply forallb_set; [exact Hd | reflexivity].
  - change (insert_path (k :: k2 :: rest) leaf d)
      with (dict_set k (VDict (insert_path (k2 :: rest) leaf (child k d))) d).
    destruct n as [|n]; [discriminate Hn|].
    assert (Hn' : List.length (k2 :: rest) = S n) by (simpl in *; lia).
    apply forallb_set; [exact Hd|].
    pose proof (IH n (child k d) Hn' (populated_child _ k d Hd)) as Hin.
    destruct (insert_path_head k2 rest leaf (child k d)) as (x & Hx & _).
    rewrite Hx in *.
    destruct (dict_set_cons k2 x (child k d)) as (kv & d' & Hc).
    rewrite Hc in *. exact Hin.
Qed.

Lemma populated_passable n path v :
  populated n v = true -> (List.length path < n)%nat ->
  passable path v = true.
Proof.
  revert n v. induction path as [|k rest IH]; intros n v Hv Hn.
  - destruct n; [inversion Hn|]. destruct v; try discriminate Hv.
    reflexivity.
  - destruct n; [inversion Hn|]. destruct v; try discriminate Hv.
    rewrite passable_cons. destruct (dict_get k d) as [x|] eqn:E;
      [|reflexivity].
    apply (IH n); [|simpl in Hn; lia].
    apply (forallb_get (populated n) d k x); [|exact E].
    apply populated_kids, Hv.
Qed.

Lemma no_dead_end_passable g a b v :
  no_dead_end v = true -> passable [g; a; b] v = true.
Proof.
  destruct v; try discriminate. cbn [no_dead_end]. intros H.
  rewrite passable_cons. destruct (dict_get g d) as [x|] eqn:E;
    [|reflexivity].
  apply (populated_passable 3); [|simpl; lia].
  apply (forallb_get (populated 3) d g x H E).
Qed.

(** X3 (no dead end).  [add_song] never leaves an empty dictionary above
    a song: if every genre has an artist, every artist an album and every
    album a song, then the call returns, the same holds after it, and the
    tree is not empty.  The empty tree is such a tree, so every tree that
    [add_song] alone has built is one. *)
Theorem add_song_no_dead_end
    (w : world) (genre artist album song : str) (record : value) :
  no_dead_end (Yggdrasil w) = true ->
  exists w',
    add_song genre artist album song record w = (Return tt, w') /\
    no_dead_end (Yggdrasil w') = true /\
    truthy (Yggdrasil w') = true.
Proof.
  intros H.
  destruct (Yggdrasil w) as [| | | | |Y] eqn:HY; try discriminate H.
  eexists. split.
  - apply add_song_passable; [exact HY|].
    apply no_dead_end_passable, H.
  - cbn [Yggdrasil set_tree]. split.
    + apply (populated_insert 3 [genre; artist; album; song]);
        [reflexivity | exact H].
    + destruct (insert_path_head genre [artist; album; song]
                  (py_or record (VDict [])) Y) as (x & -> & _).
      destruct (dict_set_cons genre x Y) as (kv & d' & ->). reflexivity.
Qed.

Lemma add_song_no_dead_end_witness :
  no_dead_end (Yggdrasil fresh) = true /\
  exists w',
    add_song (u "Rock") (u "Queen") (u "Jazz") (u "Mustapha") VNone fresh
    = (Return tt, w') /\
    no_dead_end (Yggdrasil w') = true /\
    truthy (Yggdrasil w') = true.
Proof.
  split; [reflexivity|].
  apply (add_song_no_dead_end fresh (u "Rock") (u "Queen") (u "Jazz")
           (u "Mustapha") VNone).
  reflexivity.
Defined.

Lemma draw_step (w : world) (prefix : list str) (n : dict) :
  subscript (Yggdrasil w) prefix = Return (VDict n) -> n <> [] ->
  exists k x,
    (Y <- get_tree ;;
     node <- lift (subscript Y prefix) ;;
     ks <- lift (keys node) ;;
     random_choice ks)%stmt w = (Return k, drawn w) /\
    dict_get k n = Some x.
Proof.
  intros Hn Hne. unfold bind, get_tree, lift. rewrite Hn. cbn [keys].
  assert (Hks : dict_keys n <> []) by (destruct n; [congruence | discriminate]).
  destruct (proj2 (random_choice_run w (dict_keys n)) Hks) as (k & Hk & Hin).
  apply dict_mem_In in Hin. unfold dict_mem in Hin.
  destruct (dict_get k n) as [x|] eqn:E; [|discriminate].
  exists k, x. split; [exact Hk | exact E].
Qed.

Lemma populated_node n v :
  populated (S n) v = true ->
  exists d, v = VDict d /\ d <> [] /\
            forallb (fun kv => populated n (snd kv)) d = true.
Proof.
  destruct v; try discriminate. destruct d; [discriminate|].
  intros H. eexists. split; [reflexivity|]. split; [discriminate | exact H].
Qed.

Lemma subscript_cons d k p :
  subscript (VDict d) (k :: p) =
  match dict_get k d with
  | Some v => subscript v p
  | None => Raise (KeyError k)
  end.
Proof. cbn [subscript getitem]. destruct (dict_get k d); reflexivity. Qed.

(** X4 (random descent).  On a tree that is not empty and has no dead
    end, option 2 of [enter_bragi] raises nothing, whatever the random
    generator draws: it takes four draws and returns a path together with
    the record that a lookup finds at this path. *)
Theorem random_descent_succeeds (w : world) :
  no_dead_end (Yggdrasil w) = true ->
  truthy (Yggdrasil w) = true ->
  exists genre artist album song metadata,
    enter_bragi_random w
    = (Return (Some (genre, artist, album, song, metadata)), draws 4 w) /\
    lookup genre artist album song w = (Return metadata, w).
Proof.
  intros Hnd Ht.
  destruct (Yggdrasil w) as [| | | | |Y] eqn:HY; try discriminate Hnd.
  cbn [no_dead_end] in Hnd. rewrite <- HY in Ht.
  assert (HneY : Y <> []) by (rewrite HY in Ht; destruct Y; [discriminate Ht | discriminate]).
  destruct (draw_step w [] Y (f_equal Return HY) HneY) as (g & G & Hg & EG).
  destruct (populated_node _ _ (forallb_get _ _ _ _ Hnd EG))
    as (Gd & -> & HneG & HG).
  assert (HY1 : Yggdrasil (draws 1 w) = VDict Y) by exact HY.
  destruct (draw_step (draws 1 w) [g] Gd) as (a & A & Ha & EA);
    [rewrite HY1, subscript_cons, EG; reflexivity | exact HneG |].
  destruct (populated_node _ _ (forallb_get _ _ _ _ HG EA))
    as (Ad & -> & HneA & HA).
  assert (HY2 : Yggdrasil (draws 2 w) = VDict Y) by exact HY.
  destruct (draw_step (draws 2 w) [g; a] Ad) as (b & B & Hb & EB);
    [rewrite HY2, subscript_cons, EG, subscript_cons, EA; reflexivity
    | exact HneA |].
  destruct (populated_node _ _ (forallb_get _ _ _ _ HA EB))
    as (Bd & -> & HneB & HB).
  assert (HY3 : Yggdrasil (draws 3 w) = VDict Y) by exact HY.
  destruct (draw_step (draws 3 w) [g; a; b] Bd) as (s & m & Hs & Em);
    [rewrite HY3, subscript_cons, EG, subscript_cons, EA, subscript_cons, EB;
     reflexivity
    | exact HneB |].
  assert (Hlook : forall w0, Yggdrasil w0 = VDict Y ->
                    lookup g a b s w0 = (Return m, w0)).
  { intros w0 H0.
    rewrite lookup_run, H0, subscript_cons, EG, subscript_cons, EA,
      subscript_cons, EB, subscript_cons, Em.
    reflexivity. }
  exists g, a, b, s, m. split; [|apply Hlook, HY].
  unfold enter_bragi_random. unfold bind at 1. cbn [get_tree].
  rewrite Ht. cbn [negb].
  unfold bind at 1. change (random_genre w) with
    ((Y <- get_tree ;; node <- lift (subscript Y []) ;;
      ks <- lift (keys node) ;; random_choice ks)%stmt w).
  rewrite Hg.
  unfold bind at 1. change (random_artist g (drawn w)) with
    ((Y <- get_tree ;; node <- lift (subscript Y [g]) ;;
      ks <- lift (keys node) ;; random_choice ks)%stmt (draws 1 w)).
  rewrite Ha.
  unfold bind at 1. change (random_album g a (drawn (draws 1 w))) with
    ((Y <- get_tree ;; node <- lift (subscript Y [g; a]) ;;
      ks <- lift (keys node) ;; random_choice ks)%stmt (draws 2 w)).
  rewrite Hb.
  unfold bind at 1. change (random_song g a b (drawn (draws 2 w))) with
    ((Y <- get_tree ;; node <- lift (subscript Y [g; a; b]) ;;
      ks <- lift (keys node) ;; random_choice ks)%stmt (draws 3 w)).
  rewrite Hs.
  unfold bind at 1. rewrite (Hlook (drawn (draws 3 w)) HY). reflexivity.
Qed.

Lemma random_descent_succeeds_witness :
  no_dead_end (Yggdrasil rock) = true /\
  truthy (Yggdrasil rock) = true /\
  exists genre artist album song metadata,
    enter_bragi_random rock
    = (Return (Some (genre, artist, album, song, metadata)), draws 4 rock) /\
    lookup genre artist album song rock = (Return metadata, rock).
Proof.
  split; [reflexivity|]. split; [reflexivity|].
  apply (random_descent_succeeds rock); reflexivity.
Defined.

Local Open Scope N_scope.

(** ** The saved document is ASCII *)

Lemma forallb_concat {A} (P : A -> bool) (l : list (list A)) :
  forallb P (concat l) = forallb (forallb P) l.
Proof.
  induction l as [|x l IH]; [reflexivity|].
  cbn [concat forallb]. rewrite forallb_app, IH. reflexivity.
Qed.

Lemma hex_digit_ascii d : d < 16 -> is_ascii_text (hex_digit d) = true.
Proof.
  intros H. unfold hex_digit, is_ascii_text.
  destruct (d <? 10) eqn:E;
    [apply N.ltb_lt in E | apply N.ltb_ge in E];
    apply orb_true_iff; right; apply andb_true_iff;
    split; apply N.leb_le; lia.
Qed.

Lemma uescape_ascii n : forallb is_ascii_text (uescape n) = true.
Proof.
  unfold uescape, hex4. cbn [forallb].
  rewrite !hex_digit_ascii by (apply N.mod_lt; discriminate).
  reflexivity.
Qed.

Lemma escape_char_ascii c : forallb is_ascii_text (escape_char c) = true.
Proof.
  unfold escape_char.
  repeat match goal with
         | |- context [if ?x then _ else _] => destruct x eqn:?
         end;
    try reflexivity.
  - cbn [forallb]. unfold is_ascii_text.
    match goal with H : _ && _ = true |- _ => rewrite H end.
    rewrite orb_true_r. reflexivity.
  - apply uescape_ascii.
  - rewrite forallb_app, !uescape_ascii. reflexivity.
Qed.

Lemma basestring_ascii s :
  forallb is_ascii_text (encode_basestring_ascii s) = true.
Proof.
  unfold encode_basestring_ascii. cbn [forallb].
  rewrite forallb_app. cbn [forallb]. rewrite andb_true_r.
  change (is_ascii_text 34) with true. cbn [andb].
  induction s as [|c s IH]; [reflexivity|].
  cbn [flat_map]. rewrite forallb_app, escape_char_ascii, IH. reflexivity.
Qed.

Lemma uint_chars_ascii d : forallb is_ascii_text (uint_chars d) = true.
Proof. induction d; cbn [uint_chars forallb]; try rewrite IHd; reflexivity. Qed.

Lemma int_repr_ascii z : forallb is_ascii_text (int_repr z) = true.
Proof.
  destruct z; cbn [int_repr forallb]; rewrite ?uint_chars_ascii; reflexivity.
Qed.

Lemma newline_indent_ascii level :
  forallb is_ascii_text (newline_indent level) = true.
Proof.
  unfold newline_indent. cbn [forallb].
  change (is_ascii_text 10) with true. cbn [andb].
  induction (4 * level)%nat as [|n IH]; [reflexivity|].
  cbn [repeat forallb]. rewrite IH. reflexivity.
Qed.

Lemma list_chunks_ascii enc level l :
  Forall (fun x => forallb is_ascii_text (concat (enc x)) = true) l ->
  forall first,
    forallb is_ascii_text (concat (list_chunks enc level first l)) = true.
Proof.
  induction 1 as [|x l Hx Hl IH]; intros first; [reflexivity|].
  cbn [list_chunks]. rewrite concat_app, forallb_app, IH, andb_true_r.
  destruct first, (is_container x); cbn [concat app];
    rewrite ?List.app_nil_r; cbn [forallb];
    rewrite ?forallb_app, ?newline_indent_ascii, ?Hx; reflexivity.
Qed.

Lemma dict_chunks_ascii enc level l :
  Forall (fun kv => forallb is_ascii_text (concat (enc (snd kv))) = true) l ->
  forall first,
    forallb is_ascii_text (concat (dict_chunks enc level first l)) = true.
Proof.
  induction 1 as [|[k x] l Hx Hl IH]; intros first; [reflexivity|].
  cbn [dict_chunks snd] in *.
  rewrite concat_app. cbn [concat].
  rewrite !forallb_app, concat_app, forallb_app, IH, Hx, basestring_ascii.
  destruct first; cbn [concat app];
    rewrite ?List.app_nil_r; cbn [forallb];
    rewrite ?newline_indent_ascii; reflexivity.
Qed.

Lemma iterencode_ascii v :
  forall level, forallb is_ascii_text (concat (iterencode level v)) = true.
Proof.
  induction v as [| b | z | s | l IH | d IH] using value_ind; intros level.
  - reflexivity.
  - destruct b; reflexivity.
  - cbn [iterencode]. rewrite concat_singleton. apply int_repr_ascii.
  - cbn [iterencode]. rewrite concat_singleton. apply basestring_ascii.
  - destruct l as [|x l]; [reflexivity|].
    cbn [iterencode]. rewrite concat_app, forallb_app.
    rewrite list_chunks_ascii.
    + cbn [concat forallb]. rewrite forallb_app, newline_indent_ascii.
      reflexivity.
    + revert IH. apply Forall_impl. intros a Ha. apply Ha.
  - destruct d as [|kv d]; [reflexivity|].
    cbn [iterencode concat]. cbn [forallb].
    rewrite !forallb_app, concat_app, forallb_app, newline_indent_ascii.
    rewrite dict_chunks_ascii.
    + cbn [concat forallb]. rewrite forallb_app, newline_indent_ascii.
      reflexivity.
    + revert IH. apply Forall_impl. intros a Ha. apply Ha.
Qed.


(** ** What the decoder returns is written and read back unchanged *)

Lemma ascii_scalar c : is_ascii_text c = true -> is_scalar c = true.
Proof.
  unfold is_ascii_text, is_scalar. intros H.
  apply orb_true_iff in H as [H|H].
  - apply N.eqb_eq in H. subst c. reflexivity.
  - apply andb_true_iff in H as [_ H]. apply N.leb_le in H.
    apply andb_true_iff. split; [apply N.ltb_lt; lia|].
    apply negb_true_iff, andb_false_iff. left. apply N.leb_gt. lia.
Qed.

Lemma scalar_facts c :
  is_scalar c = true ->
  c < 0x110000 /\ is_high_surrogate c = false /\ is_low_surrogate c = false.
Proof.
  unfold is_scalar, is_high_surrogate, is_low_surrogate. intros H.
  apply andb_true_iff in H as [H1 H2]. apply N.ltb_lt in H1.
  apply negb_true_iff, andb_false_iff in H2.
  split; [exact H1|].
  split; apply andb_false_iff;
    destruct H2 as [H2|H2]; [apply N.leb_gt in H2 | apply N.leb_gt in H2
                            |apply N.leb_gt in H2 | apply N.leb_gt in H2];
    try (left; apply N.leb_gt; lia); try (right; apply N.leb_gt; lia).
Qed.

Lemma last_high_app l x : l <> [] -> last_high (l ++ [x]) = last_high l.
Proof. destruct l; [congruence | reflexivity]. Qed.

Lemma str_ok_snoc s c :
  str_ok (s ++ [c]) =
  str_ok s && (c <? 0x110000)
  && negb (last_high (rev s) && is_low_surrogate c).
Proof.
  induction s as [|x s IH].
  - cbn [app str_ok low_next rev last_high].
    rewrite !andb_false_r, !andb_true_r. reflexivity.
  - change ((x :: s) ++ [c]) with (x :: (s ++ [c])).
    cbn [str_ok]. rewrite IH.
    destruct s as [|y s].
    + cbn [app low_next str_ok rev last_high].
      destruct (x <? 1114112), (is_high_surrogate x), (is_low_surrogate c),
        (c <? 1114112); reflexivity.
    + change (low_next ((y :: s) ++ [c])) with (low_next (y :: s)).
      assert (Hl : last_high (rev (x :: y :: s)) = last_high (rev (y :: s))).
      { change (rev (x :: y :: s)) with (rev (y :: s) ++ [x]).
        apply last_high_app. cbn [rev]. destruct (rev s); discriminate. }
      rewrite Hl.
      destruct (x <? 1114112),
        (is_high_surrogate x && low_next (y :: s)),
        (str_ok (y :: s)), (c <? 1114112),
        (last_high (rev (y :: s)) && is_low_surrogate c); reflexivity.
Qed.

Lemma str_ok_push acc c :
  str_ok (rev acc) = true -> c < 0x110000 ->
  (last_high acc = true -> is_low_surrogate c = false) ->
  str_ok (rev (c :: acc)) = true.
Proof.
  intros Hacc Hc Hlow. cbn [rev]. rewrite str_ok_snoc, rev_involutive, Hacc.
  apply N.ltb_lt in Hc. rewrite Hc. cbn [andb].
  destruct (last_high acc); [|reflexivity]. rewrite Hlow; reflexivity.
Qed.

Lemma hex_value_bound c x : hex_value c = Some x -> x < 16.
Proof.
  unfold hex_value.
  repeat match goal with
         | |- context [if ?b then _ else _] => destruct b eqn:?
         end; intros [= <-];
    repeat match goal with
           | H : _ && _ = true |- _ => apply andb_true_iff in H as [? ?]
           | H : (_ <=? _) = true |- _ => apply N.leb_le in H
           end; lia.
Qed.

Lemma hex4_value_bound a b c d n :
  hex4_value a b c d = Some n -> n < 65536.
Proof.
  unfold hex4_value.
  destruct (hex_value a) as [x|] eqn:Ea; [|discriminate].
  destruct (hex_value b) as [y|] eqn:Eb; [|discriminate].
  destruct (hex_value c) as [z|] eqn:Ec; [|discriminate].
  destruct (hex_value d) as [t|] eqn:Ed; [|discriminate].
  apply hex_value_bound in Ea, Eb, Ec, Ed. intros [= <-]. lia.
Qed.

Lemma backslash_bound e ch : backslash e = Some ch -> ch < 128.
Proof.
  unfold backslash.
  repeat match goal with
         | |- context [if ?b then _ else _] => destruct b
         end; intros [= <-]; lia.
Qed.

Lemma small_facts c :
  c < 0xd800 -> c < 0x110000 /\ is_high_surrogate c = false /\
                is_low_surrogate c = false.
Proof.
  intros H. split; [lia|].
  unfold is_high_surrogate, is_low_surrogate.
  split; apply andb_false_iff; left; apply N.leb_gt; lia.
Qed.

Lemma join_surrogates_facts hi lo :
  is_high_surrogate hi = true -> is_low_surrogate lo = true ->
  join_surrogates hi lo < 0x110000 /\
  is_high_surrogate (join_surrogates hi lo) = false /\
  is_low_surrogate (join_surrogates hi lo) = false.
Proof.
  unfold is_high_surrogate, is_low_surrogate at 1. intros Hh Hl.
  apply andb_true_iff in Hh as [Hh1 Hh2], Hl as [Hl1 Hl2].
  apply N.leb_le in Hh1, Hh2, Hl1, Hl2.
  unfold join_surrogates. rewrite lor_shiftl_add by lia.
  split; [lia|].
  unfold is_high_surrogate, is_low_surrogate.
  split; apply andb_false_iff; right; apply N.leb_gt; lia.
Qed.

Lemma scalar_tail (pre s : str) :
  forallb is_scalar (pre ++ s) = true -> forallb is_scalar s = true.
Proof. rewrite forallb_app. intros H. apply andb_true_iff in H as [_ H]. exact H. Qed.

Lemma scanstring_stable n :
  forall s acc k r,
    (List.length s <= n)%nat ->
    forallb is_scalar s = true ->
    str_ok (rev acc) = true ->
    (last_high acc = true -> no_low_escape s = true) ->
    scanstring s acc = Return (k, r) ->
    str_ok k = true /\ forallb is_scalar r = true.
Proof.
  induction n as [|n IH]; intros s acc k r Hn Hs Hacc Hinv H.
  - destruct s; [discriminate H | simpl in Hn; lia].
  - destruct s as [|c s1]; [discriminate H|].
    cbn [scanstring] in H. unfold decode_error in H.
    destruct (c =? 34) eqn:E34.
    { injection H as <- <-. split; [exact Hacc|].
      apply (scalar_tail [c]), Hs. }
    destruct (c =? 92) eqn:E92.
    + apply N.eqb_eq in E92. subst c.
      destruct s1 as [|esc s2]; [discriminate H|].
      destruct (esc =? 117) eqn:Eu.
      * apply N.eqb_eq in Eu. subst esc.
        destruct s2 as [|h1 [|h2 [|h3 [|h4 [|x s3]]]]]; try discriminate H.
        destruct (hex4_value h1 h2 h3 h4) as [c1|] eqn:Ehex;
          [|discriminate H].
        pose proof (hex4_value_bound _ _ _ _ _ Ehex) as Hc1.
        assert (Hacc1 : str_ok (rev (c1 :: acc)) = true).
        { apply str_ok_push; [exact Hacc | lia |].
          intros Hh. specialize (Hinv Hh). cbn [no_low_escape] in Hinv.
          change ((92 =? 92) && (117 =? 117)) with true in Hinv.
          cbv iota in Hinv. rewrite Ehex in Hinv.
          apply negb_true_iff in Hinv. exact Hinv. }
        assert (Hs3 : forallb is_scalar (x :: s3) = true)
          by (apply (scalar_tail [92; 117; h1; h2; h3; h4]), Hs).
        assert (Hgo : (is_high_surrogate c1 = true ->
                       no_low_escape (x :: s3) = true) ->
                      scanstring (x :: s3) (c1 :: acc) = Return (k, r) ->
                      str_ok k = true /\ forallb is_scalar r = true).
        { intros Hnl Hrun.
          apply (IH (x :: s3) (c1 :: acc) k r);
            [simpl in *; lia | exact Hs3 | exact Hacc1 | exact Hnl
            | exact Hrun]. }
        destruct s3 as [|v [|g1 [|g2 [|g3 [|g4 [|y s4]]]]]];
          try (apply Hgo; [intros _; cbn [no_low_escape];
                           destruct ((x =? 92) && (v =? 117)); reflexivity
                          | exact H]);
          try (apply Hgo; [intros _; reflexivity | exact H]).
        destruct (is_high_surrogate c1) eqn:Eh1;
          [|apply Hgo; [discriminate | exact H]].
        destruct (x =? 92) eqn:Ex;
          [|apply Hgo; [intros _; cbn [no_low_escape]; rewrite Ex; reflexivity
                       | exact H]].
        destruct (v =? 117) eqn:Ev;
          [|apply Hgo; [intros _; cbn [no_low_escape]; rewrite Ex, Ev;
                        reflexivity
                       | exact H]].
        cbn [andb] in H.
        destruct (hex4_value g1 g2 g3 g4) as [c2|] eqn:Ehex2;
          [|discriminate H].
        destruct (is_low_surrogate c2) eqn:El2.
        -- destruct (join_surrogates_facts c1 c2 Eh1 El2) as (Hj & Hjh & Hjl).
           apply (IH (y :: s4) (join_surrogates c1 c2 :: acc) k r);
             [simpl in *; lia
             | apply (scalar_tail [92; 117; h1; h2; h3; h4;
                                   x; v; g1; g2; g3; g4]), Hs
             | apply str_ok_push; auto
             | cbn [last_high]; congruence | exact H].
        -- apply Hgo; [|exact H]. intros _. cbn [no_low_escape].
           rewrite Ex, Ev, Ehex2, El2. reflexivity.
      * destruct (backslash esc) as [ch|] eqn:Eb; [|discriminate H].
        apply backslash_bound in Eb.
        destruct (small_facts ch) as (Hch & Hhi & Hlo); [lia|].
        apply (IH s2 (ch :: acc) k r);
          [simpl in *; lia | apply (scalar_tail [92; esc]), Hs
          | apply str_ok_push; auto
          | cbn [last_high]; congruence | exact H].
    + destruct (c <=? 31); [discriminate H|].
      assert (Hc : is_scalar c = true).
      { cbn [forallb] in Hs. apply andb_true_iff in Hs as [Hs _]. exact Hs. }
      destruct (scalar_facts c Hc) as (Hch & Hhi & Hlo).
      apply (IH s1 (c :: acc) k r);
        [simpl in *; lia | apply (scalar_tail [c]), Hs
        | apply str_ok_push; auto
        | cbn [last_high]; congruence | exact H].
Qed.

Lemma skip_ws_scalar s :
  forallb is_scalar s = true -> forallb is_scalar (skip_ws s) = true.
Proof.
  induction s as [|c s IH]; [reflexivity|]. intros H. cbn [skip_ws].
  destruct (is_ws c); [|exact H]. apply IH, (scalar_tail [c]), H.
Qed.

Lemma after_scalar c s r :
  after c s = Some r -> forallb is_scalar s = true ->
  forallb is_scalar r = true.
Proof.
  destruct s as [|x s]; [discriminate|]. cbn [after].
  destruct (x =? c); [|discriminate]. intros [= <-]. apply (scalar_tail [x]).
Qed.

Lemma skipn_scalar n s :
  forallb is_scalar s = true -> forallb is_scalar (skipn n s) = true.
Proof.
  intros H. rewrite <- (firstn_skipn n s) in H. apply scalar_tail in H.
  exact H.
Qed.

Lemma span_digits_scalar s ds r :
  span_digits s = (ds, r) -> forallb is_scalar s = true ->
  forallb is_scalar r = true.
Proof.
  revert ds r. induction s as [|c s IH]; intros ds r H Hs.
  - injection H as <- <-. reflexivity.
  - cbn [span_digits] in H. destruct (is_digit c).
    + destruct (span_digits s) as [ds' r'] eqn:E. injection H as <- <-.
      apply (IH ds' r' eq_refl), (scalar_tail [c]), Hs.
    + injection H as <- <-. exact Hs.
Qed.

Lemma match_number_stable s v r :
  match_number s = Return (v, r) -> forallb is_scalar s = true ->
  stable v = true /\ forallb is_scalar r = true.
Proof.
  unfold match_number, decode_error. intros H Hs.
  assert (Hnum : forall c s2,
            forallb is_scalar (c :: s2) = true ->
            forall neg,
            (let (ds, r0) :=
               if c =? 48 then ([c], s2)
               else let (ds, r0) := span_digits s2 in (c :: ds, r0) in
             if is_digit c then
               if float_follows r0 then Beyond FloatLiteral
               else Return (VInt (int_of_digits neg ds), r0)
             else Raise (JSONDecodeError ExpectingValue)) = Return (v, r) ->
            stable v = true /\ forallb is_scalar r = true).
  { intros c s2 Hcs neg Hrun.
    pose proof (scalar_tail [c] s2 Hcs) as Hs2.
    destruct (c =? 48).
    - destruct (is_digit c); [|discriminate Hrun].
      destruct (float_follows s2); [discriminate Hrun|].
      injection Hrun as <- <-. split; [reflexivity | exact Hs2].
    - destruct (span_digits s2) as [ds r0] eqn:E.
      destruct (is_digit c); [|discriminate Hrun].
      destruct (float_follows r0); [discriminate Hrun|].
      injection Hrun as <- <-. split; [reflexivity|].
      apply (span_digits_scalar _ _ _ E Hs2). }
  destruct s as [|c s']; [discriminate H|].
  destruct (c =? 45).
  - destruct s' as [|c' s2]; [discriminate H|].
    apply (Hnum c' s2 (scalar_tail [c] _ Hs) true H).
  - apply (Hnum c s' Hs false H).
Qed.

Lemma forallb_rev {A} (P : A -> bool) l :
  forallb P (rev l) = forallb P l.
Proof.
  induction l as [|x l IH]; [reflexivity|].
  cbn [rev forallb]. rewrite forallb_app, IH. cbn [forallb].
  rewrite andb_true_r. apply andb_comm.
Qed.

Lemma scan_stable fuel :
  (forall s v r,
     forallb is_scalar s = true -> scan_once fuel s = Return (v, r) ->
     stable v = true /\ forallb is_scalar r = true) /\
  (forall s acc v r,
     forallb is_scalar s = true -> stable (VDict acc) = true ->
     object_items fuel s acc = Return (v, r) ->
     stable v = true /\ forallb is_scalar r = true) /\
  (forall s acc v r,
     forallb is_scalar s = true -> forallb stable acc = true ->
     array_items fuel s acc = Return (v, r) ->
     stable v = true /\ forallb is_scalar r = true).
Proof.
  induction fuel as [|fuel (IHs & IHo & IHa)].
  - repeat split; intros; discriminate.
  - split; [|split].
    + intros s v r Hs H. cbn [scan_once] in H. unfold decode_error in H.
      destruct s as [|c s']; [discriminate H|].
      pose proof (scalar_tail [c] s' Hs) as Hs'.
      destruct (c =? 34).
      { destruct (scanstring s' []) as [[k r']| |] eqn:E; try discriminate H.
        cbn [rbind fst snd] in H. injection H as <- <-.
        apply (scanstring_stable _ s' [] k r' (le_n _) Hs' eq_refl);
          [discriminate | exact E]. }
      destruct (c =? 123).
      { pose proof (skip_ws_scalar s' Hs') as Hws.
        destruct (after 125 (skip_ws s')) as [rest|] eqn:E.
        - injection H as <- <-. split; [reflexivity|].
          apply (after_scalar _ _ _ E Hws).
        - apply (IHo _ [] _ _ Hws eq_refl H). }
      destruct (c =? 91).
      { pose proof (skip_ws_scalar s' Hs') as Hws.
        destruct (after 93 (skip_ws s')) as [rest|] eqn:E.
        - injection H as <- <-. split; [reflexivity|].
          apply (after_scalar _ _ _ E Hws).
        - apply (IHa _ [] _ _ Hws eq_refl H). }
      repeat match type of H with
             | (if startswith ?a ?b then Return (_, skipn ?n _) else _) = _ =>
                 destruct (startswith a b);
                 [injection H as <- <-; split;
                  [reflexivity | apply (skipn_scalar n b), Hs] |]
             | (if startswith ?a ?b then Beyond _ else _) = _ =>
                 destruct (startswith a b); [discriminate H |]
             end.
      apply (match_number_stable _ _ _ H Hs).
    + intros s acc v r Hs Hacc H. cbn [object_items] in H.
      unfold decode_error in H.
      destruct (after 34 s) as [s1|] eqn:E1; [|discriminate H].
      pose proof (after_scalar _ _ _ E1 Hs) as Hs1.
      destruct (scanstring s1 []) as [[k r1]| |] eqn:E2; try discriminate H.
      destruct (scanstring_stable _ s1 [] k r1 (le_n _) Hs1 eq_refl)
        as (Hk & Hr1); [discriminate | exact E2 |].
      cbn [rbind fst snd] in H.
      pose proof (skip_ws_scalar r1 Hr1) as Hw1.
      destruct (after 58 (skip_ws r1)) as [s2|] eqn:E3; [|discriminate H].
      pose proof (skip_ws_scalar s2 (after_scalar _ _ _ E3 Hw1)) as Hw2.
      destruct (scan_once fuel (skip_ws s2)) as [[x r2]| |] eqn:E4;
        try discriminate H.
      destruct (IHs _ _ _ Hw2 E4) as (Hx & Hr2).
      cbn [rbind fst snd] in H.
      pose proof (skip_ws_scalar r2 Hr2) as Hw3.
      pose proof (stable_dict_set k x acc Hk Hx Hacc) as Hacc'.
      destruct (after 125 (skip_ws r2)) as [rest|] eqn:E5.
      * injection H as <- <-. split; [exact Hacc'|].
        apply (after_scalar _ _ _ E5 Hw3).
      * destruct (after 44 (skip_ws r2)) as [s3|] eqn:E6; [|discriminate H].
        apply (IHo _ _ _ _
                 (skip_ws_scalar s3 (after_scalar _ _ _ E6 Hw3)) Hacc' H).
    + intros s acc v r Hs Hacc H. cbn [array_items] in H.
      unfold decode_error in H.
      destruct (scan_once fuel s) as [[x r2]| |] eqn:E4; try discriminate H.
      destruct (IHs _ _ _ Hs E4) as (Hx & Hr2).
      cbn [rbind fst snd] in H.
      pose proof (skip_ws_scalar r2 Hr2) as Hw3.
      assert (Hacc' : forallb stable (x :: acc) = true)
        by (cbn [forallb]; rewrite Hx, Hacc; reflexivity).
      destruct (after 93 (skip_ws r2)) as [rest|] eqn:E5.
      * injection H as <- <-. split.
        -- cbn [stable]. change (rev acc ++ [x]) with (rev (x :: acc)).
           rewrite forallb_rev. exact Hacc'.
        -- apply (after_scalar _ _ _ E5 Hw3).
      * destruct (after 44 (skip_ws r2)) as [s3|] eqn:E6; [|discriminate H].
        apply (IHa _ _ _ _
                 (skip_ws_scalar s3 (after_scalar _ _ _ E6 Hw3)) Hacc' H).
Qed.

Lemma json_loads_stable s v :
  forallb is_scalar s = true -> json_loads s = Return v -> stable v = true.
Proof.
  intros Hs H. unfold json_loads, decode_error in H.
  destruct (after 65279 s); [discriminate H|].
  destruct (scan_once (2 * List.length s + 1) (skip_ws s)) as [[x r]| |] eqn:E;
    try discriminate H.
  cbn [rbind fst snd] in H.
  destruct (skip_ws r); [|discriminate H]. injection H as <-.
  apply (proj1 (scan_stable _) _ _ _ (skip_ws_scalar s Hs) E).
Qed.

Lemma json_dumps_scalar v : forallb is_scalar (json_dumps v) = true.
Proof.
  pose proof (iterencode_ascii v 0%nat) as H. unfold json_dumps.
  rewrite forallb_forall in *. intros c Hc. apply ascii_scalar, H, Hc.
Qed.

(** X6 (load, save, load).  Whatever document [load_yggdrasil] accepts
    from a file of UTF-8 text, saving the tree and loading it again gives
    the same tree: every key and every attribute of the file, known to the
    program or not, is kept.  The saved document is again such a text. *)
Theorem load_save_load
    (filename : string) (w : world) (content : str) (Y : value) :
  disk w filename = Some content ->
  forallb is_scalar content = true ->
  json_loads content = Return Y ->
  exists w1 w2,
    load_yggdrasil filename w = (Return tt, w1) /\
    Yggdrasil w1 = Y /\
    save_yggdrasil filename w1 = (Return tt, w2) /\
    disk w2 filename = Some (json_dumps Y) /\
    forallb is_scalar (json_dumps Y) = true /\
    forall w3,
      disk w3 filename = disk w2 filename ->
      load_yggdrasil filename w3 = (Return tt, set_tree w3 Y).
Proof.
  intros Hfile Hs HY.
  pose proof (json_loads_stable content Y Hs HY) as Hst.
  exists (set_tree w Y).
  destruct (save_chunks_run filename (iterencode 0 Y) (set_tree w Y))
    as (w2 & Hsave & _ & _ & Hfile2 & _).
  exists w2. split.
  { rewrite (load_yggdrasil_run filename w content Hfile), HY. reflexivity. }
  split; [reflexivity|]. split; [exact Hsave|]. split; [exact Hfile2|].
  split; [apply json_dumps_scalar|].
  intros w3 H3. rewrite Hfile2 in H3.
  rewrite (load_yggdrasil_run filename w3 _ H3).
  change (concat (iterencode 0 Y)) with (json_dumps Y).
  rewrite (json_loads_dumps Y Hst). reflexivity.
Qed.

Local Close Scope N_scope.

(** * Properties of the Spotify functions *)

(** ** Outcomes *)

Ltac ostep H :=
  match type of H with
  | obind ?c _ = _ =>
      let E := fresh "E" in
      destruct c eqn:E; cbn [obind] in H; try discriminate H
  end.

Lemma for_each_Forall2 {A B} (f : A -> outcome B) l l' :
  for_each f l = Ok l' -> Forall2 (fun x y => f x = Ok y) l l'.
Proof.
  revert l'. induction l as [|x l IH]; intros l' H.
  - injection H as <-. constructor.
  - cbn [for_each] in H. ostep H. ostep H. injection H as <-.
    constructor; [exact E | apply IH; reflexivity].
Qed.

Lemma track_metadata_fields track m :
  track_metadata track = Ok m ->
  exists d, m = VDict d /\ dict_keys d = field_names.
Proof.
  unfold track_metadata. intros H. repeat ostep H.
  injection H as <-. eexists. split; reflexivity.
Qed.

Lemma records_fields items results :
  Forall2 (fun track metadata => track_metadata track = Ok metadata)
    items results ->
  Forall (fun metadata =>
            exists d, metadata = VDict d /\ dict_keys d = field_names)
         results.
Proof.
  induction 1 as [|x y l l' Hxy _ IH]; constructor;
    [apply (track_metadata_fields _ _ Hxy) | exact IH].
Qed.

(** ** One request, and what is made of the reply *)

Lemma search_song_on_spotify_run song_name limit s :
  search_song_on_spotify song_name limit s =
  (match search_reply (sp s) (requests (sp s)) (u "track:" ++ song_name) limit
   with
   | Some reply =>
       (found <- of_result (py_get reply (u "tracks") (VDict [])) ;;
        tracks <- of_result (py_get found (u "items") (VList [])) ;;
        if negb (truthy tracks) then Ok []
        else
          items <- of_result (py_iter tracks) ;;
          for_each track_metadata items)%outcome
   | None => Error SpotifyException
   end, asked s).
Proof.
  unfold search_song_on_spotify, wbind, sp_search, pure, wret.
  destruct (search_reply _ _ _ _) as [reply|]; [|reflexivity].
  destruct (of_result (py_get reply (u "tracks") (VDict [])))
    as [found| |]; cbn [obind]; try reflexivity.
  destruct (of_result (py_get found (u "items") (VList [])))
    as [tracks| |]; cbn [obind]; try reflexivity.
  destruct (negb (truthy tracks)); [reflexivity|].
  destruct (of_result (py_iter tracks)); reflexivity.
Qed.

Lemma get_artist_genre_run artist_id s :
  get_artist_genre artist_id s =
  (match artist_reply (sp s) (requests (sp s)) artist_id with
   | Some reply =>
       (genres <- of_result (py_get reply (u "genres") (VList [])) ;;
        if truthy genres then getindex genres 0
        else Ok (VStr (u "Unknown")))%outcome
   | None => Error SpotifyException
   end, asked s).
Proof.
  unfold get_artist_genre, wbind, sp_artist, pure, wret.
  destruct (artist_reply _ _ _) as [reply|]; [|reflexivity].
  destruct (of_result (py_get reply (u "genres") (VList [])))
    as [genres| |]; cbn [obind]; try reflexivity.
  destruct (truthy genres); reflexivity.
Qed.

Lemma search_items
    (s s' : session) (song_name : str) (limit : Z) (results : list value) :
  search_song_on_spotify song_name limit s = (Ok results, s') ->
  s' = asked s /\
  exists reply found tracks items,
    search_reply (sp s) (requests (sp s)) (u "track:" ++ song_name) limit
    = Some reply /\
    py_get reply (u "tracks") (VDict []) = Return found /\
    py_get found (u "items") (VList []) = Return tracks /\
    (truthy tracks = false -> results = []) /\
    (truthy tracks = true ->
     py_iter tracks = Return items /\
     Forall2 (fun track metadata => track_metadata track = Ok metadata)
       items results).
Proof.
  rewrite search_song_on_spotify_run. intros H. injection H as H <-.
  split; [reflexivity|].
  destruct (search_reply _ _ _ _) as [reply|]; [|discriminate H].
  destruct (py_get reply (u "tracks") (VDict [])) as [found| |] eqn:E1;
    try discriminate H.
  cbn [of_result obind] in H.
  destruct (py_get found (u "items") (VList [])) as [tracks| |] eqn:E2;
    try discriminate H.
  cbn [of_result obind] in H.
  destruct (truthy tracks) eqn:Et; cbn [negb] in H.
  - destruct (py_iter tracks) as [items| |] eqn:E3; try discriminate H.
    cbn [of_result obind] in H.
    exists reply, found, tracks, items.
    split; [reflexivity|]. split; [exact E1|]. split; [exact E2|].
    split; [congruence|]. intros _. split; [exact E3|].
    apply for_each_Forall2, H.
  - injection H as <-. exists reply, found, tracks, [].
    split; [reflexivity|]. split; [exact E1|]. split; [exact E2|].
    split; [reflexivity | congruence].
Qed.

Lemma search_fields
    (s s' : session) (song_name : str) (limit : Z) (results : list value) :
  search_song_on_spotify song_name limit s = (Ok results, s') ->
  Forall (fun metadata =>
            exists d, metadata = VDict d /\ dict_keys d = field_names)
         results.
Proof.
  intros H.
  destruct (search_items _ _ _ _ _ H)
    as (_ & reply & found & tracks & items & _ & _ & _ & He & Hne).
  destruct (truthy tracks); [|rewrite (He eq_refl); constructor].
  destruct (Hne eq_refl) as (_ & HF). apply (records_fields _ _ HF).
Qed.

Lemma truthy_items tracks items :
  truthy tracks = true -> py_iter tracks = Return items -> items <> [].
Proof.
  destruct tracks as [| | |[]|[]|[]]; simpl; try discriminate;
    intros _ [= <-]; discriminate.
Qed.

(** X7 (search results).  When [search_song_on_spotify] returns, it has
    made one request and touched nothing else; every result is a
    dictionary with exactly the seven keys [song_name], [artist], [album],
    [artist_id], [spotify_url], [duration_ms] and [track_number], in this
    order; the results are empty exactly when the reply holds no items,
    and otherwise there is one result for each item, in the order of the
    reply. *)
Theorem search_song_on_spotify_records
    (s s' : session) (song_name : str) (limit : Z) (results : list value) :
  search_song_on_spotify song_name limit s = (Ok results, s') ->
  s' = asked s /\
  Forall (fun metadata =>
            exists d, metadata = VDict d /\ dict_keys d = field_names)
         results /\
  exists reply found tracks,
    search_reply (sp s) (requests (sp s)) (u "track:" ++ song_name) limit
    = Some reply /\
    py_get reply (u "tracks") (VDict []) = Return found /\
    py_get found (u "items") (VList []) = Return tracks /\
    (truthy tracks = false -> results = []) /\
    (truthy tracks = true ->
     exists items,
       py_iter tracks = Return items /\
       Forall2 (fun track metadata => track_metadata track = Ok metadata)
         items results /\
       List.length results = List.length items /\
       results <> []).
Proof.
  intros H. pose proof (search_fields _ _ _ _ _ H) as Hfields.
  destruct (search_items _ _ _ _ _ H)
    as (Hs & reply & found & tracks & items & Hreply & E1 & E2 & He & Hne).
  split; [exact Hs|]. split; [exact Hfields|].
  exists reply, found, tracks.
  split; [exact Hreply|]. split; [exact E1|]. split; [exact E2|].
  split; [exact He|]. intros Ht. destruct (Hne Ht) as (E3 & HF).
  exists items. split; [exact E3|]. split; [exact HF|].
  pose proof (Forall2_length HF) as Hlen. split; [symmetry; exact Hlen|].
  pose proof (truthy_items _ _ Ht E3) as Hitems.
  destruct results; [|discriminate].
  destruct items; [congruence | discriminate Hlen].
Qed.

(** X8 (genre).  For a reply that is a dictionary whose [genres], if
    there, is a list, [get_artist_genre] returns the first genre of the
    list, and the string Unknown when the list is empty or missing; it
    makes one request and touches nothing else. *)
Theorem get_artist_genre_first_or_unknown
    (s : session) (artist_id : value) (d : dict) :
  artist_reply (sp s) (requests (sp s)) artist_id = Some (VDict d) ->
  (forall genres,
     dict_get (u "genres") d = Some genres -> exists l, genres = VList l) ->
  get_artist_genre artist_id s =
  (Ok match dict_get (u "genres") d with
      | Some (VList (genre :: _)) => genre
      | _ => VStr (u "Unknown")
      end,
   asked s).
Proof.
  intros Hreply Hlist. rewrite get_artist_genre_run, Hreply.
  cbn [py_get]. destruct (dict_get (u "genres") d) as [genres|];
    [|reflexivity].
  destruct (Hlist genres eq_refl) as [l ->].
  destruct l; reflexivity.
Qed.

Lemma index_nonnegative {A} (l : list A) (i : Z) :
  (0 <= i)%Z -> index l i = nth_error l (Z.to_nat i).
Proof. intros H. unfold index. apply Z.leb_le in H. rewrite H. reflexivity. Qed.

Lemma index_negative {A} (l : list A) (i : Z) :
  (i < 0)%Z ->
  index l i =
  if (0 <=? i + Z.of_nat (List.length l))%Z
  then nth_error l (Z.to_nat (i + Z.of_nat (List.length l)))
  else None.
Proof. intros H. unfold index. apply Z.leb_gt in H. rewrite H. reflexivity. Qed.

Lemma nth_error_in_range {A} (l : list A) (n : nat) :
  (n < List.length l)%nat -> exists x, nth_error l n = Some x.
Proof.
  intros H. destruct (nth_error l n) as [x|] eqn:E; [eauto|].
  apply nth_error_None in E. lia.
Qed.

Section Choice.

Variable int : str -> option Z.

(** X9 (the answer).  The [try] statement of [add_song_dynamic] never
    raises.  It gives up when [int] rejects the answer, when the number is
    0, and when the number is beyond the results.  A number from 1 to the
    number of results selects by counting from one.  A negative number,
    down to one minus the number of results, selects as well, counting
    from the end: -1 is the last result but one. *)
Theorem choose_counts_from_one (results : list value) (choice : str) :
  (int choice = None -> choose int results choice = Ok None) /\
  (forall n,
     int choice = Some n ->
     (n = 0 -> choose int results choice = Ok None)%Z /\
     (1 <= n <= Z.of_nat (List.length results) ->
      exists metadata,
        nth_error results (Z.to_nat (n - 1)) = Some metadata /\
        choose int results choice = Ok (Some metadata))%Z /\
     (- Z.of_nat (List.length results) < n < 0 ->
      exists metadata,
        nth_error results
          (Z.to_nat (Z.of_nat (List.length results) + n - 1)) = Some metadata /\
        choose int results choice = Ok (Some metadata))%Z /\
     (Z.of_nat (List.length results) < n \/
      n <= - Z.of_nat (List.length results) ->
      choose int results choice = Ok None)%Z).
Proof.
  unfold choose. split; [intros ->; reflexivity|].
  intros n ->. cbn [obind]. split; [intros ->; reflexivity|].
  split; [|split].
  - intros Hn. destruct (Z.eqb_spec n 0); [lia|].
    cbn [getindex]. rewrite index_nonnegative by lia.
    destruct (nth_error_in_range results (Z.to_nat (n - 1))) as [m Hm];
      [lia|].
    exists m. rewrite Hm. split; reflexivity.
  - intros Hn. destruct (Z.eqb_spec n 0); [lia|].
    cbn [getindex]. rewrite index_negative by lia.
    destruct (Z.leb_spec 0 (n - 1 + Z.of_nat (List.length results))); [|lia].
    replace (n - 1 + Z.of_nat (List.length results))%Z
      with (Z.of_nat (List.length results) + n - 1)%Z by lia.
    destruct (nth_error_in_range results
                (Z.to_nat (Z.of_nat (List.length results) + n - 1)))
      as [m Hm]; [lia|].
    exists m. rewrite Hm. split; reflexivity.
  - intros Hn. destruct (Z.eqb_spec n 0).
    + subst n. destruct Hn as [Hn|Hn]; [lia|]. reflexivity.
    + cbn [getindex]. destruct Hn as [Hn|Hn].
      * rewrite index_nonnegative by lia.
        assert (E : nth_error results (Z.to_nat (n - 1)) = None)
          by (apply nth_error_None; lia).
        rewrite E. reflexivity.
      * rewrite index_negative by lia.
        destruct (Z.leb_spec 0 (n - 1 + Z.of_nat (List.length results)));
          [lia|]. reflexivity.
Qed.

End Choice.

(** ** Running a statement of the session *)

Lemma wbind_run {A B} (c : W A) (k : A -> W B) s o s1 :
  c s = (o, s1) ->
  wbind c k s =
  match o with
  | Ok a => k a s1
  | Error e => (Error e, s1)
  | Outside g => (Outside g, s1)
  end.
Proof. intros H. unfold wbind. rewrite H. destruct o; reflexivity. Qed.

Lemma wbind_pure {A B} (o : outcome A) (k : A -> W B) s :
  wbind (pure o) k s =
  match o with
  | Ok a => k a s
  | Error e => (Error e, s)
  | Outside g => (Outside g, s)
  end.
Proof. apply wbind_run. reflexivity. Qed.

Lemma input_run s :
  input s =
  match stdin s with
  | line :: lines => (Ok line, set_stdin s lines)
  | [] => (Error EOFError, s)
  end.
Proof. reflexivity. Qed.

Lemma wbind_input {B} (k : str -> W B) s :
  wbind input k s =
  match stdin s with
  | line :: lines => k line (set_stdin s lines)
  | [] => (Error EOFError, s)
  end.
Proof. unfold wbind, input. destruct (stdin s); reflexivity. Qed.

Lemma run_add_song g a b n m s :
  (exists Y,
     Yggdrasil (process s) = VDict Y /\
     passable [g; a; b] (Yggdrasil (process s)) = true /\
     run (add_song g a b n m) s =
     (Ok tt,
      set_process s
        (set_tree (process s)
           (VDict (insert_path [g; a; b; n] (py_or m (VDict [])) Y))))) \/
  run (add_song g a b n m) s
  = (Error (Exception TypeError), set_process s (process s)).
Proof.
  destruct (passable [g; a; b] (Yggdrasil (process s))) eqn:E.
  - left. destruct (passable_dict _ _ E) as [Y HY]. exists Y.
    split; [exact HY|]. split; [reflexivity|].
    unfold run. rewrite (add_song_passable g a b n m (process s) Y HY);
      [reflexivity | rewrite <- HY; exact E].
  - right. unfold run. rewrite (add_song_stuck g a b n m (process s) E).
    reflexivity.
Qed.

Lemma run_save_yggdrasil filename s :
  exists w',
    run (save_yggdrasil filename) s = (Ok tt, set_process s w') /\
    Yggdrasil w' = Yggdrasil (process s) /\ gen w' = gen (process s) /\
    disk w' filename = Some (json_dumps (Yggdrasil (process s))) /\
    (forall f, f <> filename -> disk w' f = disk (process s) f).
Proof.
  destruct (save_chunks_run filename (iterencode 0 (Yggdrasil (process s)))
              (process s)) as (w' & Hrun & HY & Hg & Hfile & Hother).
  exists w'. split; [|auto].
  unfold run. rewrite save_yggdrasil_run, Hrun. reflexivity.
Qed.

Lemma fewer_lines_tail s line lines :
  stdin s = line :: lines -> fewer_lines s (set_stdin (asked s) lines).
Proof. intros H. unfold fewer_lines. rewrite H. simpl. lia. Qed.

Lemma getitem_field m d k v :
  m = VDict d -> getitem m k = Return v -> dict_get k d = Some v.
Proof.
  intros ->. cbn [getitem]. destruct (dict_get k d); congruence.
Qed.

Lemma Forall2_In_r {A B} (R : A -> B -> Prop) l l' y :
  Forall2 R l l' -> In y l' -> exists x, In x l /\ R x y.
Proof.
  induction 1 as [|a b l l' Hab _ IH]; intros Hin; [destruct Hin|].
  destruct Hin as [<-|Hin].
  - exists a. split; [left; reflexivity | exact Hab].
  - destruct (IH Hin) as (x & Hx & Hxy). exists x. split; [right|]; assumption.
Qed.

Lemma index_In {A} (l : list A) i x : index l i = Some x -> In x l.
Proof.
  unfold index.
  destruct (0 <=? i)%Z; [apply nth_error_In|].
  destruct (0 <=? i + Z.of_nat (List.length l))%Z;
    [apply nth_error_In | discriminate].
Qed.

Ltac nothing_added H :=
  injection H as <- <-;
  (split; [reflexivity|]); (split; [reflexivity|]);
  (split; [unfold fewer_lines; simpl; lia|]);
  left; split; [intros ? ?; discriminate | reflexivity].

Ltac unchanged H Hp Hsp Hl :=
  injection H as <- <-;
  cbn [sp asked set_process set_stdin process stdin
       search_reply artist_reply requests];
  rewrite ?Hsp;
  cbn [sp asked set_process set_stdin process stdin
       search_reply artist_reply requests];
  (split; [reflexivity|]); (split; [reflexivity|]);
  (split;
   [unfold fewer_lines in *;
    cbn [sp asked set_process set_stdin process stdin] in *; lia|]);
  left; split; [intros ? ?; discriminate | rewrite ?Hp; reflexivity].

Section Dynamic.

Variable int : str -> option Z.

Lemma choose_In results choice metadata :
  choose int results choice = Ok (Some metadata) -> In metadata results.
Proof.
  unfold choose. destruct (int choice) as [n|]; [|discriminate].
  cbn [obind]. destruct (n =? 0)%Z; [discriminate|].
  cbn [getindex]. destruct (index results (n - 1)) as [m|] eqn:E;
    [|discriminate].
  cbn [obind try_except]. intros [= <-]. apply (index_In _ _ _ E).
Qed.

(** What [add_song_dynamic] does, by cases: nothing is added, or one of the
    results of the search is added and the tree is saved. *)
Lemma add_song_dynamic_cases song_name s o s' :
  add_song_dynamic int song_name s = (o, s') ->
  search_reply (sp s') = search_reply (sp s) /\
  artist_reply (sp s') = artist_reply (sp s) /\
  fewer_lines s s' /\
  (((forall metadata, o <> Ok (Some metadata)) /\ process s' = process s) \/
   (exists results metadata artist_id genre artist album name Y,
      o = Ok (Some metadata) /\
      fst (search_song_on_spotify song_name 7 s) = Ok results /\
      In metadata results /\
      getitem metadata (u "artist_id") = Return artist_id /\
      fst (get_artist_genre artist_id (asked s)) = Ok (VStr genre) /\
      getitem metadata (u "artist") = Return (VStr artist) /\
      getitem metadata (u "album") = Return (VStr album) /\
      getitem metadata (u "song_name") = Return (VStr name) /\
      Yggdrasil (process s) = VDict Y /\
      passable [genre; artist; album] (VDict Y) = true /\
      Yggdrasil (process s')
      = VDict (insert_path [genre; artist; album; name]
                 (py_or metadata (VDict [])) Y) /\
      gen (process s') = gen (process s) /\
      disk (process s') default_filename
      = Some (json_dumps (Yggdrasil (process s'))) /\
      (forall f, f <> default_filename ->
                 disk (process s') f = disk (process s) f) /\
      requests (sp s') = S (S (requests (sp s))) /\
      ((results = [metadata] /\ stdin s' = stdin s) \/
       ((1 < List.length results)%nat /\
        exists choice,
          stdin s = choice :: stdin s' /\
          choose int results choice = Ok (Some metadata))))).
Proof.
  intros H. unfold add_song_dynamic in H.
  destruct (search_song_on_spotify song_name 7 s) as [r s1] eqn:Es.
  pose proof (search_song_on_spotify_run song_name 7 s) as Hs.
  rewrite Es in Hs. injection Hs as Hr ->.
  rewrite (wbind_run _ _ _ _ _ Es) in H. clear Hr.
  destruct r as [results|e|g]; try (nothing_added H).
  destruct results as [|m0 rest]; [nothing_added H|].
  cbn [truthy negb] in H.
  set (results := m0 :: rest) in *.
  assert (Hsel : exists selected s2,
            (if (1 <? List.length results)%nat
             then (pure (print_results results) ;;
                   choice <- input ;; pure (choose int results choice))%flow
             else (metadata <- pure (getindex (VList results) 0) ;;
                   wret (Some metadata))%flow) (asked s) = (selected, s2) /\
            process s2 = process s /\ sp s2 = sp (asked s) /\
            fewer_lines s s2 /\
            (forall metadata,
               selected = Ok (Some metadata) ->
               In metadata results /\
               ((results = [metadata] /\ stdin s2 = stdin s) \/
                ((1 < List.length results)%nat /\
                 exists choice,
                   stdin s = choice :: stdin s2 /\
                   choose int results choice = Ok (Some metadata))))).
  { destruct (1 <? List.length results)%nat eqn:Elen.
    - rewrite wbind_pure. destruct (print_results results) as [u0|e|g];
        try (eexists; eexists; split; [reflexivity|];
             repeat split; try reflexivity;
             [unfold fewer_lines; simpl; lia | discriminate
             | discriminate]).
      rewrite wbind_input.
      cbn [stdin asked]. destruct (stdin s) as [|line lines] eqn:Hin.
      + eexists; eexists; split; [reflexivity|].
        split; [reflexivity|]. split; [reflexivity|].
        split; [unfold fewer_lines; simpl; lia | discriminate].
      + eexists; eexists; split; [reflexivity|].
        split; [reflexivity|]. split; [reflexivity|].
        split; [unfold fewer_lines; cbn [stdin set_stdin]; rewrite Hin;
                simpl; lia|].
        intros metadata [= Hc]. split; [apply (choose_In _ _ _ Hc)|].
        right. split; [apply Nat.ltb_lt, Elen|].
        exists line. split; [reflexivity | exact Hc].
    - rewrite wbind_pure.
      assert (Hrest : rest = []).
      { apply Nat.ltb_ge in Elen. destruct rest; [reflexivity|].
        simpl in Elen. lia. }
      subst rest. subst results. cbn.
      eexists; eexists; split; [reflexivity|].
      split; [reflexivity|]. split; [reflexivity|].
      split; [unfold fewer_lines; simpl; lia|].
      intros metadata [= <-]. split; [left; reflexivity|].
      left. split; reflexivity. }
  destruct Hsel as (selected & s2 & Hsel & Hp2 & Hsp2 & Hl2 & Hin2).
  rewrite (wbind_run _ _ _ _ _ Hsel) in H.
  destruct selected as [[metadata|]|e|g]; try (unchanged H Hp2 Hsp2 Hl2).
  destruct (Hin2 metadata eq_refl) as [Hin3 Hasked]. clear Hin2.
  rewrite wbind_pure in H.
  destruct (getitem metadata (u "artist_id")) as [artist_id| |] eqn:Eid;
    cbn [of_result] in H; try (unchanged H Hp2 Hsp2 Hl2).
  destruct (get_artist_genre artist_id s2) as [og s3] eqn:Eg.
  pose proof (get_artist_genre_run artist_id s2) as Hg.
  rewrite Eg in Hg. injection Hg as Hog ->.
  rewrite (wbind_run _ _ _ _ _ Eg) in H.
  assert (Hgenre : fst (get_artist_genre artist_id (asked s)) = og).
  { rewrite get_artist_genre_run. cbn [fst]. rewrite <- Hsp2. symmetry.
    exact Hog. }
  clear Hog.
  destruct og as [genre|e|g]; try (unchanged H Hp2 Hsp2 Hl2).
  rewrite wbind_pure in H.
  destruct (getitem metadata (u "artist")) as [artist| |] eqn:Ea;
    cbn [of_result] in H; try (unchanged H Hp2 Hsp2 Hl2).
  rewrite wbind_pure in H.
  destruct (getitem metadata (u "album")) as [album| |] eqn:Eb;
    cbn [of_result] in H; try (unchanged H Hp2 Hsp2 Hl2).
  rewrite wbind_pure in H.
  destruct (getitem metadata (u "song_name")) as [name| |] eqn:En;
    cbn [of_result] in H; try (unchanged H Hp2 Hsp2 Hl2).
  rewrite wbind_pure in H.
  destruct genre as [| | |genre| |]; cbn [as_key] in H;
    try (unchanged H Hp2 Hsp2 Hl2).
  rewrite wbind_pure in H.
  destruct artist as [| | |artist| |]; cbn [as_key] in H;
    try (unchanged H Hp2 Hsp2 Hl2).
  rewrite wbind_pure in H.
  destruct album as [| | |album| |]; cbn [as_key] in H;
    try (unchanged H Hp2 Hsp2 Hl2).
  rewrite wbind_pure in H.
  destruct name as [| | |name| |]; cbn [as_key] in H;
    try (unchanged H Hp2 Hsp2 Hl2).
  destruct (run_add_song genre artist album name metadata (asked s2))
    as [(Y & HY & Hpass & Hadd)|Hadd];
    rewrite (wbind_run _ _ _ _ _ Hadd) in H;
    [|unchanged H Hp2 Hsp2 Hl2].
  match type of Hadd with _ = (_, ?s4) => set (s4' := s4) in * end.
  destruct (run_save_yggdrasil default_filename s4')
    as (w' & Hsave & HY' & Hgen' & Hfile' & Hother').
  rewrite (wbind_run _ _ _ _ _ Hsave) in H.
  rewrite wbind_pure in H. cbn [of_result] in H.
  injection H as <- <-.
  cbn [sp asked set_process set_stdin process stdin s4'
       search_reply artist_reply requests Yggdrasil disk gen set_tree] in *.
  rewrite Hsp2, Hp2 in *.
  cbn [sp asked set_process set_stdin process stdin
       search_reply artist_reply requests] in *.
  split; [reflexivity|]. split; [reflexivity|].
  split; [exact Hl2|]. right.
  exists results, metadata, artist_id, genre, artist, album, name, Y.
  split; [reflexivity|]. split; [reflexivity|]. split; [exact Hin3|].
  split; [exact Eid|]. split; [exact Hgenre|]. split; [exact Ea|].
  split; [exact Eb|]. split; [exact En|]. split; [exact HY|].
  split; [rewrite <- HY; exact Hpass|]. split; [exact HY'|].
  split; [exact Hgen'|]. split; [rewrite HY'; exact Hfile'|].
  split; [exact Hother'|]. split; [reflexivity | exact Hasked].
Qed.

End Dynamic.

Lemma search_records_dicts song_name limit s results metadata :
  fst (search_song_on_spotify song_name limit s) = Ok results ->
  In metadata results ->
  exists d, metadata = VDict d /\ dict_keys d = field_names.
Proof.
  intros Hs Hin.
  destruct (search_song_on_spotify song_name limit s) as [o s1] eqn:E.
  cbn [fst] in Hs. subst o.
  pose proof (search_fields _ _ _ _ _ E) as HF.
  rewrite Forall_forall in HF. apply HF, Hin.
Qed.

Section DynamicProperties.

Variable int : str -> option Z.


(** X11 (a song is added).  When [add_song_dynamic] returns a metadata, it
    is one of the results of the search, with its seven keys; the tree is
    the old one with the metadata itself stored under the genre that
    [get_artist_genre] gave for its [artist_id] and under its own
    [artist], [album] and [song_name], and a lookup finds it there; the
    file [yggdrasil.json] holds the document of the new tree and no other
    file has changed; two requests were made; no line was read when the
    search gave one result, and one line, the answer that selects the
    metadata, when it gave several; every other song that was in the tree
    is still there, with its record. *)
Theorem add_song_dynamic_adds
    (song_name : str) (s s' : session) (metadata : value) :
  add_song_dynamic int song_name s = (Ok (Some metadata), s') ->
  exists results d artist_id genre artist album name Y,
    fst (search_song_on_spotify song_name 7 s) = Ok results /\
    In metadata results /\
    metadata = VDict d /\ dict_keys d = field_names /\
    dict_get (u "artist_id") d = Some artist_id /\
    fst (get_artist_genre artist_id (asked s)) = Ok (VStr genre) /\
    dict_get (u "artist") d = Some (VStr artist) /\
    dict_get (u "album") d = Some (VStr album) /\
    dict_get (u "song_name") d = Some (VStr name) /\
    Yggdrasil (process s) = VDict Y /\
    Yggdrasil (process s')
    = VDict (insert_path [genre; artist; album; name] metadata Y) /\
    eval (lookup genre artist album name) (process s') = Return metadata /\
    disk (process s') default_filename
    = Some (json_dumps (Yggdrasil (process s'))) /\
    (forall f, f <> default_filename ->
               disk (process s') f = disk (process s) f) /\
    gen (process s') = gen (process s) /\
    requests (sp s') = S (S (requests (sp s))) /\
    ((results = [metadata] /\ stdin s' = stdin s) \/
     ((1 < List.length results)%nat /\
      exists choice,
        stdin s = choice :: stdin s' /\
        choose int results choice = Ok (Some metadata))) /\
    (forall genre' artist' album' song' record,
       [genre'; artist'; album'; song'] <> [genre; artist; album; name] ->
       eval (lookup genre' artist' album' song') (process s) = Return record ->
       eval (lookup genre' artist' album' song') (process s') = Return record).
Proof.
  intros H.
  destruct (add_song_dynamic_cases int _ _ _ _ H)
    as (_ & _ & _ & [[Hno _]|Hadd]); [destruct (Hno metadata eq_refl)|].
  destruct Hadd as (results & m & artist_id & genre & artist & album & name
                    & Y & [= <-] & Hs & Hin & Eid & Hg & Ea & Eb & En & HY
                    & _ & HY' & Hgen & Hfile & Hother & Hreq & Hasked).
  destruct (search_records_dicts _ _ _ _ _ Hs Hin) as (d & -> & Hd).
  assert (Hleaf : py_or (VDict d) (VDict []) = VDict d) by apply py_or_dict.
  rewrite Hleaf in HY'.
  exists results, d, artist_id, genre, artist, album, name, Y.
  split; [exact Hs|]. split; [exact Hin|]. split; [reflexivity|].
  split; [exact Hd|].
  split; [apply (getitem_field _ _ _ _ eq_refl Eid)|].
  split; [exact Hg|].
  split; [apply (getitem_field _ _ _ _ eq_refl Ea)|].
  split; [apply (getitem_field _ _ _ _ eq_refl Eb)|].
  split; [apply (getitem_field _ _ _ _ eq_refl En)|].
  split; [exact HY|]. split; [exact HY'|].
  split.
  { unfold eval. rewrite lookup_run. cbn [fst]. rewrite HY'.
    apply subscript_insert_same. discriminate. }
  split; [exact Hfile|]. split; [exact Hother|]. split; [exact Hgen|].
  split; [exact Hreq|]. split; [exact Hasked|].
  intros genre' artist' album' song' record Hne.
  unfold eval. rewrite !lookup_run. cbn [fst]. rewrite HY, HY'.
  apply subscript_insert_frame. apply diverge_neq; [reflexivity|].
  intros Heq. apply Hne. symmetry. exact Heq.
Qed.

End DynamicProperties.

(** ** Statements that only read *)

Lemma reads_only_ret {A} (a : A) : reads_only (ret a).
Proof. intros w. repeat split. discriminate. Qed.

Lemma reads_only_get_tree : reads_only get_tree.
Proof. intros w. repeat split. discriminate. Qed.

Lemma reads_only_lift {A} (r : result A) :
  (forall l, r <> Beyond l) -> reads_only (lift r).
Proof. intros H w. repeat split. exact H. Qed.

Lemma reads_only_bind {A B} (c : M A) (k : A -> M B) :
  reads_only c -> (forall a, reads_only (k a)) -> reads_only (bind c k).
Proof.
  intros Hc Hk w. unfold bind. destruct (Hc w) as (HY & Hd & Hl).
  destruct (c w) as [[a|e|l] w1]; cbn [fst snd] in *.
  - destruct (Hk a w1) as (HY1 & Hd1 & Hl1).
    rewrite HY1, Hd1. auto.
  - repeat split; auto. discriminate.
  - destruct (Hl l eq_refl).
Qed.

Lemma reads_only_random_choice {A} (seq : list A) :
  reads_only (random_choice seq).
Proof.
  intros w. unfold random_choice. destruct seq; repeat split; discriminate.
Qed.

Lemma getitem_total c k l : getitem c k <> Beyond l.
Proof. destruct c; cbn; try discriminate. destruct (dict_get k d); discriminate. Qed.

Lemma subscript_total c path l : subscript c path <> Beyond l.
Proof.
  revert c. induction path as [|k path IH]; intros c; [discriminate|].
  cbn [subscript]. pose proof (getitem_total c k) as Hg.
  destruct (getitem c k) as [x| |l']; cbn [rbind];
    [apply IH | discriminate | destruct (Hg l' eq_refl)].
Qed.

Lemma keys_total c l : keys c <> Beyond l.
Proof. destruct c; discriminate. Qed.

Lemma reads_only_enumerate_keys prefix : reads_only (enumerate_keys prefix).
Proof.
  unfold enumerate_keys.
  apply reads_only_bind; [apply reads_only_get_tree | intros Y].
  apply reads_only_bind; [apply reads_only_lift, subscript_total | intros n].
  apply reads_only_lift, keys_total.
Qed.

Lemma reads_only_lookup g a b n : reads_only (lookup g a b n).
Proof.
  unfold lookup.
  apply reads_only_bind; [apply reads_only_get_tree | intros Y].
  apply reads_only_lift, subscript_total.
Qed.

Lemma reads_only_selector prefix :
  reads_only (Y <- get_tree ;;
              node <- lift (subscript Y prefix) ;;
              ks <- lift (keys node) ;;
              random_choice ks)%stmt.
Proof.
  apply reads_only_bind; [apply reads_only_get_tree | intros Y].
  apply reads_only_bind; [apply reads_only_lift, subscript_total | intros n].
  apply reads_only_bind; [apply reads_only_lift, keys_total | intros ks].
  apply reads_only_random_choice.
Qed.

Lemma reads_only_enter_bragi_random : reads_only enter_bragi_random.
Proof.
  unfold enter_bragi_random.
  apply reads_only_bind; [apply reads_only_get_tree | intros Y].
  destruct (negb (truthy Y)); [apply reads_only_ret|].
  apply reads_only_bind; [apply (reads_only_selector []) | intros g].
  apply reads_only_bind; [apply (reads_only_selector [g]) | intros a].
  apply reads_only_bind; [apply (reads_only_selector [g; a]) | intros b].
  apply reads_only_bind; [apply (reads_only_selector [g; a; b]) | intros n].
  apply reads_only_bind; [apply reads_only_lookup | intros m].
  apply reads_only_ret.
Qed.

(** ** What the statements do to the session *)

Lemma same_store_refl s : same_store s s.
Proof. repeat split. Qed.

Lemma same_store_trans s1 s2 s3 :
  same_store s1 s2 -> same_store s2 s3 -> same_store s1 s3.
Proof.
  intros (A1 & A2 & A3 & A4) (B1 & B2 & B3 & B4).
  repeat split; congruence.
Qed.

Lemma calm_refl s : calm s s.
Proof. split; [apply same_store_refl | unfold fewer_lines; lia]. Qed.

Lemma calm_trans s1 s2 s3 : calm s1 s2 -> calm s2 s3 -> calm s1 s3.
Proof.
  intros [A1 A2] [B1 B2]. split; [apply (same_store_trans _ _ _ A1 B1)|].
  unfold fewer_lines in *. lia.
Qed.




Lemma steps_bind (R : session -> session -> Prop) {A B}
    (c : W A) (k : A -> W B) :
  (forall s1 s2 s3, R s1 s2 -> R s2 s3 -> R s1 s3) ->
  steps R c -> (forall a, steps R (k a)) -> steps R (wbind c k).
Proof.
  intros Ht Hc Hk s. unfold wbind. specialize (Hc s).
  destruct (c s) as [[a|e|g] s1]; cbn [snd] in *; try exact Hc.
  apply (Ht _ _ _ Hc (Hk a s1)).
Qed.


Lemma calm_wret {A} (a : A) : steps calm (wret a).
Proof. intros s. apply calm_refl. Qed.

Lemma calm_pure {A} (o : outcome A) : steps calm (pure o).
Proof. intros s. apply calm_refl. Qed.

Lemma calm_input : steps calm input.
Proof.
  intros s. unfold input. destruct (stdin s) as [|line lines] eqn:E;
    [apply calm_refl|].
  split; [repeat split|]. unfold fewer_lines. cbn [snd stdin set_stdin].
  rewrite E. simpl. lia.
Qed.

Lemma calm_asked s : calm s (asked s).
Proof. split; [repeat split | unfold fewer_lines; simpl; lia]. Qed.

Lemma calm_get_artist_genre artist_id : steps calm (get_artist_genre artist_id).
Proof. intros s. rewrite get_artist_genre_run. apply calm_asked. Qed.

Lemma calm_search song_name limit :
  steps calm (search_song_on_spotify song_name limit).
Proof. intros s. rewrite search_song_on_spotify_run. apply calm_asked. Qed.

Lemma calm_run {A} (c : M A) : reads_only c -> steps calm (run c).
Proof.
  intros Hc s. destruct (Hc (process s)) as (HY & Hd & _).
  split; [repeat split; assumption | unfold fewer_lines; simpl; lia].
Qed.

Lemma calm_print_song metadata : steps calm (print_song metadata).
Proof.
  unfold print_song.
  repeat (apply (steps_bind calm); [exact calm_trans | apply calm_pure |];
          intros ?).
  apply calm_wret.
Qed.

(** ** What is taken out of a reply is written and read back unchanged *)





Local Open Scope N_scope.


Local Close Scope N_scope.












(** ** The outcome is never the end of the rounds *)

Lemma within_of_result {A} (r : result A) :
  r <> Beyond OutOfFuel -> within (of_result r).
Proof. unfold within. destruct r; cbn; congruence. Qed.
















Lemma in_time_run {A} (c : M A) :
  (forall w, fst (c w) <> Beyond OutOfFuel) -> in_time (run c).
Proof. intros Hc s. apply within_of_result, Hc. Qed.






Lemma in_time_load filename : in_time (run (load_yggdrasil filename)).
Proof.
  apply in_time_run. intros w.
  destruct (disk w filename) as [content|] eqn:E.
  - rewrite (load_yggdrasil_run filename w content E).
    pose proof (json_loads_fuel content) as Hf.
    destruct (json_loads content) as [Y|e|l]; cbn [fst]; try discriminate.
    congruence.
  - unfold load_yggdrasil, bind, path_exists. rewrite E. discriminate.
Qed.


Section Session.

Variable int : str -> option Z.
Variable lower : str -> str.




End Session.

Ltac calm_tac :=
  repeat first
    [ apply calm_wret
    | apply calm_pure
    | apply calm_input
    | apply calm_print_song
    | apply calm_get_artist_genre
    | apply calm_run;
      first [ apply reads_only_get_tree
            | apply reads_only_enumerate_keys
            | apply reads_only_lookup
            | apply reads_only_enter_bragi_random ]
    | apply (steps_bind calm); [exact calm_trans | | intros ?]
    | match goal with
      | |- steps _ (if ?b then _ else _) => destruct b
      | |- steps _ (match ?x with Some _ => _ | None => _ end) => destruct x
      | |- steps _ (let (_, _) := ?x in _) => destruct x
      end ].


Section Bragi.

Variable int : str -> option Z.
Variable lower : str -> str.







End Bragi.

Lemma print_song_run metadata s :
  print_song metadata s =
  (match metadata with
   | VDict _ => Ok tt
   | _ => Error (Exception AttributeError)
   end, s).
Proof.
  unfold print_song, wbind, pure, wret.
  destruct metadata; cbn [py_get of_result]; try reflexivity.
  repeat match goal with
         | |- context [dict_get ?k ?d] => destruct (dict_get k d)
         end; reflexivity.
Qed.

Lemma run_enumerate_keys {B} prefix (k : list str -> W B) s :
  wbind (run (enumerate_keys prefix)) k s =
  match keys_at (Yggdrasil (process s)) prefix with
  | Return ks => k ks (set_process s (process s))
  | Raise e => (Error (Exception e), set_process s (process s))
  | Beyond l => (Outside (Limit l), set_process s (process s))
  end.
Proof.
  unfold wbind, run. rewrite enumerate_keys_run. cbn [fst snd].
  destruct (keys_at (Yggdrasil (process s)) prefix); reflexivity.
Qed.

Section BragiProperties.

Variable int : str -> option Z.
Variable lower : str -> str.

(** X12 (browsing).  [enter_bragi] reads the option first and raises
    [EOFError] when there is no line.  With any option but 3 the tree and
    the files are afterwards as they were, and with an option that is none
    of 1, 2 and 3 the function returns at once. *)
Theorem enter_bragi_browsing (s : session) :
  (stdin s = [] -> enter_bragi int s = (Error EOFError, s)) /\
  (forall choice lines,
     stdin s = choice :: lines ->
     choice <> u "3" ->
     Yggdrasil (process (snd (enter_bragi int s))) = Yggdrasil (process s) /\
     disk (process (snd (enter_bragi int s))) = disk (process s) /\
     (choice <> u "1" -> choice <> u "2" ->
      enter_bragi int s = (Ok tt, set_stdin s lines))).
Proof.
  unfold enter_bragi. rewrite wbind_input. split.
  - intros ->. reflexivity.
  - intros choice lines -> H3.
    apply str_eqb_neq in H3. rewrite H3.
    assert (Hcalm : forall c : W unit,
              steps calm c ->
              Yggdrasil (process (snd (c (set_stdin s lines))))
              = Yggdrasil (process s) /\
              disk (process (snd (c (set_stdin s lines))))
              = disk (process s)).
    { intros c Hc. destruct (Hc (set_stdin s lines)) as [(HY & Hd & _) _].
      split; assumption. }
    destruct (str_eqb choice (u "1")) eqn:E1.
    { match goal with
      | |- context [snd (?c (set_stdin s lines))] =>
          destruct (Hcalm c) as [HY Hd]; [calm_tac|]
      end.
      split; [exact HY|]. split; [exact Hd|].
      apply str_eqb_eq in E1. congruence. }
    destruct (str_eqb choice (u "2")) eqn:E2.
    { match goal with
      | |- context [snd (?c (set_stdin s lines))] =>
          destruct (Hcalm c) as [HY Hd]; [calm_tac|]
      end.
      split; [exact HY|]. split; [exact Hd|].
      apply str_eqb_eq in E2. congruence. }
    split; [reflexivity|]. split; reflexivity.
Qed.

(** X13 (options 1 and 2).  Option 1, with the four answers of the user,
    ends as [enter_bragi_manual] does, and option 2 as [enter_bragi_random]
    does: their exceptions are raised, an empty tree returns at once, and
    the song found is printed.  Printing raises [AttributeError] when the
    record of the song is no dictionary, as a record read from a file can
    be. *)
Theorem enter_bragi_shows_song (s : session) :
  (forall genre artist album song lines,
     stdin s = u "1" :: genre :: artist :: album :: song :: lines ->
     fst (enter_bragi int s) =
     match eval (enter_bragi_manual genre artist album song) (process s) with
     | Return None | Return (Some (VDict _)) => Ok tt
     | Return (Some _) => Error (Exception AttributeError)
     | Raise e => Error (Exception e)
     | Beyond l => Outside (Limit l)
     end) /\
  (forall lines,
     stdin s = u "2" :: lines ->
     fst (enter_bragi int s) =
     match eval enter_bragi_random (process s) with
     | Return None | Return (Some (_, VDict _)) => Ok tt
     | Return (Some _) => Error (Exception AttributeError)
     | Raise e => Error (Exception e)
     | Beyond l => Outside (Limit l)
     end).
Proof.
  unfold enter_bragi. rewrite wbind_input. split.
  - intros genre artist album song lines ->.
    change (str_eqb (u "1") (u "1")) with true. cbv iota.
    unfold eval, enter_bragi_manual.
    unfold wbind at 1. unfold run at 1. unfold bind at 1.
    cbn [get_tree fst snd of_result process set_stdin set_process].
    destruct (negb (truthy (Yggdrasil (process s)))); [reflexivity|].
    rewrite run_enumerate_keys. unfold bind at 1.
    rewrite enumerate_keys_run.
    cbn [process set_process set_stdin stdin].
    destruct (keys_at (Yggdrasil (process s)) []); try reflexivity.
    rewrite wbind_input. cbn [process set_process set_stdin stdin].
    rewrite run_enumerate_keys. unfold bind at 1.
    rewrite enumerate_keys_run.
    cbn [process set_process set_stdin stdin].
    destruct (keys_at (Yggdrasil (process s)) [genre]); try reflexivity.
    rewrite wbind_input. cbn [process set_process set_stdin stdin].
    rewrite run_enumerate_keys. unfold bind at 1.
    rewrite enumerate_keys_run.
    cbn [process set_process set_stdin stdin].
    destruct (keys_at (Yggdrasil (process s)) [genre; artist]);
      try reflexivity.
    rewrite wbind_input. cbn [process set_process set_stdin stdin].
    rewrite run_enumerate_keys. unfold bind at 1.
    rewrite enumerate_keys_run.
    cbn [process set_process set_stdin stdin].
    destruct (keys_at (Yggdrasil (process s)) [genre; artist; album]);
      try reflexivity.
    rewrite wbind_input. cbn [process set_process set_stdin stdin].
    unfold wbind, run, bind.
    cbn [fst snd process set_process set_stdin]. rewrite !lookup_run.
    cbn [fst snd process set_process set_stdin].
    destruct (subscript (Yggdrasil (process s)) [genre; artist; album; song])
      as [m| |]; cbn [of_result ret fst]; try reflexivity.
    rewrite print_song_run. destruct m; reflexivity.
  - intros lines ->.
    change (str_eqb (u "2") (u "1")) with false.
    change (str_eqb (u "2") (u "2")) with true. cbv iota.
    unfold eval, wbind, run. cbn [process set_stdin].
    destruct (enter_bragi_random (process s)) as [[[[p m]|]| |] w'];
      cbn [fst snd of_result]; try reflexivity.
    rewrite print_song_run. destruct m; reflexivity.
Qed.

(** X14 (option 3).  Option 3 reads the name and calls
    [add_song_dynamic]; what comes after changes nothing in the process.
    When nothing was added the function returns, and an exception of
    [add_song_dynamic] is raised.  When a song was added, the genre is
    asked for a second time, and [enter_bragi] ends as this second request
    does: if it fails, the exception is raised although the song is added
    and saved. *)
Theorem enter_bragi_search
    (s : session) (song_name : str) (lines : list str) :
  stdin s = u "3" :: song_name :: lines ->
  exists found s1,
    add_song_dynamic int song_name (set_stdin s lines) = (found, s1) /\
    process (snd (enter_bragi int s)) = process s1 /\
    (found = Ok None -> enter_bragi int s = (Ok tt, s1)) /\
    (forall e, found = Error e -> enter_bragi int s = (Error e, s1)) /\
    (forall metadata,
       found = Ok (Some metadata) ->
       exists artist_id,
         getitem metadata (u "artist_id") = Return artist_id /\
         enter_bragi int s =
         (match fst (get_artist_genre artist_id s1) with
          | Ok _ => Ok tt
          | Error e => Error e
          | Outside g => Outside g
          end, asked s1)).
Proof.
  intros Hin. unfold enter_bragi. rewrite wbind_input, Hin.
  change (str_eqb (u "3") (u "1")) with false.
  change (str_eqb (u "3") (u "2")) with false.
  change (str_eqb (u "3") (u "3")) with true. cbv iota.
  rewrite wbind_input. cbn [stdin set_stdin].
  change (set_stdin (set_stdin s (song_name :: lines)) lines)
    with (set_stdin s lines).
  destruct (add_song_dynamic int song_name (set_stdin s lines))
    as [found s1] eqn:E.
  exists found, s1. split; [reflexivity|].
  rewrite (wbind_run _ _ _ _ _ E).
  destruct (add_song_dynamic_cases int _ _ _ _ E)
    as (_ & _ & _ & [[Hno _]|Hadd]).
  - destruct found as [[m|]|e|g]; [destruct (Hno m eq_refl)| | |];
      (split; [reflexivity|]); (split; [reflexivity || discriminate|]);
      (split; [intros e0 [= <-]; reflexivity || discriminate|]);
      discriminate.
  - destruct Hadd as (results & m & artist_id & genre & artist & album & name
                      & Y & -> & Hs & Hm & Eid & _ & Ea & Eb & En & _).
    destruct (search_records_dicts _ _ _ _ _ Hs Hm) as (d & -> & Hd).
    assert (Ht : truthy (VDict d) = true)
      by (destruct d; [discriminate Hd | reflexivity]).
    rewrite Ht. cbn [negb]. rewrite wbind_pure, Eid. cbn [of_result].
    destruct (get_artist_genre artist_id s1) as [og sg] eqn:Eg.
    pose proof (get_artist_genre_run artist_id s1) as Hg.
    rewrite Eg in Hg. injection Hg as _ ->.
    rewrite (wbind_run _ _ _ _ _ Eg).
    assert (Hrest : forall x : value,
              (_ <- pure (of_result (getitem (VDict d) (u "artist"))) ;;
               _ <- pure (of_result (getitem (VDict d) (u "album"))) ;;
               _ <- pure (of_result (getitem (VDict d) (u "song_name"))) ;;
               print_song (VDict d))%flow (asked s1) = (Ok tt, asked s1)).
    { intros _. rewrite wbind_pure, Ea. cbn [of_result].
      rewrite wbind_pure, Eb. cbn [of_result].
      rewrite wbind_pure, En. cbn [of_result].
      apply print_song_run. }
    assert (Hlast : forall m,
              Ok (Some (VDict d)) = Ok (Some m) ->
              exists artist_id0,
                getitem m (u "artist_id") = Return artist_id0 /\
                match og with
                | Ok a => (fun _ : value =>
                    (_ <- pure (of_result (getitem (VDict d) (u "artist"))) ;;
                     _ <- pure (of_result (getitem (VDict d) (u "album"))) ;;
                     _ <- pure (of_result
                                  (getitem (VDict d) (u "song_name"))) ;;
                     print_song (VDict d))%flow) a (asked s1)
                | Error e => (Error e, asked s1)
                | Outside g => (Outside g, asked s1)
                end =
                (match fst (get_artist_genre artist_id0 s1) with
                 | Ok _ => Ok tt
                 | Error e => Error e
                 | Outside g => Outside g
                 end, asked s1)).
    { intros m [= <-]. exists artist_id. split; [exact Eid|].
      rewrite Eg. cbn [fst]. destruct og as [genre'|e|g];
        [exact (Hrest genre') | reflexivity | reflexivity]. }
    split; [destruct og as [genre'|e|g];
            try rewrite (Hrest genre'); reflexivity|].
    split; [discriminate|]. split; [discriminate | exact Hlast].
Qed.


End BragiProperties.

(** ** The properties, on the small session *)

Lemma load_save_load_witness :
  let w := rock_with_file (u "[1,2]") in
  disk w default_filename = Some (u "[1,2]") /\
  forallb is_scalar (u "[1,2]") = true /\
  json_loads (u "[1,2]") = Return (VList [VInt 1; VInt 2]) /\
  exists w1 w2,
    load_yggdrasil default_filename w = (Return tt, w1) /\
    Yggdrasil w1 = VList [VInt 1; VInt 2] /\
    save_yggdrasil default_filename w1 = (Return tt, w2) /\
    disk w2 default_filename = Some (json_dumps (VList [VInt 1; VInt 2])).
Proof.
  split; [reflexivity|]. split; [reflexivity|]. split; [reflexivity|].
  destruct (load_save_load default_filename (rock_with_file (u "[1,2]"))
              (u "[1,2]") (VList [VInt 1; VInt 2])
              eq_refl eq_refl eq_refl)
    as (w1 & w2 & Hload & HY & Hsave & Hfile & _).
  exists w1, w2. repeat split; assumption.
Defined.

Lemma search_song_on_spotify_records_witness :
  exists results,
    search_song_on_spotify (u "Bohemian") 7 (opening [])
    = (Ok results, asked (opening [])) /\
    Forall (fun metadata =>
              exists d, metadata = VDict d /\ dict_keys d = field_names)
           results.
Proof.
  eexists. split; [vm_compute; reflexivity|].
  apply (search_song_on_spotify_records (opening []) (asked (opening []))
           (u "Bohemian") 7).
  vm_compute. reflexivity.
Defined.

Lemma get_artist_genre_first_or_unknown_witness :
  let d := [(u "genres", VList [VStr (u "rock"); VStr (u "glam")])] in
  artist_reply (sp (opening [])) (requests (sp (opening [])))
    (VStr (u "1dfeR4HaWDbWqFHLkxsg1d")) = Some (VDict d) /\
  (forall genres,
     dict_get (u "genres") d = Some genres -> exists l, genres = VList l) /\
  get_artist_genre (VStr (u "1dfeR4HaWDbWqFHLkxsg1d")) (opening [])
  = (Ok (VStr (u "rock")), asked (opening [])).
Proof.
  assert (Hlist : forall genres,
            dict_get (u "genres")
              [(u "genres", VList [VStr (u "rock"); VStr (u "glam")])]
            = Some genres -> exists l, genres = VList l).
  { intros genres [= <-]. eexists. reflexivity. }
  split; [reflexivity|]. split; [exact Hlist|].
  apply (get_artist_genre_first_or_unknown (opening [])
           (VStr (u "1dfeR4HaWDbWqFHLkxsg1d")) _ eq_refl Hlist).
Defined.


Lemma add_song_dynamic_adds_witness :
  exists metadata s',
    add_song_dynamic int_decimal (u "Bohemian") (opening [u "2"])
    = (Ok (Some metadata), s') /\
    eval (lookup (u "rock") (u "Queen") (u "Live Killers")
                 (u "Bohemian Rhapsody - Live")) (process s')
    = Return metadata /\
    disk (process s') default_filename
    = Some (json_dumps (Yggdrasil (process s'))).
Proof.
  eexists. eexists. split; [vm_compute; reflexivity|].
  match goal with
  | |- eval _ (process ?s') = Return ?m /\ _ =>
      destruct (add_song_dynamic_adds int_decimal (u "Bohemian")
                  (opening [u "2"]) s' m)
        as (results & d & artist_id & genre & artist & album & name & Y
            & _ & _ & _ & _ & _ & _ & _ & _ & _ & _ & _ & _ & Hfile & _);
      [vm_compute; reflexivity|]
  end.
  split; [vm_compute; reflexivity | exact Hfile].
Defined.

Lemma enter_bragi_search_witness :
  let s := opening [u "3"; u "Nothing"] in
  stdin s = u "3" :: u "Nothing" :: [] /\
  enter_bragi int_decimal s = (Ok tt, asked (set_stdin s [])).
Proof.
  split; [reflexivity|].
  destruct (enter_bragi_search int_decimal (opening [u "3"; u "Nothing"])
              (u "Nothing") [] eq_refl)
    as (found & s1 & E & _ & Hnone & _).
  assert (E0 : add_song_dynamic int_decimal (u "Nothing")
                 (set_stdin (opening [u "3"; u "Nothing"]) [])
               = (Ok None,
                  asked (set_stdin (opening [u "3"; u "Nothing"]) [])))
    by (vm_compute; reflexivity).
  rewrite E0 in E. injection E as <- <-. exact (Hnone eq_refl).
Defined.



(** ** The session, on examples *)

(** A negative answer counts from the end of the results: with two
    results, the answer -1 selects the first one. *)
Example negative_answer :
  exists s',
    add_song_dynamic int_decimal (u "Bohemian") (opening [u "-1"])
    = (Ok (Some (VDict [(u "song_name", VStr (u "Bohemian Rhapsody"));
                        (u "artist", VStr (u "Queen"));
                        (u "album", VStr (u "A Night at the Opera"));
                        (u "artist_id", VStr (u "1dfeR4HaWDbWqFHLkxsg1d"));
                        (u "spotify_url",
                         VStr (u "https://open.spotify.com/track/1"));
                        (u "duration_ms", VInt 354000);
                        (u "track_number", VInt 11)])), s').
Proof. eexists. vm_compute. reflexivity. Qed.

(** A genre without an artist, as a file can hold it, is a dead end: the
    random option raises [IndexError] after one draw. *)
Example dead_end :
  let w := set_tree fresh (VDict [(u "Rock", VDict [])]) in
  no_dead_end (Yggdrasil w) = false /\
  enter_bragi_random w = (Raise IndexError, drawn w).
Proof. split; reflexivity. Qed.

(** A track without an artist: the search raises [IndexError] and returns
    no list. *)
Example track_without_artist :
  track_metadata
    (VDict [(u "name", VStr (u "Untitled")); (u "artists", VList [])])
  = Error (Exception IndexError).
Proof. reflexivity. Qed.

(** A session: a search that adds the live recording, a random song, a
    manual navigation to the song, and the end of the program.  The file
    holds the tree at the end. *)
Example a_session :
  let s := opening [u "3"; u "Bohemian"; u "2"; u "y"; u "2"; u "y";
                    u "1"; u "rock"; u "Queen"; u "Live Killers";
                    u "Bohemian Rhapsody - Live"; u "n"] in
  fst (main int_decimal lower_case s) = Ok tt /\
  stdin (snd (main int_decimal lower_case s)) = [] /\
  requests (sp (snd (main int_decimal lower_case s))) = 3 /\
  keys_at (Yggdrasil (process (snd (main int_decimal lower_case s))))
    [u "rock"; u "Queen"] = Return [u "Live Killers"].
Proof. vm_compute. repeat split; reflexivity. Qed.
